(** * Investor vesting contract: ledger, vesting formula and claim protocol

    A shallow embedding of the [InvestorVesting] contract class
    (near-sdk-js, TypeScript) together with the properties of its vesting
    calculator, its ledger operations and its two-phase claim / withdraw
    protocol.

    Conventions of the embedding.

    - A JavaScript [bigint] is a [Z]; [/] on [bigint] truncates toward
      zero and is [Z.quot].
    - The contract keeps its counters as decimal strings produced by
      [BigInt.prototype.toString] and reads them back with [BigInt(..)].
      That round trip is the identity, so those fields are [Z].  The one
      field stored exactly as the caller supplied it, [tgeTimestampNs],
      keeps its string form ([NumArg]).
    - A method is a function from the contract state to an [Outcome]:
      either it returned a value, or it threw.  Both carry the state of the
      object at the moment the method was left, so that every write that
      precedes a [throw] is visible.  What the host keeps of a call that
      threw is not in the sources.  The specification relies on an
      atomic-call guarantee, under which such a call leaves the state it
      was called in ([committed]); the invariants of the transition
      system further down are proved whether the writes are kept or
      discarded ([retained]).
    - [UnorderedMap] is a finite map keyed by strings ([gmap string _]).
    - [near.log] has no effect on the state and is left out.
    - The decorator [@call] of near-sdk-js wraps the method it decorates
      in two checks made before the body runs; a decorated method is
      written with its wrapper ([call]).  [@initialize] and [@view] add
      no check.
    - The calculator of the earlier version of the contract ([Legacy]) and
      the token the contract is paired with ([MockFT]) are embedded the
      same way, each with the state of its own class. *)

From Stdlib Require Import ZArith.
From stdpp Require Import gmap strings list fin_maps.

Local Open Scope Z_scope.

(** ** Values crossing the contract boundary *)

(** A call argument of declared type [string] that the contract reads as
    a number.  The contract applies four operations to such a value: the
    truthiness test [!x], the default [x ?? d], the comparison [x === ''],
    and [BigInt(x)].  Every JavaScript string (or absent field) falls in
    one of four classes with respect to them. *)
Inductive NumArg : Type :=
| Undefined            (* the field is absent *)
| EmptyStr             (* the empty string: falsy, BigInt gives 0 *)
| Malformed            (* non-empty, BigInt raises SyntaxError *)
| Numeral (z : Z).     (* non-empty, BigInt gives z *)

(** A call argument holding an identifier: absent, or a string. *)
Abbreviation IdArg := (option string) (only parsing).

(** [!x] on an identifier. *)
Definition falsyId (x : IdArg) : bool :=
  match x with
  | None => true
  | Some s => bool_decide (s = "")
  end.

(** [!x] on a numeric string. *)
Definition falsyNum (x : NumArg) : bool :=
  match x with
  | Undefined | EmptyStr => true
  | Malformed | Numeral _ => false
  end.

(** [x ?? d] *)
Definition orElse (x d : NumArg) : NumArg :=
  match x with
  | Undefined => d
  | _ => x
  end.

(** ** Errors *)

Inductive Error : Type :=
| AlreadyInitialized
| TokenAccountRequired
| TgeRequired
| InitialClaimParamRequired
| InvestorsArrayRequired
| InvestorFieldsRequired
| DuplicateInvestor (account : string)
| UnknownGroup (group : string)
| AmountNotPositive
| AllocationBelowClaimed (account : string)
| OnlyOwnerClaimsOnBehalf
| NoAllocation
| NothingToClaim
| InsufficientPoolBalance
| AmountRequired
| WithdrawalNotPositive
| AmountExceedsPool
| DepositNotPositive
| InvestorRecordMissing
| TokenTransferFailed
| GroupsRequired
| GroupIdRequired
| DuplicateGroup (group : string)
| NegativeDuration
| NegativeInitialUnlock
| InitialUnlockAboveDenominator
| InitialClaimBasisOutOfRange
| NegativeInitialClaimTimestamp
| InitialClaimTimestampRequired
| OnlyOwner
| OneYoctoRequired
| OnlySelf
| OnlyTokenContract
| AccountIdRequired
| FunctionIsPrivate
| FunctionIsNotPayable
| BigIntSyntaxError
| BigIntTypeError.

(** ** Contract state *)

Record GroupConfigInput : Type := {
  id : IdArg;
  cliff_duration_ns : NumArg;
  vesting_duration_ns : NumArg;
  initial_unlock_basis_points : NumArg;
}.

Record GroupConfigStored : Type := {
  cliffDurationNs : Z;
  vestingDurationNs : Z;
  initialUnlockBasisPoints : Z;
}.

Record InvestorInput : Type := {
  account_id : IdArg;
  group_id : IdArg;
  amount : NumArg;
}.

Record InvestorRecord : Type := {
  groupId : string;
  totalAllocation : Z;
  claimed : Z;
}.

Record InitialClaimConfigInput : Type := {
  initial_claim_basis_points : NumArg;
  initial_claim_available_timestamp_ns : NumArg;
}.

Record State : Type := {
  owner : string;
  tokenAccountId : string;
  tgeTimestampNs : NumArg;
  initialClaimBasisPoints : Z;
  initialClaimAvailableTimestampNs : Z;
  totalDeposited : Z;
  totalClaimed : Z;
  totalWithdrawn : Z;
  poolBalance : Z;
  groups : gmap string GroupConfigStored;
  investors : gmap string InvestorRecord;
}.

(** The field initialisers of the class. *)
Definition fresh : State := {|
  owner := "";
  tokenAccountId := "";
  tgeTimestampNs := Numeral 0;
  initialClaimBasisPoints := 0;
  initialClaimAvailableTimestampNs := 0;
  totalDeposited := 0;
  totalClaimed := 0;
  totalWithdrawn := 0;
  poolBalance := 0;
  groups := ∅;
  investors := ∅;
|}.

(** What the runtime tells a method about the call in progress. *)
Record Env : Type := {
  predecessorAccountId : string;
  currentAccountId : string;
  attachedDeposit : Z;
  blockTimestamp : Z;
  (* whether the promise a callback resolves has succeeded;
     [near.promiseResult(0)] throws when it has not *)
  promiseSucceeded : bool;
}.

(** ** Constants *)

Definition ONE_YOCTO : Z := 1.
Definition NO_DEPOSIT : Z := 0.
Definition BASIS_POINTS_DENOMINATOR : Z := 10000.

(** ** Methods as state transformers that may throw *)

Inductive Outcome (A : Type) : Type :=
| Returned (a : A) (s : State)
| Threw (e : Error) (s : State).

Arguments Returned {A} a s.
Arguments Threw {A} e s.

Definition M (A : Type) : Type := State → Outcome A.

#[export] Instance M_ret : MRet M := λ A a s, Returned a s.

#[export] Instance M_bind : MBind M := λ A B k c s,
  match c s with
  | Returned a s' => k a s'
  | Threw e s' => Threw e s'
  end.

Definition throw {A} (e : Error) : M A := λ s, Threw e s.

Definition this : M State := λ s, Returned s s.

Definition update (f : State → State) : M unit := λ s, Returned tt (f s).

(** [if (c) throw e] *)
Definition throwIf (c : bool) (e : Error) : M unit :=
  if c then throw e else mret tt.

Notation "c ;; k" := (c ≫= (λ _ : unit, k))
  (at level 100, k at level 200, right associativity, only parsing).

(** The state in which a method was left. *)
Definition finalState {A} (o : Outcome A) : State :=
  match o with
  | Returned _ s => s
  | Threw _ s => s
  end.

(** [BigInt(x)] *)
Definition BigInt (x : NumArg) : M Z :=
  match x with
  | Undefined => throw BigIntTypeError
  | EmptyStr => mret 0
  | Malformed => throw BigIntSyntaxError
  | Numeral z => mret z
  end.

(** Field assignments. *)
Definition set_owner (v : string) (s : State) : State :=
  {| owner := v; tokenAccountId := tokenAccountId s;
     tgeTimestampNs := tgeTimestampNs s;
     initialClaimBasisPoints := initialClaimBasisPoints s;
     initialClaimAvailableTimestampNs := initialClaimAvailableTimestampNs s;
     totalDeposited := totalDeposited s; totalClaimed := totalClaimed s;
     totalWithdrawn := totalWithdrawn s; poolBalance := poolBalance s;
     groups := groups s; investors := investors s |}.

Definition set_tokenAccountId (v : string) (s : State) : State :=
  {| owner := owner s; tokenAccountId := v;
     tgeTimestampNs := tgeTimestampNs s;
     initialClaimBasisPoints := initialClaimBasisPoints s;
     initialClaimAvailableTimestampNs := initialClaimAvailableTimestampNs s;
     totalDeposited := totalDeposited s; totalClaimed := totalClaimed s;
     totalWithdrawn := totalWithdrawn s; poolBalance := poolBalance s;
     groups := groups s; investors := investors s |}.

Definition set_tgeTimestampNs (v : NumArg) (s : State) : State :=
  {| owner := owner s; tokenAccountId := tokenAccountId s;
     tgeTimestampNs := v;
     initialClaimBasisPoints := initialClaimBasisPoints s;
     initialClaimAvailableTimestampNs := initialClaimAvailableTimestampNs s;
     totalDeposited := totalDeposited s; totalClaimed := totalClaimed s;
     totalWithdrawn := totalWithdrawn s; poolBalance := poolBalance s;
     groups := groups s; investors := investors s |}.

Definition set_initialClaimBasisPoints (v : Z) (s : State) : State :=
  {| owner := owner s; tokenAccountId := tokenAccountId s;
     tgeTimestampNs := tgeTimestampNs s;
     initialClaimBasisPoints := v;
     initialClaimAvailableTimestampNs := initialClaimAvailableTimestampNs s;
     totalDeposited := totalDeposited s; totalClaimed := totalClaimed s;
     totalWithdrawn := totalWithdrawn s; poolBalance := poolBalance s;
     groups := groups s; investors := investors s |}.

Definition set_initialClaimAvailableTimestampNs (v : Z) (s : State) : State :=
  {| owner := owner s; tokenAccountId := tokenAccountId s;
     tgeTimestampNs := tgeTimestampNs s;
     initialClaimBasisPoints := initialClaimBasisPoints s;
     initialClaimAvailableTimestampNs := v;
     totalDeposited := totalDeposited s; totalClaimed := totalClaimed s;
     totalWithdrawn := totalWithdrawn s; poolBalance := poolBalance s;
     groups := groups s; investors := investors s |}.

Definition set_totalDeposited (v : Z) (s : State) : State :=
  {| owner := owner s; tokenAccountId := tokenAccountId s;
     tgeTimestampNs := tgeTimestampNs s;
     initialClaimBasisPoints := initialClaimBasisPoints s;
     initialClaimAvailableTimestampNs := initialClaimAvailableTimestampNs s;
     totalDeposited := v; totalClaimed := totalClaimed s;
     totalWithdrawn := totalWithdrawn s; poolBalance := poolBalance s;
     groups := groups s; investors := investors s |}.

Definition set_totalClaimed (v : Z) (s : State) : State :=
  {| owner := owner s; tokenAccountId := tokenAccountId s;
     tgeTimestampNs := tgeTimestampNs s;
     initialClaimBasisPoints := initialClaimBasisPoints s;
     initialClaimAvailableTimestampNs := initialClaimAvailableTimestampNs s;
     totalDeposited := totalDeposited s; totalClaimed := v;
     totalWithdrawn := totalWithdrawn s; poolBalance := poolBalance s;
     groups := groups s; investors := investors s |}.

Definition set_totalWithdrawn (v : Z) (s : State) : State :=
  {| owner := owner s; tokenAccountId := tokenAccountId s;
     tgeTimestampNs := tgeTimestampNs s;
     initialClaimBasisPoints := initialClaimBasisPoints s;
     initialClaimAvailableTimestampNs := initialClaimAvailableTimestampNs s;
     totalDeposited := totalDeposited s; totalClaimed := totalClaimed s;
     totalWithdrawn := v; poolBalance := poolBalance s;
     groups := groups s; investors := investors s |}.

Definition set_poolBalance (v : Z) (s : State) : State :=
  {| owner := owner s; tokenAccountId := tokenAccountId s;
     tgeTimestampNs := tgeTimestampNs s;
     initialClaimBasisPoints := initialClaimBasisPoints s;
     initialClaimAvailableTimestampNs := initialClaimAvailableTimestampNs s;
     totalDeposited := totalDeposited s; totalClaimed := totalClaimed s;
     totalWithdrawn := totalWithdrawn s; poolBalance := v;
     groups := groups s; investors := investors s |}.

Definition set_groups (v : gmap string GroupConfigStored) (s : State) : State :=
  {| owner := owner s; tokenAccountId := tokenAccountId s;
     tgeTimestampNs := tgeTimestampNs s;
     initialClaimBasisPoints := initialClaimBasisPoints s;
     initialClaimAvailableTimestampNs := initialClaimAvailableTimestampNs s;
     totalDeposited := totalDeposited s; totalClaimed := totalClaimed s;
     totalWithdrawn := totalWithdrawn s; poolBalance := poolBalance s;
     groups := v; investors := investors s |}.

Definition set_investors (v : gmap string InvestorRecord) (s : State) : State :=
  {| owner := owner s; tokenAccountId := tokenAccountId s;
     tgeTimestampNs := tgeTimestampNs s;
     initialClaimBasisPoints := initialClaimBasisPoints s;
     initialClaimAvailableTimestampNs := initialClaimAvailableTimestampNs s;
     totalDeposited := totalDeposited s; totalClaimed := totalClaimed s;
     totalWithdrawn := totalWithdrawn s; poolBalance := poolBalance s;
     groups := groups s; investors := v |}.

(** ** The vesting calculator *)

(** [computeVestedAmount(total, group, timestamp)].  The local [vested]
    is assigned three times in the source; [vested0], [vested1] and
    [vested2] are its successive values. *)
Definition computeVestedAmount
    (total : Z) (group : GroupConfigStored) (timestamp : Z) : M Z :=
  self ← this;
  start ← BigInt (tgeTimestampNs self);
  let cliff := cliffDurationNs group in
  let vesting := vestingDurationNs group in
  let initialClaimStart := initialClaimAvailableTimestampNs self in
  let initialClaimBps := initialClaimBasisPoints self in
  let postCliffBps := initialUnlockBasisPoints group in
  let initialPortionRaw := (total * initialClaimBps) ÷ BASIS_POINTS_DENOMINATOR in
  let initialPortion :=
    if initialPortionRaw >? total then total else initialPortionRaw in
  let remainingAfterInitial := total - initialPortion in
  let postCliffPortionRaw := (total * postCliffBps) ÷ BASIS_POINTS_DENOMINATOR in
  let postCliffPortion :=
    if postCliffPortionRaw >? remainingAfterInitial
    then remainingAfterInitial else postCliffPortionRaw in
  let linearPortionBase := total - initialPortion - postCliffPortion in
  let vested0 :=
    if timestamp >=? initialClaimStart then 0 + initialPortion else 0 in
  if timestamp <? start + cliff then
    mret (if vested0 >? total then total else vested0)
  else if vesting =? 0 then
    mret total
  else
    let vested1 := vested0 + postCliffPortion in
    let elapsed := timestamp - (start + cliff) in
    if elapsed >=? vesting then
      mret total
    else
      let linearVested := (linearPortionBase * elapsed) ÷ vesting in
      let vested2 := vested1 + linearVested in
      mret (if vested2 >? total then total else vested2).

(** [computeClaimable(accountId, timestamp)] *)
Definition computeClaimable (accountId : string) (timestamp : Z) : M Z :=
  self ← this;
  match investors self !! accountId with
  | None => mret 0
  | Some record =>
    match groups self !! groupId record with
    | None => mret 0
    | Some group =>
      let total := totalAllocation record in
      let claimed := claimed record in
      if total =? claimed then mret 0
      else
        vestable ← computeVestedAmount total group timestamp;
        if vestable <=? claimed then mret 0
        else mret (vestable - claimed)
    end
  end.

(** ** The [@call] decorator *)

(** [@call({ privateFunction, payableFunction })]: the wrapper that
    near-sdk-js puts around a decorated method.  Before the body runs, a
    private function refuses every caller but the contract itself, and a
    function that is not payable refuses a call with a deposit
    attached.  A public payable function, as [claim] and
    [withdraw_unallocated] are, gets a wrapper that checks nothing; it is
    written without it. *)
Definition call {A} (env : Env) (privateFunction payableFunction : bool)
    (method : M A) : M A :=
  throwIf (privateFunction &&
           bool_decide (predecessorAccountId env ≠ currentAccountId env))
          FunctionIsPrivate;;
  throwIf (negb payableFunction && (attachedDeposit env >? 0))
          FunctionIsNotPayable;;
  method.

(** ** Guards *)

Definition assertOwner (env : Env) : M unit :=
  self ← this;
  throwIf (bool_decide (predecessorAccountId env ≠ owner self)) OnlyOwner.

Definition assertOneYocto (env : Env) : M unit :=
  throwIf (bool_decide (attachedDeposit env ≠ ONE_YOCTO)) OneYoctoRequired.

Definition assertSelf (env : Env) : M unit :=
  throwIf (bool_decide (predecessorAccountId env ≠ currentAccountId env)) OnlySelf.

Definition assertTokenCaller (env : Env) : M unit :=
  self ← this;
  throwIf (bool_decide (predecessorAccountId env ≠ tokenAccountId self))
          OnlyTokenContract.

(** ** Loops *)

(** [for (const x of xs) body], with the loop-carried local [acc]. *)
Fixpoint forOf {A L : Type} (body : L → A → M L) (acc : L) (xs : list A) : M L :=
  match xs with
  | [] => mret acc
  | x :: rest => acc' ← body acc x; forOf body acc' rest
  end.

(** ** The group registry *)

(** The body of the loop of [setGroupsInternal]; [seen] is the set of
    ids met so far. *)
Definition setGroupsStep (seen : gset string) (group : GroupConfigInput)
    : M (gset string) :=
  throwIf (falsyId (id group)) GroupIdRequired;;
  let gid := default "" (id group) in
  throwIf (bool_decide (gid ∈ seen)) (DuplicateGroup gid);;
  let seen' := seen ∪ {[gid]} in
  cliff ← BigInt (cliff_duration_ns group);
  vesting ← BigInt (vesting_duration_ns group);
  let initialUnlockRaw := orElse (initial_unlock_basis_points group) (Numeral 0) in
  initialUnlockBps ← BigInt initialUnlockRaw;
  throwIf ((cliff <? 0) || (vesting <? 0)) NegativeDuration;;
  throwIf (initialUnlockBps <? 0) NegativeInitialUnlock;;
  throwIf (initialUnlockBps >? BASIS_POINTS_DENOMINATOR) InitialUnlockAboveDenominator;;
  update (λ s, set_groups
    (<[gid := {| cliffDurationNs := cliff;
                 vestingDurationNs := vesting;
                 initialUnlockBasisPoints := initialUnlockBps |}]> (groups s)) s);;
  mret seen'.

Definition setGroupsInternal (groups : list GroupConfigInput) : M unit :=
  throwIf (bool_decide (groups = [])) GroupsRequired;;
  update (set_groups ∅);;
  _ ← forOf setGroupsStep ∅ groups;
  mret tt.

(** ** The global initial-claim overlay *)

(** [x === '' ? '0' : x] *)
Definition emptyAsZero (x : NumArg) : NumArg :=
  match x with
  | EmptyStr => Numeral 0
  | _ => x
  end.

Definition setInitialClaimConfig (args : InitialClaimConfigInput) : M unit :=
  self ← this;
  let basisSource :=
    orElse (initial_claim_basis_points args)
           (Numeral (initialClaimBasisPoints self)) in
  let basisRaw := emptyAsZero basisSource in
  basis ← BigInt basisRaw;
  throwIf ((basis <? 0) || (basis >? BASIS_POINTS_DENOMINATOR))
          InitialClaimBasisOutOfRange;;
  update (set_initialClaimBasisPoints basis);;
  let timestampSource :=
    orElse (initial_claim_available_timestamp_ns args)
           (Numeral (initialClaimAvailableTimestampNs self)) in
  let timestampRaw := emptyAsZero timestampSource in
  timestamp ← BigInt timestampRaw;
  throwIf (timestamp <? 0) NegativeInitialClaimTimestamp;;
  throwIf ((basis >? 0) && (timestamp =? 0)) InitialClaimTimestampRequired;;
  update (set_initialClaimAvailableTimestampNs timestamp).

(** ** Administrative entry points *)

Definition init (env : Env) (owner_arg token_account_id : IdArg)
    (tge_timestamp_ns : NumArg) (groups : list GroupConfigInput)
    (initial_claim : InitialClaimConfigInput) : M unit :=
  self ← this;
  throwIf (bool_decide (owner self ≠ "")) AlreadyInitialized;;
  throwIf (falsyId token_account_id) TokenAccountRequired;;
  throwIf (falsyNum tge_timestamp_ns) TgeRequired;;
  update (set_owner (default (predecessorAccountId env) owner_arg));;
  update (set_tokenAccountId (default "" token_account_id));;
  update (set_tgeTimestampNs tge_timestamp_ns);;
  setInitialClaimConfig initial_claim;;
  setGroupsInternal groups.

Definition configure_groups (env : Env) (groups : list GroupConfigInput) : M unit :=
  call env false false (
    assertOwner env;;
    setGroupsInternal groups).

Definition configure_initial_claim (env : Env)
    (args : option InitialClaimConfigInput) : M unit :=
  call env false false (
    assertOwner env;;
    match args with
    | None => throw InitialClaimParamRequired
    | Some a =>
      match initial_claim_basis_points a, initial_claim_available_timestamp_ns a with
      | Undefined, Undefined => throw InitialClaimParamRequired
      | _, _ => setInitialClaimConfig a
      end
    end).

(** ** The investor ledger *)

(** The body of the loop of [upsert_investors]. *)
Definition upsertStep (seenAccounts : gset string) (entry : InvestorInput)
    : M (gset string) :=
  throwIf (falsyId (account_id entry) || falsyId (group_id entry)
           || falsyNum (amount entry)) InvestorFieldsRequired;;
  let account := default "" (account_id entry) in
  let group := default "" (group_id entry) in
  throwIf (bool_decide (account ∈ seenAccounts)) (DuplicateInvestor account);;
  let seenAccounts' := seenAccounts ∪ {[account]} in
  self ← this;
  match groups self !! group with
  | None => throw (UnknownGroup group)
  | Some _ =>
    amount ← BigInt (amount entry);
    throwIf (amount <=? 0) AmountNotPositive;;
    match investors self !! account with
    | Some current =>
      let alreadyClaimed := claimed current in
      throwIf (amount <? alreadyClaimed) (AllocationBelowClaimed account);;
      update (λ s, set_investors
        (<[account := {| groupId := group;
                         totalAllocation := amount;
                         claimed := alreadyClaimed |}]> (investors s)) s);;
      mret seenAccounts'
    | None =>
      update (λ s, set_investors
        (<[account := {| groupId := group;
                         totalAllocation := amount;
                         claimed := 0 |}]> (investors s)) s);;
      mret seenAccounts'
    end
  end.

Definition upsert_investors (env : Env) (investors : list InvestorInput) : M unit :=
  call env false false (
    assertOwner env;;
    throwIf (bool_decide (investors = [])) InvestorsArrayRequired;;
    _ ← forOf upsertStep ∅ investors;
    mret tt).

(** ** Moving funds out of the pool *)

(** The continuation registered behind an [ft_transfer], with the
    arguments it will be called with. *)
Inductive Callback : Type :=
| on_claim_complete_args (account_id : string) (amount : NumArg)
| on_withdraw_complete_args (recipient : string) (amount : NumArg).

(** [transfer.then(callback)]: the [ft_transfer] requested from the token
    contract and the continuation chained behind it. *)
Record NearPromise : Type := {
  receiver_id : string;
  transfer_amount : NumArg;
  memo : string;
  callback : Callback;
}.

Definition claim (env : Env) (account_arg : IdArg) : M NearPromise :=
  assertOneYocto env;;
  let claimant := default (predecessorAccountId env) account_arg in
  let isSelfClaim := bool_decide (claimant = predecessorAccountId env) in
  self ← this;
  throwIf (negb isSelfClaim && bool_decide (predecessorAccountId env ≠ owner self))
          OnlyOwnerClaimsOnBehalf;;
  match investors self !! claimant with
  | None => throw NoAllocation
  | Some record =>
    claimable ← computeClaimable claimant (blockTimestamp env);
    throwIf (claimable <=? 0) NothingToClaim;;
    throwIf (claimable >? poolBalance self) InsufficientPoolBalance;;
    update (λ s, set_investors
      (<[claimant := {| groupId := groupId record;
                        totalAllocation := totalAllocation record;
                        claimed := claimed record + claimable |}]> (investors s)) s);;
    update (λ s, set_totalClaimed (totalClaimed s + claimable) s);;
    update (λ s, set_poolBalance (poolBalance s - claimable) s);;
    mret {| receiver_id := claimant;
            transfer_amount := Numeral claimable;
            memo := "vesting-claim";
            callback := on_claim_complete_args claimant (Numeral claimable) |}
  end.

Definition withdraw_unallocated (env : Env) (amount : NumArg)
    (recipient memo_arg : IdArg) : M NearPromise :=
  assertOwner env;;
  assertOneYocto env;;
  throwIf (falsyNum amount) AmountRequired;;
  withdrawal ← BigInt amount;
  throwIf (withdrawal <=? 0) WithdrawalNotPositive;;
  self ← this;
  throwIf (withdrawal >? poolBalance self) AmountExceedsPool;;
  let target := default (owner self) recipient in
  update (λ s, set_poolBalance (poolBalance s - withdrawal) s);;
  update (λ s, set_totalWithdrawn (totalWithdrawn s + withdrawal) s);;
  mret {| receiver_id := target;
          transfer_amount := amount;
          memo := default "vesting-withdrawal" memo_arg;
          callback := on_withdraw_complete_args target amount |}.

Definition ft_on_transfer (env : Env) (sender_id : IdArg) (amount : NumArg)
    (msg : IdArg) : M string :=
  call env false false (
    assertTokenCaller env;;
    throwIf (falsyNum amount) AmountRequired;;
    deposit ← BigInt amount;
    throwIf (deposit <=? 0) DepositNotPositive;;
    update (λ s, set_poolBalance (poolBalance s + deposit) s);;
    update (λ s, set_totalDeposited (totalDeposited s + deposit) s);;
    mret "0").

(** ** Resolution callbacks *)

(** [try { near.promiseResult(0) } catch (error) { handler }]: the
    handler runs exactly when the promise being resolved has failed. *)
Definition on_claim_complete (env : Env) (account_id : string) (amount : NumArg)
    : M unit :=
  call env true false (
    assertSelf env;;
    if promiseSucceeded env then mret tt
    else
      self ← this;
      match investors self !! account_id with
      | None => throw InvestorRecordMissing
      | Some record =>
        tokenAmount ← BigInt amount;
        update (λ s, set_investors
          (<[account_id := {| groupId := groupId record;
                              totalAllocation := totalAllocation record;
                              claimed := claimed record - tokenAmount |}]>
             (investors s)) s);;
        update (λ s, set_totalClaimed (totalClaimed s - tokenAmount) s);;
        update (λ s, set_poolBalance (poolBalance s + tokenAmount) s);;
        throw TokenTransferFailed
      end).

Definition on_withdraw_complete (env : Env) (recipient : string) (amount : NumArg)
    : M unit :=
  call env true false (
    assertSelf env;;
    if promiseSucceeded env then mret tt
    else
      tokenAmount ← BigInt amount;
      update (λ s, set_poolBalance (poolBalance s + tokenAmount) s);;
      update (λ s, set_totalWithdrawn (totalWithdrawn s - tokenAmount) s);;
      throw TokenTransferFailed).

(** ** Views *)

Definition get_investor (account_id : IdArg) : M (option InvestorRecord) :=
  throwIf (falsyId account_id) AccountIdRequired;;
  self ← this;
  mret (investors self !! default "" account_id).

Definition get_claimable (env : Env) (account_id : IdArg) : M Z :=
  throwIf (falsyId account_id) AccountIdRequired;;
  computeClaimable (default "" account_id) (blockTimestamp env).

(** ** The contract as a reactive system *)

(** The calls the contract exports. *)
Inductive Call : Type :=
| call_init (owner token_account_id : IdArg) (tge_timestamp_ns : NumArg)
            (groups : list GroupConfigInput) (initial_claim : InitialClaimConfigInput)
| call_configure_groups (groups : list GroupConfigInput)
| call_configure_initial_claim (args : option InitialClaimConfigInput)
| call_upsert_investors (investors : list InvestorInput)
| call_claim (account_id : IdArg)
| call_withdraw_unallocated (amount : NumArg) (recipient memo : IdArg)
| call_ft_on_transfer (sender_id : IdArg) (amount : NumArg) (msg : IdArg)
| call_on_claim_complete (account_id : string) (amount : NumArg)
| call_on_withdraw_complete (recipient : string) (amount : NumArg).

(** Running a call; the result is the promise the call returns, if any. *)
Definition invoke (env : Env) (c : Call) : M (option NearPromise) :=
  match c with
  | call_init o t tge gs ic => init env o t tge gs ic;; mret None
  | call_configure_groups gs => configure_groups env gs;; mret None
  | call_configure_initial_claim a => configure_initial_claim env a;; mret None
  | call_upsert_investors l => upsert_investors env l;; mret None
  | call_claim a => p ← claim env a; mret (Some p)
  | call_withdraw_unallocated n r m => p ← withdraw_unallocated env n r m; mret (Some p)
  | call_ft_on_transfer sd n m => _ ← ft_on_transfer env sd n m; mret None
  | call_on_claim_complete a n => on_claim_complete env a n;; mret None
  | call_on_withdraw_complete r n => on_withdraw_complete env r n;; mret None
  end.

(** The call by which the runtime resumes a registered continuation. *)
Definition resume (cb : Callback) : Call :=
  match cb with
  | on_claim_complete_args a n => call_on_claim_complete a n
  | on_withdraw_complete_args r n => call_on_withdraw_complete r n
  end.

(** The contract together with the continuations still waiting for the
    outcome of their transfer. *)
Record System : Type := {
  contract : State;
  pending : list Callback;
}.

Definition genesis : System := {| contract := fresh; pending := [] |}.

(** A call made from outside the contract.  The two continuations are
    [privateFunction]s: the account of the contract calls them only to
    resume a registered continuation, so a call of one of them from
    outside comes from another account. *)
Definition external (env : Env) (c : Call) : Prop :=
  match c with
  | call_on_claim_complete _ _ | call_on_withdraw_complete _ _ =>
      predecessorAccountId env ≠ currentAccountId env
  | _ => True
  end.

(** The state that remains after a call.  When the method returned it is
    the state it left.  When it threw, the writes made before the [throw]
    either stay or are discarded with the failed call, depending on the
    host; both are allowed. *)
Definition retained {A} (before : State) (o : Outcome A) (after : State) : Prop :=
  match o with
  | Returned _ s => after = s
  | Threw _ s => after = s ∨ after = before
  end.

(** The two hosts apart: [discard = true] drops the writes of a call that
    threw, [discard = false] keeps them. *)
Definition settled {A} (discard : bool) (before : State) (o : Outcome A) : State :=
  match o with
  | Returned _ s => s
  | Threw _ s => if discard then before else s
  end.

(** Modelled from the spec: the atomic-call guarantee of the hosting
    environment, which section 7 relies on ("all validation errors abort
    the entire call before any mutation is retained") and which is not
    among the sources.  A call that returns commits the state it leaves; a
    call that throws leaves the contract in the state it was called
    in. *)
Definition committed {A} (before : State) (o : Outcome A) : State :=
  match o with
  | Returned _ s => s
  | Threw _ _ => before
  end.

(** The continuation a finished call has registered. *)
Definition registered (o : Outcome (option NearPromise)) : list Callback :=
  match o with
  | Returned (Some p) _ => [callback p]
  | _ => []
  end.

Inductive step : System → System → Prop :=
| step_call (env : Env) (c : Call) (sys : System) (after : State) :
    external env c →
    retained (contract sys) (invoke env c (contract sys)) after →
    step sys {| contract := after;
                pending := registered (invoke env c (contract sys)) ++ pending sys |}
| step_resolve (env : Env) (cb : Callback) (before later : list Callback)
               (sys : System) (after : State) :
    pending sys = before ++ cb :: later →
    predecessorAccountId env = currentAccountId env →
    retained (contract sys) (invoke env (resume cb) (contract sys)) after →
    step sys {| contract := after; pending := before ++ later |}.

(** The states an observer can see.  The class is declared with
    [requireInit: true], which makes the runtime refuse every call but
    [init] until [init] has returned; [step] does not impose it, so
    [reachable] has those histories and more. *)
Definition reachable (sys : System) : Prop := rtc step genesis sys.

(** ** The vesting schedule as the specification words it *)

Section Reference.
Variables (initialClaimBasisPoints initialClaimAvailableTimestamp tgeTimestamp : Z).
Variable group : GroupConfigStored.
Variables (total now : Z).

(** Section 4.1 read literally: [initialPortion] is the quantity that is
    [0] until the initial claim opens, and every later line uses it. *)
Definition vestedAmount_spec : Z :=
  let initialPortion :=
    if now >=? initialClaimAvailableTimestamp
    then Z.min total (total * initialClaimBasisPoints ÷ 10000)
    else 0 in
  let remainingAfterInitial := total - initialPortion in
  if now <? tgeTimestamp + cliffDurationNs group then Z.min initialPortion total
  else
    let postCliffPortion :=
      Z.min remainingAfterInitial (total * initialUnlockBasisPoints group ÷ 10000) in
    let linearBase := total - initialPortion - postCliffPortion in
    if vestingDurationNs group =? 0 then total
    else
      let elapsed := now - (tgeTimestamp + cliffDurationNs group) in
      if elapsed >=? vestingDurationNs group then total
      else initialPortion + postCliffPortion + linearBase * elapsed ÷ vestingDurationNs group.

(** The same schedule with the initial portion carved out of the
    allocation at all times: [remainingAfterInitial], [postCliffPortion]
    and [linearBase] are computed from the full initial portion, and only
    its contribution to the result waits for the initial claim to open. *)
Definition vestedAmount_carved : Z :=
  let initialPortion := Z.min total (total * initialClaimBasisPoints ÷ 10000) in
  let released :=
    if now >=? initialClaimAvailableTimestamp then initialPortion else 0 in
  let remainingAfterInitial := total - initialPortion in
  if now <? tgeTimestamp + cliffDurationNs group then Z.min released total
  else
    let postCliffPortion :=
      Z.min remainingAfterInitial (total * initialUnlockBasisPoints group ÷ 10000) in
    let linearBase := total - initialPortion - postCliffPortion in
    if vestingDurationNs group =? 0 then total
    else
      let elapsed := now - (tgeTimestamp + cliffDurationNs group) in
      if elapsed >=? vestingDurationNs group then total
      else released + postCliffPortion + linearBase * elapsed ÷ vestingDurationNs group.
End Reference.

(** ** A sample deployment *)

(** One group, one investor and a funded pool, used to exercise the
    statements below on concrete values. *)
Definition sample_group : GroupConfigStored :=
  {| cliffDurationNs := 100; vestingDurationNs := 100;
     initialUnlockBasisPoints := 1000 |}.

Definition sample_state : State := {|
  owner := "owner.near";
  tokenAccountId := "token.near";
  tgeTimestampNs := Numeral 0;
  initialClaimBasisPoints := 500;
  initialClaimAvailableTimestampNs := 10;
  totalDeposited := 20000;
  totalClaimed := 0;
  totalWithdrawn := 0;
  poolBalance := 20000;
  groups := {[ "seed" := sample_group ]};
  investors := {[ "alice.near" := {| groupId := "seed";
                                     totalAllocation := 10000;
                                     claimed := 0 |} ]};
|}.

(** A call by [caller] at block time [now], with one yocto attached;
    [ok] is the outcome of the promise being resolved, if any. *)
Definition sample_env (caller : string) (now : Z) (ok : bool) : Env :=
  {| predecessorAccountId := caller;
     currentAccountId := "vesting.near";
     attachedDeposit := 1;
     blockTimestamp := now;
     promiseSucceeded := ok |}.

(** The same for a call with no deposit attached, as a method that is
    not payable needs it. *)
Definition unpaid_env (caller : string) (now : Z) (ok : bool) : Env :=
  {| predecessorAccountId := caller;
     currentAccountId := "vesting.near";
     attachedDeposit := NO_DEPOSIT;
     blockTimestamp := now;
     promiseSucceeded := ok |}.

(** The sample deployment after alice has claimed at time 150. *)
Definition sample_after_claim : State :=
  finalState (claim (sample_env "alice.near" 150 true) None sample_state).

(** ** The writes of the two-phase operations, as state updates *)

(** What [claim] writes before it builds its promise. *)
Definition claimDebit (claimant : string) (record : InvestorRecord) (claimable : Z)
    (s : State) : State :=
  set_poolBalance (poolBalance s - claimable)
    (set_totalClaimed (totalClaimed s + claimable)
       (set_investors
          (<[claimant := {| groupId := groupId record;
                            totalAllocation := totalAllocation record;
                            claimed := claimed record + claimable |}]>
             (investors s)) s)).

(** What [on_claim_complete] writes when the transfer has failed. *)
Definition claimRevert (account : string) (record : InvestorRecord) (tokenAmount : Z)
    (s : State) : State :=
  set_poolBalance (poolBalance s + tokenAmount)
    (set_totalClaimed (totalClaimed s - tokenAmount)
       (set_investors
          (<[account := {| groupId := groupId record;
                           totalAllocation := totalAllocation record;
                           claimed := claimed record - tokenAmount |}]>
             (investors s)) s)).

(** What [withdraw_unallocated] writes before it builds its promise. *)
Definition withdrawDebit (withdrawal : Z) (s : State) : State :=
  set_totalWithdrawn (totalWithdrawn s + withdrawal)
    (set_poolBalance (poolBalance s - withdrawal) s).

(** What [on_withdraw_complete] writes when the transfer has failed. *)
Definition withdrawRevert (tokenAmount : Z) (s : State) : State :=
  set_totalWithdrawn (totalWithdrawn s - tokenAmount)
    (set_poolBalance (poolBalance s + tokenAmount) s).

(** What [ft_on_transfer] writes. *)
Definition credit (deposit : Z) (s : State) : State :=
  set_totalDeposited (totalDeposited s + deposit)
    (set_poolBalance (poolBalance s + deposit) s).

(** The amount a continuation was registered with, as [BigInt] reads it
    whenever it reads it at all. *)
Definition amountOf (n : NumArg) : Z :=
  match n with
  | Numeral z => z
  | _ => 0
  end.

(** [preserves P c]: a property of the state that holds when [c] starts
    holds when [c] is left, whether by returning or by throwing. *)
Definition preserves {A} (P : State → Prop) (c : M A) : Prop :=
  ∀ s, P s → P (finalState (c s)).

(** The part of the state that holds the money: the investor ledger and
    the four pool counters. *)
Definition funds (s : State)
    : gmap string InvestorRecord * (Z * Z * Z * Z) :=
  (investors s,
   (totalDeposited s, totalClaimed s, totalWithdrawn s, poolBalance s)).

(** ** What the invariants speak about *)

(** The pool counters reconcile. *)
Definition poolReconciles (s : State) : Prop :=
  poolBalance s = totalDeposited s - totalClaimed s - totalWithdrawn s.

(** What a waiting continuation would give back to [account] if its
    transfer failed. *)
Definition claimShare (account : string) (cb : Callback) : Z :=
  match cb with
  | on_claim_complete_args a n => if decide (a = account) then amountOf n else 0
  | on_withdraw_complete_args _ _ => 0
  end.

(** The total of the claims of [account] whose transfer is not resolved. *)
Fixpoint inflight (account : string) (l : list Callback) : Z :=
  match l with
  | [] => 0
  | cb :: rest => claimShare account cb + inflight account rest
  end.

Definition claimedOf (m : gmap string InvestorRecord) (account : string) : Z :=
  from_option claimed 0 (m !! account).

(** The ledger is sound with respect to the waiting continuations [l]:
    no record has claimed more than its allocation, and every account has
    claimed at least what is still in flight for it. *)
Definition ledgerSound (l : list Callback) (m : gmap string InvestorRecord) : Prop :=
  (∀ a r, m !! a = Some r → claimed r ≤ totalAllocation r) ∧
  (∀ a, inflight a l ≤ claimedOf m a).

(** No waiting continuation carries a negative amount. *)
Definition amountsNonneg (l : list Callback) : Prop :=
  Forall (λ cb, ∀ a, 0 ≤ claimShare a cb) l.

(** What every reachable state satisfies: the contract state [s] and the
    waiting continuations [l] fit together. *)
Definition holds (s : State) (l : list Callback) : Prop :=
  poolReconciles s ∧ ledgerSound l (investors s) ∧ amountsNonneg l.

Definition invariant (sys : System) : Prop :=
  holds (contract sys) (pending sys).

(** ** Validation, said once for a whole list *)

(** The checks [upsert_investors] makes on one entry, against the ledger
    and the registry of [s]. *)
Definition entryValid (s : State) (entry : InvestorInput) : Prop :=
  ∃ account group amt,
    account_id entry = Some account ∧ account ≠ "" ∧
    group_id entry = Some group ∧ group ≠ "" ∧
    amount entry = Numeral amt ∧
    is_Some (groups s !! group) ∧
    0 < amt ∧ claimedOf (investors s) account ≤ amt.

(** A batch is valid when it is not empty, each entry is valid and no
    account comes twice. *)
Definition batchValid (s : State) (batch : list InvestorInput) : Prop :=
  batch ≠ [] ∧ Forall (entryValid s) batch ∧ NoDup (omap account_id batch).

(** What [BigInt] makes of an argument, when it makes something of it. *)
Definition parsed (x : NumArg) : option Z :=
  match x with
  | EmptyStr => Some 0
  | Numeral z => Some z
  | Undefined | Malformed => None
  end.

(** The checks [setGroupsInternal] makes on one entry. *)
Definition groupValid (group : GroupConfigInput) : Prop :=
  ∃ gid cliff vesting bps,
    id group = Some gid ∧ gid ≠ "" ∧
    parsed (cliff_duration_ns group) = Some cliff ∧
    parsed (vesting_duration_ns group) = Some vesting ∧
    parsed (orElse (initial_unlock_basis_points group) (Numeral 0)) = Some bps ∧
    0 ≤ cliff ∧ 0 ≤ vesting ∧ 0 ≤ bps ≤ BASIS_POINTS_DENOMINATOR.

(** A replacement list is valid when it is not empty, each entry is valid
    and no id comes twice. *)
Definition groupsValid (l : list GroupConfigInput) : Prop :=
  l ≠ [] ∧ Forall groupValid l ∧ NoDup (omap id l).

(** ** A sample history *)

(** The system after a call from outside all of whose writes stay. *)
Definition perform (env : Env) (c : Call) (sys : System) : System :=
  {| contract := finalState (invoke env c (contract sys));
     pending := registered (invoke env c (contract sys)) ++ pending sys |}.

(** The history that produces the sample deployment: initialisation and
    allocation by the owner, funding by the token contract, then alice's
    claim at time 150, whose transfer is still in flight. *)
Definition sample_system : System :=
  perform (sample_env "alice.near" 150 true) (call_claim None)
    (perform (unpaid_env "token.near" 30 true)
       (call_ft_on_transfer (Some "owner.near") (Numeral 20000) (Some ""))
       (perform (unpaid_env "owner.near" 20 true)
          (call_upsert_investors
             [ {| account_id := Some "alice.near"; group_id := Some "seed";
                  amount := Numeral 10000 |} ])
          (perform (unpaid_env "owner.near" 10 true)
             (call_init (Some "owner.near") (Some "token.near") (Numeral 0)
                [ {| id := Some "seed"; cliff_duration_ns := Numeral 100;
                     vesting_duration_ns := Numeral 100;
                     initial_unlock_basis_points := Numeral 1000 |} ]
                {| initial_claim_basis_points := Numeral 500;
                   initial_claim_available_timestamp_ns := Numeral 10 |})
             genesis))).

(** ** What a successful replacement or batch stores *)

(** The registry entry [setGroupsInternal] stores for a list entry that
    passes its checks: the id and the three parsed numbers. *)
Definition storedGroup (group : GroupConfigInput)
    : option (string * GroupConfigStored) :=
  gid ← id group;
  cliff ← parsed (cliff_duration_ns group);
  vesting ← parsed (vesting_duration_ns group);
  bps ← parsed (orElse (initial_unlock_basis_points group) (Numeral 0));
  Some (gid, {| cliffDurationNs := cliff; vestingDurationNs := vesting;
                initialUnlockBasisPoints := bps |}).

(** The ledger entry [upsert_investors] stores for a batch entry that
    passes its checks, against the ledger [m] the batch started from. *)
Definition storedInvestor (m : gmap string InvestorRecord) (entry : InvestorInput)
    : option (string * InvestorRecord) :=
  account ← account_id entry;
  group ← group_id entry;
  amt ← parsed (amount entry);
  Some (account, {| groupId := group; totalAllocation := amt;
                    claimed := claimedOf m account |}).

(** ** Further invariants *)

(** The stored configuration is within the ranges the setters check. *)
Definition groupConfigValid (cfg : GroupConfigStored) : Prop :=
  0 ≤ cliffDurationNs cfg ∧ 0 ≤ vestingDurationNs cfg ∧
  0 ≤ initialUnlockBasisPoints cfg ≤ BASIS_POINTS_DENOMINATOR.

Definition configSound (s : State) : Prop :=
  0 ≤ initialClaimBasisPoints s ≤ BASIS_POINTS_DENOMINATOR ∧
  0 ≤ initialClaimAvailableTimestampNs s ∧
  (∀ gid cfg, groups s !! gid = Some cfg → groupConfigValid cfg) ∧
  (∀ a r, investors s !! a = Some r → 0 < totalAllocation r).

(** The sum of [f] over the values of a map. *)
Definition sumOver {V} (f : V → Z) (m : gmap string V) : Z :=
  map_fold (λ _ v acc, f v + acc) 0 m.

(** The sum of [claimed] over the ledger. *)
Definition sumClaimed (m : gmap string InvestorRecord) : Z := sumOver claimed m.

(** The aggregate counter agrees with the ledger. *)
Definition claimedTotalMatches (s : State) : Prop :=
  totalClaimed s = sumClaimed (investors s).

(** The amounts of the waiting continuations, by kind. *)
Definition claimAmount (cb : Callback) : Z :=
  match cb with
  | on_claim_complete_args _ n => amountOf n
  | on_withdraw_complete_args _ _ => 0
  end.

Definition withdrawAmount (cb : Callback) : Z :=
  match cb with
  | on_claim_complete_args _ _ => 0
  | on_withdraw_complete_args _ n => amountOf n
  end.

Fixpoint pendingClaims (l : list Callback) : Z :=
  match l with
  | [] => 0
  | cb :: rest => claimAmount cb + pendingClaims rest
  end.

Fixpoint pendingWithdrawals (l : list Callback) : Z :=
  match l with
  | [] => 0
  | cb :: rest => withdrawAmount cb + pendingWithdrawals rest
  end.

(** The pool is solvent with respect to the waiting continuations [l]:
    no counter is negative, and what is in flight is covered by the
    running totals it was added to. *)
Definition solvent (s : State) (l : list Callback) : Prop :=
  0 ≤ poolBalance s ∧ 0 ≤ totalDeposited s ∧
  pendingClaims l ≤ totalClaimed s ∧
  pendingWithdrawals l ≤ totalWithdrawn s ∧
  Forall (λ cb, 0 ≤ claimAmount cb ∧ 0 ≤ withdrawAmount cb) l.

(** ** What only the owner may change *)

(** The allocation side of a record: its group and its total. *)
Definition allocationOf (r : InvestorRecord) : string * Z :=
  (groupId r, totalAllocation r).

(** Everything the administrative calls set: who administers, which
    token, the schedule overlay, the registry, and who is allotted what. *)
Definition configuration (s : State)
    : string * string * NumArg * Z * Z *
      gmap string GroupConfigStored * gmap string (string * Z) :=
  (owner s, tokenAccountId s, tgeTimestampNs s,
   initialClaimBasisPoints s, initialClaimAvailableTimestampNs s,
   groups s, allocationOf <$> investors s).

(** The overlay [setInitialClaimConfig] stores for arguments that pass
    its checks, on a contract in state [s]: a field left out keeps the
    stored value, an empty string counts as zero. *)
Definition storedOverlay (args : InitialClaimConfigInput) (s : State)
    : option (Z * Z) :=
  basis ← parsed (emptyAsZero (orElse (initial_claim_basis_points args)
                                      (Numeral (initialClaimBasisPoints s))));
  timestamp ← parsed (emptyAsZero
                        (orElse (initial_claim_available_timestamp_ns args)
                                (Numeral (initialClaimAvailableTimestampNs s))));
  Some (basis, timestamp).

(** The ranges [setInitialClaimConfig] checks. *)
Definition overlayValid (basis timestamp : Z) : Prop :=
  0 ≤ basis ≤ BASIS_POINTS_DENOMINATOR ∧ 0 ≤ timestamp ∧
  (0 < basis → 0 < timestamp).

(** ** The earlier version of the contract *)

(** The calculator of the version of the contract that has no overlay and
    no unlock at the cliff: a group is a cliff and a vesting duration, and
    the state has no initial-claim fields. *)
Module Legacy.

Record GroupConfigStored : Type := {
  cliffDurationNs : Z;
  vestingDurationNs : Z;
}.

Record InvestorRecord : Type := {
  groupId : string;
  totalAllocation : Z;
  claimed : Z;
}.

Record State : Type := {
  owner : string;
  tokenAccountId : string;
  tgeTimestampNs : NumArg;
  totalDeposited : Z;
  totalClaimed : Z;
  totalWithdrawn : Z;
  poolBalance : Z;
  groups : gmap string GroupConfigStored;
  investors : gmap string InvestorRecord;
}.

(** A private method that reads [this] and writes nothing: its result is
    a value or the error thrown. *)
Definition BigInt (x : NumArg) : Error + Z :=
  match x with
  | Undefined => inl BigIntTypeError
  | EmptyStr => inr 0
  | Malformed => inl BigIntSyntaxError
  | Numeral z => inr z
  end.

Definition computeVestedAmount (self : State)
    (total : Z) (group : GroupConfigStored) (timestamp : Z) : Error + Z :=
  match BigInt (tgeTimestampNs self) with
  | inl e => inl e
  | inr start =>
    let cliff := cliffDurationNs group in
    let vesting := vestingDurationNs group in
    if timestamp <? start + cliff then inr 0
    else if vesting =? 0 then inr total
    else
      let elapsed := timestamp - (start + cliff) in
      if elapsed >=? vesting then inr total
      else inr ((total * elapsed) ÷ vesting)
  end.

End Legacy.

(** What a method of the contract gives, without the state. *)
Definition resultOf {A} (o : Outcome A) : Error + A :=
  match o with
  | Returned a _ => inr a
  | Threw e _ => inl e
  end.

(** ** The token the contract is paired with *)

(** The [MockFungibleToken] class: the token whose [ft_transfer] the
    vesting contract calls and whose [ft_transfer_call] reaches its
    [ft_on_transfer].  It has a state, methods and errors of its own.

    Its [balances] field is a plain object used as a map.  Such an
    object answers not only to the keys written to it but also to the
    names it inherits from [Object.prototype], which is why reading and
    writing a key are spelled out below. *)
Module MockFT.

Inductive Error : Type :=
| AlreadyInitialized
| OwnerAndSupplyRequired
| SupplyNotPositive
| AccountIdRequired
| OneYoctoRequired
| TransferNotPositive
| TransferToSelf
| InsufficientBalance
| OnlySelf
| FunctionIsPrivate
| FunctionIsNotPayable
| BigIntSyntaxError
| BigIntTypeError.

Record StorageBalance : Type := {
  total : Z;
  available : Z;
}.

Record Metadata : Type := {
  spec : string;
  name : string;
  symbol : string;
  icon : option string;
  reference : option string;
  reference_hash : option string;
  decimals : Z;
}.

Record State : Type := {
  ownerId : string;
  totalSupply : Z;
  balances : gmap string Z;
  metadata : Metadata;
}.

Definition fresh : State := {|
  ownerId := "";
  totalSupply := 0;
  balances := ∅;
  metadata := {| spec := "ft-1.0.0"; name := ""; symbol := ""; icon := None;
                 reference := None; reference_hash := None; decimals := 18 |};
|}.

(** What [ft_resolve_transfer] makes of [near.promiseResult(0)]: the
    promise has failed and the call throws; or it gives a text from which
    the nested [BigInt] / [JSON.parse] reading obtains a [bigint]; or it
    gives a text on which that reading throws. *)
Inductive PromiseResult : Type :=
| PromiseFailed
| Unreadable
| Amount (z : Z).

Record Env : Type := {
  predecessorAccountId : string;
  currentAccountId : string;
  attachedDeposit : Z;
  promiseResult : PromiseResult;
}.

Inductive Outcome (A : Type) : Type :=
| Returned (a : A) (s : State)
| Threw (e : Error) (s : State).

Arguments Returned {A} a s.
Arguments Threw {A} e s.

Definition M (A : Type) : Type := State → Outcome A.

#[export] Instance M_ret : MRet M := λ A a s, Returned a s.

#[export] Instance M_bind : MBind M := λ A B k c s,
  match c s with
  | Returned a s' => k a s'
  | Threw e s' => Threw e s'
  end.

Definition throw {A} (e : Error) : M A := λ s, Threw e s.

Definition this : M State := λ s, Returned s s.

Definition update (f : State → State) : M unit := λ s, Returned tt (f s).

Definition throwIf (c : bool) (e : Error) : M unit :=
  if c then throw e else mret tt.

Definition finalState {A} (o : Outcome A) : State :=
  match o with
  | Returned _ s => s
  | Threw _ s => s
  end.

Definition BigInt (x : NumArg) : M Z :=
  match x with
  | Undefined => throw BigIntTypeError
  | EmptyStr => mret 0
  | Malformed => throw BigIntSyntaxError
  | Numeral z => mret z
  end.

Definition set_ownerId (v : string) (s : State) : State :=
  {| ownerId := v; totalSupply := totalSupply s; balances := balances s;
     metadata := metadata s |}.

Definition set_totalSupply (v : Z) (s : State) : State :=
  {| ownerId := ownerId s; totalSupply := v; balances := balances s;
     metadata := metadata s |}.

Definition set_balances (v : gmap string Z) (s : State) : State :=
  {| ownerId := ownerId s; totalSupply := totalSupply s; balances := v;
     metadata := metadata s |}.

Definition set_metadata (v : Metadata) (s : State) : State :=
  {| ownerId := ownerId s; totalSupply := totalSupply s; balances := balances s;
     metadata := v |}.

(** *** A plain object as a map *)

(** The property names of [Object.prototype]. *)
Definition objectPrototypeKeys : list string :=
  [ "constructor"; "hasOwnProperty"; "isPrototypeOf"; "propertyIsEnumerable";
    "toLocaleString"; "toString"; "valueOf"; "__proto__";
    "__defineGetter__"; "__defineSetter__"; "__lookupGetter__";
    "__lookupSetter__" ].

Definition inherited (k : string) : bool :=
  bool_decide (k ∈ objectPrototypeKeys).

(** [k in o] *)
Definition hasKey (k : string) (o : gmap string Z) : bool :=
  bool_decide (is_Some (o !! k)) || inherited k.

(** [o[k]]: the value written under [k]; or, for a name of the prototype
    not written to, a function or object; or [undefined]. *)
Inductive Member : Type :=
| Own (z : Z)
| Foreign
| Missing.

Definition getMember (k : string) (o : gmap string Z) : Member :=
  match o !! k with
  | Some z => Own z
  | None => if inherited k then Foreign else Missing
  end.

(** [o[k] = v] for a string [v].  Every name of the prototype but one is
    a data property, shadowed by the assignment; [__proto__] is an
    accessor, whose setter ignores a string. *)
Definition setMember (k : string) (v : Z) (o : gmap string Z) : gmap string Z :=
  if bool_decide (k = "__proto__") && bool_decide (o !! k = None)
  then o else <[k := v]> o.

(** *** The [@call] decorator *)

(** The wrapper of near-sdk-js around a decorated method, as for the
    vesting contract.  The three payable methods of the token are public
    and are written without it. *)
Definition call {A} (env : Env) (privateFunction payableFunction : bool)
    (method : M A) : M A :=
  throwIf (privateFunction &&
           bool_decide (predecessorAccountId env ≠ currentAccountId env))
          FunctionIsPrivate;;
  throwIf (negb payableFunction && (attachedDeposit env >? 0))
          FunctionIsNotPayable;;
  method.

(** *** Private methods *)

Definition assertOneYocto (env : Env) : M unit :=
  throwIf (bool_decide (attachedDeposit env ≠ ONE_YOCTO)) OneYoctoRequired.

Definition assertSelf (env : Env) : M unit :=
  throwIf (bool_decide (predecessorAccountId env ≠ currentAccountId env)) OnlySelf.

Definition getBalance (accountId : string) : M Z :=
  self ← this;
  match getMember accountId (balances self) with
  | Missing =>
    update (λ s, set_balances (setMember accountId 0 (balances s)) s);;
    mret 0
  | Own z => mret z
  | Foreign => throw BigIntSyntaxError
  end.

Definition setBalance (accountId : string) (amount : Z) : M unit :=
  update (λ s, set_balances (setMember accountId amount (balances s)) s).

Definition internalTransfer (sender receiver : string) (amount : Z) : M unit :=
  throwIf (bool_decide (sender = receiver)) TransferToSelf;;
  senderBalance ← getBalance sender;
  throwIf (senderBalance <? amount) InsufficientBalance;;
  setBalance sender (senderBalance - amount);;
  receiverBalance ← getBalance receiver;
  setBalance receiver (receiverBalance + amount).

(** *** Exported methods *)

Definition init (owner_id : IdArg) (total_supply : NumArg)
    (name_arg symbol_arg : string) (decimals_arg : Z) : M unit :=
  self ← this;
  throwIf (bool_decide (ownerId self ≠ "")) AlreadyInitialized;;
  throwIf (falsyId owner_id || falsyNum total_supply) OwnerAndSupplyRequired;;
  supply ← BigInt total_supply;
  throwIf (supply <=? 0) SupplyNotPositive;;
  update (set_ownerId (default "" owner_id));;
  update (set_totalSupply supply);;
  update (λ s, set_metadata
    {| spec := spec (metadata s); name := name_arg; symbol := symbol_arg;
       icon := icon (metadata s); reference := reference (metadata s);
       reference_hash := reference_hash (metadata s);
       decimals := decimals_arg |} s);;
  setBalance (default "" owner_id) supply.

Definition ft_metadata : M Metadata :=
  self ← this; mret (metadata self).

Definition ft_total_supply : M Z :=
  self ← this; mret (totalSupply self).

Definition ft_balance_of (account_id : string) : M Z :=
  getBalance account_id.

Definition storage_balance_of (account_id : IdArg) : M (option StorageBalance) :=
  throwIf (falsyId account_id) AccountIdRequired;;
  self ← this;
  if negb (hasKey (default "" account_id) (balances self)) then mret None
  else mret (Some {| total := 0; available := 0 |}).

(** [{ min: '0', max: null }] *)
Definition storage_balance_bounds : M (Z * option Z) :=
  mret (0, None).

Definition storage_deposit (env : Env) (account_id : IdArg) : M StorageBalance :=
  let target := default (predecessorAccountId env) account_id in
  self ← this;
  (if negb (hasKey target (balances self))
   then update (λ s, set_balances (setMember target 0 (balances s)) s)
   else mret tt);;
  mret {| total := 0; available := 0 |}.

Definition ft_transfer (env : Env) (receiver_id : string) (amount : NumArg)
    : M unit :=
  assertOneYocto env;;
  let sender := predecessorAccountId env in
  transferAmount ← BigInt amount;
  throwIf (transferAmount <=? 0) TransferNotPositive;;
  internalTransfer sender receiver_id transferAmount.

(** [promise.then(resolve)]: the call of [ft_on_transfer] on the
    receiver, with [ft_resolve_transfer] chained behind it; both are built
    from the same three values and both are requested with the same
    deposit. *)
Record TransferCall : Type := {
  call_receiver_id : string;
  call_sender_id : string;
  call_amount : NumArg;
  call_msg : string;
  call_deposit : Z;
}.

Definition ft_transfer_call (env : Env) (receiver_id : string) (amount : NumArg)
    (msg : string) : M TransferCall :=
  assertOneYocto env;;
  let sender := predecessorAccountId env in
  transferAmount ← BigInt amount;
  throwIf (transferAmount <=? 0) TransferNotPositive;;
  internalTransfer sender receiver_id transferAmount;;
  mret {| call_receiver_id := receiver_id; call_sender_id := sender;
          call_amount := amount; call_msg := msg;
          call_deposit := NO_DEPOSIT |}.

Definition ft_resolve_transfer (env : Env) (sender_id receiver_id : string)
    (amount : NumArg) : M Z :=
  call env true false (
    assertSelf env;;
    transferred ← BigInt amount;
    let unused0 :=
      match promiseResult env with
      | Amount parsed => parsed
      | PromiseFailed | Unreadable => transferred
      end in
    let unused := if unused0 >? transferred then transferred else unused0 in
    (if unused >? 0 then internalTransfer receiver_id sender_id unused
     else mret tt);;
    let used := transferred - unused in
    mret used).

(** *** The calls the token exports *)

Inductive Call : Type :=
| call_init (owner_id : IdArg) (total_supply : NumArg)
            (name_arg symbol_arg : string) (decimals_arg : Z)
| call_ft_metadata
| call_ft_total_supply
| call_ft_balance_of (account_id : string)
| call_storage_balance_of (account_id : IdArg)
| call_storage_balance_bounds
| call_storage_deposit (account_id : IdArg)
| call_ft_transfer (receiver_id : string) (amount : NumArg)
| call_ft_transfer_call (receiver_id : string) (amount : NumArg) (msg : string)
| call_ft_resolve_transfer (sender_id receiver_id : string) (amount : NumArg).

(** Running a call, for its effect on the state. *)
Definition invoke (env : Env) (c : Call) : M unit :=
  match c with
  | call_init o t n sy d => init o t n sy d
  | call_ft_metadata => _ ← ft_metadata; mret tt
  | call_ft_total_supply => _ ← ft_total_supply; mret tt
  | call_ft_balance_of a => _ ← ft_balance_of a; mret tt
  | call_storage_balance_of a => _ ← storage_balance_of a; mret tt
  | call_storage_balance_bounds => _ ← storage_balance_bounds; mret tt
  | call_storage_deposit a => _ ← storage_deposit env a; mret tt
  | call_ft_transfer r n => ft_transfer env r n
  | call_ft_transfer_call r n m => _ ← ft_transfer_call env r n m; mret tt
  | call_ft_resolve_transfer sd r n => _ ← ft_resolve_transfer env sd r n; mret tt
  end.

(** What [ft_balance_of] reports for an account, as a function of the
    state. *)
Definition balanceOf (s : State) (account : string) : Z :=
  default 0 (balances s !! account).

(** The tokens held by all accounts together. *)
Definition held (s : State) : Z := sumOver (λ z, z) (balances s).

(** No account is overdrawn. *)
Definition solventBalances (s : State) : Prop :=
  ∀ account z, balances s !! account = Some z → 0 ≤ z.

(** The token as a transition system.  A step is a call, by anyone,
    with the state it leaves whether it returned or threw; a host that
    discards the writes of a call that threw makes no step at all. *)
Inductive step : State → State → Prop :=
| step_call (env : Env) (c : Call) (s : State) :
    step s (finalState (invoke env c s)).

Definition reachable (s : State) : Prop := rtc step fresh s.

(** What every reachable state of the token satisfies. *)
Definition sound (s : State) : Prop :=
  solventBalances s ∧ held s ≤ totalSupply s ∧
  (ownerId s = "" → totalSupply s = 0).

End MockFT.

(** * Properties *)

(** ** Reasoning about methods *)

(** Exposes the outcome of straight-line monadic code. *)
Ltac run :=
  cbv beta iota zeta delta
    [mbind M_bind mret M_ret throw this update throwIf BigInt finalState].

(** The wrapper of a public function that is not payable. *)
Lemma call_public {A} (env : Env) (method : M A) (s : State) :
  call env false false method s =
    if attachedDeposit env >? 0 then Threw FunctionIsNotPayable s else method s.
Proof. unfold call. run. simpl. by destruct (attachedDeposit env >? 0). Qed.

(** The wrapper of a private function. *)
Lemma call_private {A} (env : Env) (method : M A) (s : State) :
  call env true false method s =
    if bool_decide (predecessorAccountId env ≠ currentAccountId env)
    then Threw FunctionIsPrivate s
    else if attachedDeposit env >? 0 then Threw FunctionIsNotPayable s
         else method s.
Proof.
  unfold call. run. simpl.
  destruct (bool_decide _); [done|]. by destruct (attachedDeposit env >? 0).
Qed.

(** The wrapper of a public payable function checks nothing. *)
Lemma call_public_payable {A} (env : Env) (method : M A) (s : State) :
  call env false true method s = method s.
Proof. unfold call. by run. Qed.

Lemma cap_min (x t : Z) : (if x >? t then t else x) = Z.min x t.
Proof. destruct (Z.gtb_spec x t); lia. Qed.

Lemma cap_le (x t : Z) : (if x >? t then t else x) ≤ t.
Proof. rewrite cap_min. lia. Qed.

Lemma quot_fraction_bounds (base elapsed vesting : Z) :
  0 ≤ base → 0 ≤ elapsed < vesting →
  0 ≤ base * elapsed ÷ vesting ≤ base.
Proof.
  intros Hb He. split.
  - apply Z.quot_pos; nia.
  - apply Z.quot_le_upper_bound; nia.
Qed.

(** ** The vesting calculator *)

Section Calculator.
Variables (s : State) (total : Z) (group : GroupConfigStored) (now tge : Z).
Hypothesis Htge : tgeTimestampNs s = Numeral tge.

Lemma computeVestedAmount_returns :
  ∃ v, computeVestedAmount total group now s = Returned v s ∧ v ≤ total.
Proof using Htge.
  unfold computeVestedAmount. run. rewrite Htge.
  repeat case_match; eexists; (split; [reflexivity|]); try lia; apply cap_le.
Qed.

(** On an allocation and basis points that are not negative, the
    caps of the source never cut anything and the source computes the
    carved schedule. *)
Lemma computeVestedAmount_carved :
  0 ≤ total → 0 ≤ initialClaimBasisPoints s →
  computeVestedAmount total group now s =
    Returned (vestedAmount_carved (initialClaimBasisPoints s)
                (initialClaimAvailableTimestampNs s) tge group total now) s.
Proof using Htge.
  intros Htotal Hbps.
  unfold computeVestedAmount, vestedAmount_carved, BASIS_POINTS_DENOMINATOR.
  run. rewrite Htge, !cap_min.
  set (ip := Z.min (total * initialClaimBasisPoints s ÷ 10000) total).
  replace (Z.min total (total * initialClaimBasisPoints s ÷ 10000)) with ip by lia.
  assert (0 ≤ ip ≤ total) as Hip.
  { subst ip. assert (0 ≤ total * initialClaimBasisPoints s ÷ 10000)
      by (apply Z.quot_pos; nia). lia. }
  set (pc := Z.min (total * initialUnlockBasisPoints group ÷ 10000) (total - ip)).
  replace (Z.min (total - ip) (total * initialUnlockBasisPoints group ÷ 10000))
    with pc by lia.
  assert (pc ≤ total - ip) as Hpc by lia.
  destruct (now <? tge + cliffDurationNs group) eqn:Hcliff.
  { reflexivity. }
  destruct (vestingDurationNs group =? 0) eqn:Hv; [done|].
  destruct (now - (tge + cliffDurationNs group) >=? vestingDurationNs group) eqn:He;
    [done|].
  f_equal.
  assert (0 ≤ (total - ip - pc) * (now - (tge + cliffDurationNs group))
              ÷ vestingDurationNs group ≤ total - ip - pc) as Hlin
    by (apply quot_fraction_bounds; lia).
  destruct (now >=? initialClaimAvailableTimestampNs s); lia.
Qed.

Lemma computeVestedAmount_nonneg :
  0 ≤ total → 0 ≤ initialClaimBasisPoints s → 0 ≤ initialUnlockBasisPoints group →
  0 ≤ vestedAmount_carved (initialClaimBasisPoints s)
        (initialClaimAvailableTimestampNs s) tge group total now.
Proof.
  intros Htotal Hbps Hunlock. unfold vestedAmount_carved.
  assert (0 ≤ total * initialClaimBasisPoints s ÷ 10000)
    by (apply Z.quot_pos; nia).
  assert (0 ≤ total * initialUnlockBasisPoints group ÷ 10000)
    by (apply Z.quot_pos; nia).
  set (ip := Z.min total (total * initialClaimBasisPoints s ÷ 10000)).
  assert (0 ≤ ip ≤ total) by lia.
  set (pc := Z.min (total - ip) (total * initialUnlockBasisPoints group ÷ 10000)).
  assert (0 ≤ pc ≤ total - ip) by lia.
  destruct (now <? tge + cliffDurationNs group) eqn:Hcliff.
  { destruct (now >=? initialClaimAvailableTimestampNs s); lia. }
  destruct (vestingDurationNs group =? 0) eqn:Hv; [done|].
  destruct (now - (tge + cliffDurationNs group) >=? vestingDurationNs group) eqn:He;
    [done|].
  assert (0 ≤ (total - ip - pc) * (now - (tge + cliffDurationNs group))
              ÷ vestingDurationNs group ≤ total - ip - pc) as Hlin
    by (apply quot_fraction_bounds; lia).
  destruct (now >=? initialClaimAvailableTimestampNs s); lia.
Qed.
End Calculator.

(** Whatever the stored values are, the calculator leaves the state as it
    found it and never reports more than the allocation. *)
Lemma computeVestedAmount_outcome (s : State) (total : Z)
    (group : GroupConfigStored) (now : Z) :
  match computeVestedAmount total group now s with
  | Returned v s' => s' = s ∧ v ≤ total
  | Threw _ s' => s' = s
  end.
Proof.
  unfold computeVestedAmount. run.
  destruct (tgeTimestampNs s); repeat case_match; simplify_eq;
    try done; (split; [done|]); try lia; apply cap_le.
Qed.

Lemma computeClaimable_no_record (s : State) (account : string) (now : Z) :
  investors s !! account = None →
  computeClaimable account now s = Returned 0 s.
Proof. intros H. unfold computeClaimable. run. by rewrite H. Qed.

Lemma computeClaimable_no_group (s : State) (account : string) (now : Z)
    (r : InvestorRecord) :
  investors s !! account = Some r → groups s !! groupId r = None →
  computeClaimable account now s = Returned 0 s.
Proof. intros H1 H2. unfold computeClaimable. run. by rewrite H1, H2. Qed.

Lemma computeClaimable_found (s : State) (account : string) (now : Z)
    (r : InvestorRecord) (g : GroupConfigStored) (v : Z) :
  investors s !! account = Some r → groups s !! groupId r = Some g →
  computeVestedAmount (totalAllocation r) g now s = Returned v s →
  computeClaimable account now s = Returned (Z.max 0 (v - claimed r)) s.
Proof.
  intros H1 H2 Hv. unfold computeClaimable. run. rewrite H1, H2.
  pose proof (computeVestedAmount_outcome s (totalAllocation r) g now) as Hle.
  rewrite Hv in Hle. destruct Hle as [_ Hle].
  destruct (totalAllocation r =? claimed r) eqn:Heq; [f_equal; lia|].
  rewrite Hv.
  destruct (v <=? claimed r) eqn:Hc; f_equal; lia.
Qed.

(** The claimable amount is never negative and never more than what is
    left of the allocation; computing it changes nothing. *)
Lemma computeClaimable_outcome (s : State) (account : string) (now : Z) :
  match computeClaimable account now s with
  | Returned c s' =>
      s' = s ∧ 0 ≤ c ∧
      ∀ r, investors s !! account = Some r →
           (0 < c → c ≤ totalAllocation r - claimed r)
  | Threw _ s' => s' = s
  end.
Proof.
  unfold computeClaimable. run.
  destruct (investors s !! account) as [r|] eqn:Hr; [|by split_and!].
  destruct (groups s !! groupId r) as [g|] eqn:Hg;
    [|split_and!; [done|done|intros; lia]].
  destruct (totalAllocation r =? claimed r) eqn:Heq;
    [split_and!; [done|done|intros; lia]|].
  pose proof (computeVestedAmount_outcome s (totalAllocation r) g now) as Hv.
  destruct (computeVestedAmount (totalAllocation r) g now s) as [v s'|e s'];
    [|done].
  destruct Hv as [-> Hv].
  destruct (v <=? claimed r) eqn:Hc; split_and!; try done; try lia.
  intros r' [= <-]. lia.
Qed.

(** With a TGE timestamp that parses, the claimable amount is always
    computed. *)
Lemma computeClaimable_returns (s : State) (account : string) (now tge : Z) :
  tgeTimestampNs s = Numeral tge →
  ∃ c, computeClaimable account now s = Returned c s.
Proof.
  intros Htge.
  destruct (investors s !! account) as [r|] eqn:Hr;
    [|eexists; by apply computeClaimable_no_record].
  destruct (groups s !! groupId r) as [g|] eqn:Hg;
    [|eexists; by eapply computeClaimable_no_group].
  destruct (computeVestedAmount_returns s (totalAllocation r) g now tge Htge)
    as (v & Hv & _).
  eexists. by eapply computeClaimable_found.
Qed.

(** C1, as stated: the contract and the literal reading of section 4.1
    disagree once the cliff has passed while the initial claim is still
    closed.  Allocation 10000, initial claim of 1000 basis points opening
    at time 1000, TGE at 0, no cliff, vesting over 100, at time 50: the
    contract reports 4500 (half of the 9000 left beside the initial
    portion), the literal reading 5000 (half of the whole allocation). *)
Lemma computeVestedAmount_not_literal_spec :
  let s := set_initialClaimAvailableTimestampNs 1000
             (set_initialClaimBasisPoints 1000 fresh) in
  let g := {| cliffDurationNs := 0; vestingDurationNs := 100;
              initialUnlockBasisPoints := 0 |} in
  computeVestedAmount 10000 g 50 s = Returned 4500 s ∧
  vestedAmount_spec 1000 1000 0 g 10000 50 = 5000.
Proof. split; reflexivity. Qed.

(** C1 (amended): for an allocation and initial-claim basis points that
    are not negative, [computeVestedAmount] returns the schedule of section
    4.1 in which the initial portion [min(total, total * bps / 10000)] is
    always carved out of the allocation (so [remainingAfterInitial],
    [postCliffPortion] and [linearBase] do not depend on the time), and
    only its contribution to the result is [0] until the initial claim
    opens; divisions truncate toward zero. *)
Theorem computeVestedAmount_is_carved_schedule (s : State) (total : Z)
    (group : GroupConfigStored) (now tge : Z) :
  tgeTimestampNs s = Numeral tge →
  0 ≤ total → 0 ≤ initialClaimBasisPoints s →
  computeVestedAmount total group now s =
    Returned (vestedAmount_carved (initialClaimBasisPoints s)
                (initialClaimAvailableTimestampNs s) tge group total now) s.
Proof. intros. by apply computeVestedAmount_carved. Qed.

Lemma computeVestedAmount_is_carved_schedule_witness :
  let s := set_initialClaimAvailableTimestampNs 1000
             (set_initialClaimBasisPoints 1000 fresh) in
  let g := {| cliffDurationNs := 0; vestingDurationNs := 100;
              initialUnlockBasisPoints := 0 |} in
  computeVestedAmount 10000 g 50 s =
    Returned (vestedAmount_carved 1000 1000 0 g 10000 50) s.
Proof.
  intros s g.
  apply (computeVestedAmount_is_carved_schedule s 10000 g 50 0);
    [reflexivity | lia | simpl; lia].
Defined.

(** The literal reading and the carved schedule coincide wherever the
    initial claim is open or gives nothing. *)
Lemma vestedAmount_spec_carved_agree (bps avail tge : Z)
    (group : GroupConfigStored) (total now : Z) :
  avail ≤ now ∨ bps = 0 →
  0 ≤ total →
  vestedAmount_spec bps avail tge group total now =
  vestedAmount_carved bps avail tge group total now.
Proof.
  intros H Htotal. unfold vestedAmount_spec, vestedAmount_carved.
  destruct (now >=? avail) eqn:Ha; [done|].
  destruct H as [H| ->]; [lia|].
  rewrite Z.mul_0_r. change (0 ÷ 10000) with 0.
  replace (Z.min total 0) with 0 by lia. done.
Qed.

(** C10: on an allocation and basis points that are not negative the
    calculator returns a value between [0] and the allocation, and the
    claimable amount of a record with [claimed ≤ totalAllocation] is at
    most [totalAllocation - claimed]. *)
Theorem vested_and_claimable_bounded (s : State) (total : Z)
    (group : GroupConfigStored) (now tge : Z) :
  tgeTimestampNs s = Numeral tge →
  0 ≤ total → 0 ≤ initialClaimBasisPoints s → 0 ≤ initialUnlockBasisPoints group →
  (∃ v, computeVestedAmount total group now s = Returned v s ∧ 0 ≤ v ≤ total) ∧
  (∀ account r,
     investors s !! account = Some r → claimed r ≤ totalAllocation r →
     ∃ c, computeClaimable account now s = Returned c s ∧
          0 ≤ c ≤ totalAllocation r - claimed r).
Proof.
  intros Htge Htotal Hbps Hunlock. split.
  - destruct (computeVestedAmount_returns s total group now tge Htge) as (v & Hv & Hle).
    exists v. split_and!; [done| |done].
    rewrite (computeVestedAmount_carved s total group now tge) in Hv by done.
    injection Hv as <-. by apply computeVestedAmount_nonneg.
  - intros account r Hr Hinv.
    destruct (groups s !! groupId r) as [g|] eqn:Hg.
    + destruct (computeVestedAmount_returns s (totalAllocation r) g now tge Htge)
        as (v & Hv & Hle).
      exists (Z.max 0 (v - claimed r)). split; [|lia].
      by eapply computeClaimable_found.
    + exists 0. split; [|lia]. by eapply computeClaimable_no_group.
Qed.

Lemma vested_and_claimable_bounded_witness :
  (∃ v, computeVestedAmount 10000 sample_group 150 sample_state
          = Returned v sample_state ∧ 0 ≤ v ≤ 10000) ∧
  (∀ account r,
     investors sample_state !! account = Some r → claimed r ≤ totalAllocation r →
     ∃ c, computeClaimable account 150 sample_state = Returned c sample_state ∧
          0 ≤ c ≤ totalAllocation r - claimed r).
Proof.
  apply (vested_and_claimable_bounded sample_state 10000 sample_group 150 0);
    [reflexivity | lia | simpl; lia | simpl; lia].
Defined.

(** C6: the claimable amount of an account is [max(0, vested - claimed)],
    where [vested] is what the calculator returns for the account's
    allocation and group; it is [0] when the account has no record and
    when the record names a group that the registry does not hold. *)
Theorem computeClaimable_is_vested_minus_claimed (s : State) (account : string)
    (now tge : Z) :
  tgeTimestampNs s = Numeral tge →
  match investors s !! account with
  | None => computeClaimable account now s = Returned 0 s
  | Some r =>
    match groups s !! groupId r with
    | None => computeClaimable account now s = Returned 0 s
    | Some g =>
      ∃ vested,
        computeVestedAmount (totalAllocation r) g now s = Returned vested s ∧
        computeClaimable account now s = Returned (Z.max 0 (vested - claimed r)) s
    end
  end.
Proof.
  intros Htge.
  destruct (investors s !! account) as [r|] eqn:Hr;
    [|by apply computeClaimable_no_record].
  destruct (groups s !! groupId r) as [g|] eqn:Hg;
    [|by eapply computeClaimable_no_group].
  destruct (computeVestedAmount_returns s (totalAllocation r) g now tge Htge)
    as (v & Hv & _).
  exists v. split; [done|]. by eapply computeClaimable_found.
Qed.

Lemma computeClaimable_is_vested_minus_claimed_witness :
  ∃ vested,
    computeVestedAmount 10000 sample_group 150 sample_state
      = Returned vested sample_state ∧
    computeClaimable "alice.near" 150 sample_state
      = Returned (Z.max 0 (vested - 0)) sample_state.
Proof.
  exact (computeClaimable_is_vested_minus_claimed sample_state "alice.near" 150 0
           eq_refl).
Defined.

Example sample_claimable :
  computeClaimable "alice.near" 150 sample_state = Returned 5750 sample_state.
Proof. reflexivity. Qed.

(** ** What a method leaves untouched *)

Section Preserves.
Context (P : State → Prop).

Lemma preserves_mret {A} (a : A) : preserves P (mret a).
Proof. by intros s. Qed.

Lemma preserves_throw {A} (e : Error) : preserves P (throw e : M A).
Proof. by intros s. Qed.

Lemma preserves_this : preserves P this.
Proof. by intros s. Qed.

Lemma preserves_throwIf (c : bool) (e : Error) : preserves P (throwIf c e).
Proof. by destruct c; intros s. Qed.

Lemma preserves_BigInt (x : NumArg) : preserves P (BigInt x).
Proof. by destruct x; intros s. Qed.

Lemma preserves_update (f : State → State) :
  (∀ s, P s → P (f s)) → preserves P (update f).
Proof. intros Hf s Hs. by apply Hf. Qed.

Lemma preserves_bind {A B} (c : M A) (k : A → M B) :
  preserves P c → (∀ a, preserves P (k a)) → preserves P (c ≫= k).
Proof.
  intros Hc Hk s Hs. specialize (Hc s Hs). unfold mbind, M_bind.
  destruct (c s) as [a s'|e s']; simpl in *; [by apply Hk|done].
Qed.

Lemma preserves_forOf {A L} (body : L → A → M L) (xs : list A) :
  (∀ acc x, preserves P (body acc x)) →
  ∀ acc, preserves P (forOf body acc xs).
Proof.
  intros Hbody. induction xs as [|x xs IH]; intros acc; simpl.
  - apply preserves_mret.
  - apply preserves_bind; [apply Hbody|done].
Qed.
End Preserves.

Create HintDb preserves.

#[local] Hint Resolve preserves_mret preserves_throw preserves_this
  preserves_throwIf preserves_BigInt : preserves.

(** Breaks a method into its statements. *)
Ltac preserves_steps :=
  repeat match goal with
    | |- preserves _ (_ ≫= _) => apply preserves_bind; [|intros ?]
    | |- preserves _ (forOf _ _ _) => apply preserves_forOf; intros ? ?
    | |- preserves _ (update _) => apply preserves_update; intros ? ?
    | |- preserves _ (match ?x with _ => _ end) => destruct x
    | |- preserves _ _ => solve [auto with preserves]
    end.

Lemma setGroupsInternal_funds (groups : list GroupConfigInput) (s : State) :
  funds (finalState (setGroupsInternal groups s)) = funds s.
Proof.
  cut (preserves (λ s', funds s' = funds s) (setGroupsInternal groups));
    [intros H; by apply H|].
  unfold setGroupsInternal, setGroupsStep. preserves_steps; done.
Qed.

Lemma setInitialClaimConfig_funds (args : InitialClaimConfigInput) (s : State) :
  funds (finalState (setInitialClaimConfig args s)) = funds s.
Proof.
  cut (preserves (λ s', funds s' = funds s) (setInitialClaimConfig args));
    [intros H; by apply H|].
  unfold setInitialClaimConfig. preserves_steps; done.
Qed.

Lemma init_funds (env : Env) (o t : option string) (tge : NumArg)
    (gs : list GroupConfigInput) (ic : InitialClaimConfigInput) (s : State) :
  funds (finalState (init env o t tge gs ic s)) = funds s.
Proof.
  cut (preserves (λ s', funds s' = funds s) (init env o t tge gs ic));
    [intros H; by apply H|].
  unfold init, setInitialClaimConfig, setGroupsInternal, setGroupsStep.
  preserves_steps; done.
Qed.

Lemma configure_groups_funds (env : Env) (gs : list GroupConfigInput) (s : State) :
  funds (finalState (configure_groups env gs s)) = funds s.
Proof.
  cut (preserves (λ s', funds s' = funds s) (configure_groups env gs));
    [intros H; by apply H|].
  unfold configure_groups, call, assertOwner, setGroupsInternal, setGroupsStep.
  preserves_steps; done.
Qed.

Lemma configure_initial_claim_funds (env : Env)
    (args : option InitialClaimConfigInput) (s : State) :
  funds (finalState (configure_initial_claim env args s)) = funds s.
Proof.
  cut (preserves (λ s', funds s' = funds s) (configure_initial_claim env args));
    [intros H; by apply H|].
  unfold configure_initial_claim, call, assertOwner, setInitialClaimConfig.
  preserves_steps; done.
Qed.

(** ** The investor ledger *)

(** One entry of a batch either is refused, and then nothing has been
    written, or writes exactly one record: the entry's group and amount,
    and the [claimed] the account already had ([0] for a new account). *)
Lemma upsertStep_outcome (seen : gset string) (entry : InvestorInput) (s : State) :
  match upsertStep seen entry s with
  | Threw _ s' => s' = s
  | Returned seen' s' =>
    ∃ account group amt,
      account_id entry = Some account ∧ group_id entry = Some group ∧
      amount entry = Numeral amt ∧ (account ∉ seen) ∧ seen' = (seen ∪ {[account]}) ∧
      is_Some (groups s !! group) ∧ 0 < amt ∧
      let already := from_option claimed 0 (investors s !! account) in
      already ≤ amt ∧
      s' = set_investors
             (<[account := {| groupId := group; totalAllocation := amt;
                              claimed := already |}]> (investors s)) s
  end.
Proof.
  unfold upsertStep. run.
  destruct (account_id entry) as [account|]; [|done].
  destruct (group_id entry) as [group|]; simpl; [|by rewrite orb_true_r].
  destruct (bool_decide (account = "")); [done|].
  destruct (bool_decide (group = "")); [done|].
  destruct (amount entry) as [| | |amt]; simpl; try done;
    (case_bool_decide as Hseen; [done|]);
    (destruct (groups s !! group) as [g|] eqn:Hg; [|done]); [done|].
  destruct (amt <=? 0) eqn:Hpos; [done|].
  destruct (investors s !! account) as [current|] eqn:Hcur.
  - destruct (amt <? claimed current) eqn:Hlow; [done|].
    exists account, group, amt. rewrite Hcur. simpl. split_and!; try done; lia.
  - exists account, group, amt. rewrite Hcur. simpl. split_and!; try done; lia.
Qed.

Lemma forOf_app {A L} (body : L → A → M L) (acc : L) (xs ys : list A) (s : State) :
  forOf body acc (xs ++ ys) s =
  match forOf body acc xs s with
  | Returned acc' s' => forOf body acc' ys s'
  | Threw e s' => Threw e s'
  end.
Proof.
  revert acc s. induction xs as [|x xs IH]; intros acc s; simpl; [done|].
  unfold mbind, M_bind. destruct (body acc x s) as [acc' s'|e s']; [apply IH|done].
Qed.

(** A loop that throws has run some iterations to their end and thrown in
    the next one. *)
Lemma forOf_threw {A L} (body : L → A → M L) (acc : L) (xs : list A)
    (s s' : State) (e : Error) :
  forOf body acc xs s = Threw e s' →
  ∃ pre x post acc1 s1,
    xs = pre ++ x :: post ∧
    forOf body acc pre s = Returned acc1 s1 ∧
    body acc1 x s1 = Threw e s'.
Proof.
  revert acc s. induction xs as [|x xs IH]; intros acc s; simpl; [done|].
  unfold mbind, M_bind. destruct (body acc x s) as [acc' s0|e0 s0] eqn:Hx.
  - intros H. destruct (IH _ _ H) as (pre & y & post & acc1 & s1 & -> & Hpre & Hy).
    exists (x :: pre), y, post, acc1, s1. split_and!; [done| |done].
    simpl. unfold mbind, M_bind. by rewrite Hx.
  - intros [= -> ->]. by exists [], x, xs, acc, s.
Qed.

Lemma upsertStep_threw (seen : gset string) (entry : InvestorInput)
    (s s' : State) (e : Error) :
  upsertStep seen entry s = Threw e s' → s' = s.
Proof.
  intros H. pose proof (upsertStep_outcome seen entry s) as Ho.
  by rewrite H in Ho.
Qed.

(** The loop body on an entry that has passed the earlier checks and
    names an account with a record: the entry is refused when its amount
    is below the record's [claimed], and the ledger is then as it was;
    otherwise the record gets the new amount as [totalAllocation] and
    keeps its [claimed]. *)
Lemma upsertStep_existing_account (seen : gset string) (entry : InvestorInput)
    (s : State) (account group : string) (amt : Z) (current : InvestorRecord) :
  account_id entry = Some account → account ≠ "" →
  group_id entry = Some group → group ≠ "" →
  amount entry = Numeral amt → 0 < amt →
  account ∉ seen → is_Some (groups s !! group) →
  investors s !! account = Some current →
  upsertStep seen entry s =
    if amt <? claimed current
    then Threw (AllocationBelowClaimed account) s
    else Returned (seen ∪ {[account]})
           (set_investors
              (<[account := {| groupId := group; totalAllocation := amt;
                               claimed := claimed current |}]> (investors s)) s).
Proof.
  intros Ha Hane Hg Hgne Hamt Hpos Hseen [g Hgroup] Hcur.
  unfold upsertStep. run. rewrite Ha, Hg, Hamt. simpl.
  rewrite !bool_decide_eq_false_2 by done. simpl.
  rewrite Hgroup, Hcur.
  destruct (amt <=? 0) eqn:H0; [lia|].
  by destruct (amt <? claimed current).
Qed.

Example upsertStep_existing_account_sample :
  upsertStep ∅ {| account_id := Some "alice.near"; group_id := Some "seed";
                  amount := Numeral 5000 |} sample_after_claim =
    if 5000 <? 5750
    then Threw (AllocationBelowClaimed "alice.near") sample_after_claim
    else Returned (∅ ∪ {["alice.near"]})
           (set_investors
              (<["alice.near" := {| groupId := "seed"; totalAllocation := 5000;
                                    claimed := 5750 |}]>
                 (investors sample_after_claim)) sample_after_claim).
Proof.
  apply (upsertStep_existing_account ∅ _ sample_after_claim "alice.near" "seed" 5000
           {| groupId := "seed"; totalAllocation := 10000; claimed := 5750 |});
    try reflexivity; done.
Defined.

(** A batch that is refused has applied the entries before the refused
    one, as a loop over those entries alone applies them. *)
Lemma upsert_investors_threw (env : Env) (l : list InvestorInput)
    (s s' : State) (e : Error) :
  upsert_investors env l s = Threw e s' →
  s' = s ∨
  ∃ pre x post seen,
    l = pre ++ x :: post ∧
    forOf upsertStep ∅ pre s = Returned seen s' ∧
    upsertStep seen x s' = Threw e s'.
Proof.
  unfold upsert_investors. rewrite call_public.
  destruct (attachedDeposit env >? 0); [intros [= _ <-]; by left|].
  unfold assertOwner. run.
  case_bool_decide; [intros [= _ <-]; by left|].
  case_bool_decide; [intros [= _ <-]; by left|].
  destruct (forOf upsertStep ∅ l s) as [seen s1|e1 s1] eqn:Hloop; [done|].
  intros [= -> ->]. right.
  destruct (forOf_threw _ _ _ _ _ _ Hloop) as (pre & x & post & seen & s1 & -> & Hpre & Hx).
  pose proof (upsertStep_threw _ _ _ _ _ Hx) as ->.
  by exists pre, x, post, seen.
Qed.

(** The object at the throw: a batch whose second entry names an unknown
    group is refused, and at that moment the record written for its first
    entry is in the ledger of the object.  Whether it stays is the
    host's matter ([committed]). *)
Lemma upsert_investors_partial_batch :
  let batch :=
    [ {| account_id := Some "bob.near"; group_id := Some "seed";
         amount := Numeral 500 |};
      {| account_id := Some "carol.near"; group_id := Some "angels";
         amount := Numeral 700 |} ] in
  let left_behind :=
    finalState (upsert_investors (unpaid_env "owner.near" 150 true) batch sample_state) in
  upsert_investors (unpaid_env "owner.near" 150 true) batch sample_state
    = Threw (UnknownGroup "angels") left_behind ∧
  investors sample_state !! "bob.near" = None ∧
  investors left_behind !! "bob.near"
    = Some {| groupId := "seed"; totalAllocation := 500; claimed := 0 |}.
Proof. split_and!; reflexivity. Qed.

(** When the entries [pre] of a batch are accepted and the next entry [x]
    is refused, the call by the owner fails with the error of [x], and the
    state in which it throws is the one in which the entries of [pre]
    have been written and nothing else. *)
Lemma upsert_investors_refused_at (env : Env)
    (pre post : list InvestorInput) (x : InvestorInput) (seen : gset string)
    (s s1 s2 : State) (e : Error) :
  predecessorAccountId env = owner s →
  attachedDeposit env ≤ 0 →
  forOf upsertStep ∅ pre s = Returned seen s1 →
  upsertStep seen x s1 = Threw e s2 →
  upsert_investors env (pre ++ x :: post) s = Threw e s1 ∧
  (pre = [] → s1 = s) ∧
  (pre ≠ [] → upsert_investors env pre s = Returned tt s1).
Proof.
  intros Howner Hfree Hpre Hx.
  pose proof (upsertStep_threw _ _ _ _ _ Hx) as ->.
  unfold upsert_investors. rewrite !call_public.
  replace (attachedDeposit env >? 0) with false by lia.
  unfold assertOwner. run.
  rewrite bool_decide_eq_false_2 by (intros H; by apply H).
  split_and!.
  - rewrite bool_decide_eq_false_2 by (by destruct pre).
    rewrite forOf_app, Hpre. simpl. unfold mbind, M_bind. by rewrite Hx.
  - intros ->. by injection Hpre as _ <-.
  - intros Hne. rewrite bool_decide_eq_false_2 by done. by rewrite Hpre.
Qed.

(** ** The group registry *)

(** One entry of a replacement list either is refused, and then nothing
    has been written, or stores one validated configuration under an id
    not met before. *)
Lemma setGroupsStep_outcome (seen : gset string) (group : GroupConfigInput) (s : State) :
  match setGroupsStep seen group s with
  | Threw _ s' => s' = s
  | Returned seen' s' =>
    ∃ gid cfg,
      id group = Some gid ∧ (gid ∉ seen) ∧ seen' = (seen ∪ {[gid]}) ∧
      0 ≤ cliffDurationNs cfg ∧ 0 ≤ vestingDurationNs cfg ∧
      0 ≤ initialUnlockBasisPoints cfg ≤ BASIS_POINTS_DENOMINATOR ∧
      s' = set_groups (<[gid := cfg]> (groups s)) s
  end.
Proof.
  unfold setGroupsStep. run.
  destruct (id group) as [gid|]; simpl; [|done].
  destruct (bool_decide (gid = "")); [done|].
  case_bool_decide as Hseen; [done|].
  destruct (cliff_duration_ns group) as [| | |cliff]; try done;
    (destruct (vesting_duration_ns group) as [| | |vesting]; try done);
    (destruct (initial_unlock_basis_points group) as [| | |bps]; simpl; try done);
    repeat (match goal with
            | |- context [if ?b then _ else _] => destruct b eqn:?
            end; simpl; try done);
    exists gid; eexists; (split_and!; last reflexivity); simpl; try done;
    unfold BASIS_POINTS_DENOMINATOR in *; lia.
Qed.

Lemma setGroupsStep_threw (seen : gset string) (group : GroupConfigInput)
    (s s' : State) (e : Error) :
  setGroupsStep seen group s = Threw e s' → s' = s.
Proof.
  intros H. pose proof (setGroupsStep_outcome seen group s) as Ho.
  by rewrite H in Ho.
Qed.

(** While the loop runs, the registry holds exactly the ids met so far,
    and those are the ids of the entries gone through. *)
Lemma setGroups_loop_dom (l : list GroupConfigInput) (seen seen' : gset string)
    (s s' : State) :
  forOf setGroupsStep seen l s = Returned seen' s' →
  dom (groups s) = seen →
  dom (groups s') = seen' ∧ seen' = seen ∪ list_to_set (omap id l).
Proof.
  revert seen s. induction l as [|g l IH]; intros seen s; simpl.
  - intros [= <- <-] Hdom. split; [done|]. by rewrite (right_id_L ∅ (∪)).
  - unfold mbind, M_bind.
    pose proof (setGroupsStep_outcome seen g s) as Hg.
    destruct (setGroupsStep seen g s) as [seen1 s1|]; [|done].
    destruct Hg as (gid & cfg & Hid & _ & -> & _ & _ & _ & ->).
    intros Hl Hdom. rewrite Hid. simpl.
    destruct (IH _ _ Hl) as [Hdom' ->].
    { simpl. rewrite dom_insert_L, Hdom. apply (comm_L (∪)). }
    split; [done|]. apply symmetry, (assoc_L (∪)).
Qed.

(** The object at the throw: a replacement list whose second entry
    repeats the id of the first is refused, and at that moment the
    registry of the object has lost the group [seed] and holds the first
    entry of the list.  Whether that stays is the host's matter
    ([committed]). *)
Lemma configure_groups_partial_replace :
  let team := {| id := Some "team"; cliff_duration_ns := Numeral 0;
                 vesting_duration_ns := Numeral 10;
                 initial_unlock_basis_points := Undefined |} in
  let left_behind :=
    finalState (configure_groups (unpaid_env "owner.near" 150 true)
                  [team; team] sample_state) in
  configure_groups (unpaid_env "owner.near" 150 true) [team; team] sample_state
    = Threw (DuplicateGroup "team") left_behind ∧
  groups sample_state !! "seed" = Some sample_group ∧
  groups left_behind !! "seed" = None ∧
  groups left_behind !! "team"
    = Some {| cliffDurationNs := 0; vestingDurationNs := 10;
              initialUnlockBasisPoints := 0 |}.
Proof. split_and!; reflexivity. Qed.

(** When the entries [pre] of a replacement list pass validation and the
    next entry [x] fails it, the call by the owner fails with the error of
    [x]; the state in which it throws is the one in which the registry has
    been emptied and the entries of [pre] stored. *)
Lemma configure_groups_refused_at (env : Env)
    (pre post : list GroupConfigInput) (x : GroupConfigInput)
    (seen : gset string) (s s1 s2 : State) (e : Error) :
  predecessorAccountId env = owner s →
  attachedDeposit env ≤ 0 →
  forOf setGroupsStep ∅ pre (set_groups ∅ s) = Returned seen s1 →
  setGroupsStep seen x s1 = Threw e s2 →
  configure_groups env (pre ++ x :: post) s = Threw e s1 ∧
  dom (groups s1) = list_to_set (omap id pre) ∧
  s1 = set_groups (groups s1) s.
Proof.
  intros Howner Hfree Hpre Hx.
  pose proof (setGroupsStep_threw _ _ _ _ _ Hx) as ->.
  split_and!.
  - unfold configure_groups. rewrite call_public.
    replace (attachedDeposit env >? 0) with false by lia.
    unfold setGroupsInternal, assertOwner. run.
    rewrite bool_decide_eq_false_2 by (intros H; by apply H).
    rewrite bool_decide_eq_false_2 by (by destruct pre).
    rewrite forOf_app, Hpre. simpl. unfold mbind, M_bind. by rewrite Hx.
  - destruct (setGroups_loop_dom _ _ _ _ _ Hpre) as [-> ->]; [done|].
    by rewrite (left_id_L ∅ (∪)).
  - clear Hx Howner. revert Hpre. generalize (∅ : gset string) as seen0.
    assert (set_groups ∅ s = set_groups (groups (set_groups ∅ s)) s) as Hs by done.
    revert Hs. generalize (set_groups ∅ s) as s0.
    induction pre as [|g pre IH]; intros s0 Hs0 seen0; simpl.
    + by intros [= _ <-].
    + unfold mbind, M_bind.
      pose proof (setGroupsStep_outcome seen0 g s0) as Hg.
      destruct (setGroupsStep seen0 g s0) as [seen1 s1'|]; [|done].
      destruct Hg as (gid & cfg & _ & _ & _ & _ & _ & _ & ->).
      apply IH. rewrite Hs0. done.
Qed.

(** ** Claim and withdraw *)

Lemma claim_authorized (env : Env) (account_arg : option string) (s : State)
    (claimant : string) (record : InvestorRecord) (c : Z) :
  claimant = default (predecessorAccountId env) account_arg →
  attachedDeposit env = ONE_YOCTO →
  claimant = predecessorAccountId env ∨ predecessorAccountId env = owner s →
  investors s !! claimant = Some record →
  computeClaimable claimant (blockTimestamp env) s = Returned c s →
  claim env account_arg s =
    if c =? 0 then Threw NothingToClaim s
    else if c >? poolBalance s then Threw InsufficientPoolBalance s
    else Returned {| receiver_id := claimant;
                     transfer_amount := Numeral c;
                     memo := "vesting-claim";
                     callback := on_claim_complete_args claimant (Numeral c) |}
                  (claimDebit claimant record c s).
Proof.
  intros -> Hyocto Hauth Hrec Hc.
  pose proof (computeClaimable_outcome s
    (default (predecessorAccountId env) account_arg) (blockTimestamp env)) as Hout.
  rewrite Hc in Hout. destruct Hout as (_ & Hpos & _).
  unfold claim, assertOneYocto. run.
  rewrite bool_decide_eq_false_2 by (intros H; by apply H).
  replace (negb _ && _) with false; last first.
  { symmetry. apply andb_false_iff. destruct Hauth as [H|H].
    - left. by rewrite bool_decide_eq_true_2.
    - right. apply bool_decide_eq_false_2. intros Hne. by apply Hne. }
  rewrite Hrec, Hc.
  destruct (c =? 0) eqn:Hzero.
  { replace (c <=? 0) with true by lia. done. }
  replace (c <=? 0) with false by lia.
  by destruct (c >? poolBalance s).
Qed.

(** Every way [claim] can end. *)
Lemma claim_outcome (env : Env) (account_arg : option string) (s : State) :
  match claim env account_arg s with
  | Threw _ s' => s' = s
  | Returned p s' =>
    let claimant := default (predecessorAccountId env) account_arg in
    ∃ record c,
      investors s !! claimant = Some record ∧
      0 < c ≤ poolBalance s ∧ c ≤ totalAllocation record - claimed record ∧
      s' = claimDebit claimant record c s ∧
      callback p = on_claim_complete_args claimant (Numeral c)
  end.
Proof.
  unfold claim, assertOneYocto. run.
  case_bool_decide; [done|].
  destruct (negb _ && _); [done|].
  set (claimant := default (predecessorAccountId env) account_arg).
  destruct (investors s !! claimant) as [record|] eqn:Hrec; [|done].
  pose proof (computeClaimable_outcome s claimant (blockTimestamp env)) as Hout.
  destruct (computeClaimable claimant (blockTimestamp env) s) as [c s'|e s'];
    [|done].
  destruct Hout as (-> & Hpos & Hle).
  destruct (c <=? 0) eqn:Hzero; [done|].
  destruct (c >? poolBalance s) eqn:Hpool; [done|].
  exists record, c. split_and!; try done; try lia.
  apply Hle; [done|lia].
Qed.

(** Every way [withdraw_unallocated] can end. *)
Lemma withdraw_unallocated_outcome (env : Env) (amount : NumArg)
    (recipient memo_arg : option string) (s : State) :
  match withdraw_unallocated env amount recipient memo_arg s with
  | Threw _ s' => s' = s
  | Returned p s' =>
    ∃ w, amount = Numeral w ∧ 0 < w ≤ poolBalance s ∧
         s' = withdrawDebit w s ∧
         callback p = on_withdraw_complete_args (default (owner s) recipient) amount
  end.
Proof.
  unfold withdraw_unallocated, assertOwner, assertOneYocto. run.
  case_bool_decide; [done|].
  case_bool_decide; [done|].
  destruct amount as [| | |w]; simpl; try done.
  destruct (w <=? 0) eqn:Hzero; [done|].
  destruct (w >? poolBalance s) eqn:Hpool; [done|].
  exists w. split_and!; try done; lia.
Qed.

(** Every way [ft_on_transfer] can end. *)
Lemma ft_on_transfer_outcome (env : Env) (sender_id : option string)
    (amount : NumArg) (msg : option string) (s : State) :
  match ft_on_transfer env sender_id amount msg s with
  | Threw _ s' => s' = s
  | Returned _ s' => ∃ d, amount = Numeral d ∧ 0 < d ∧ s' = credit d s
  end.
Proof.
  unfold ft_on_transfer. rewrite call_public.
  destruct (attachedDeposit env >? 0); [done|].
  unfold assertTokenCaller. run.
  case_bool_decide; [done|].
  destruct amount as [| | |d]; simpl; try done.
  destruct (d <=? 0) eqn:Hzero; [done|].
  exists d. split_and!; try done; lia.
Qed.

(** Every way [on_claim_complete] can end. *)
Lemma on_claim_complete_outcome (env : Env) (account : string) (amount : NumArg)
    (s : State) :
  match on_claim_complete env account amount s with
  | Returned _ s' => s' = s
  | Threw e s' =>
    s' = s ∨
    ∃ record,
      predecessorAccountId env = currentAccountId env ∧
      promiseSucceeded env = false ∧
      investors s !! account = Some record ∧
      e = TokenTransferFailed ∧
      s' = claimRevert account record (amountOf amount) s
  end.
Proof.
  unfold on_claim_complete. rewrite call_private.
  case_bool_decide as Hprivate; [by left|].
  destruct (attachedDeposit env >? 0); [by left|].
  unfold assertSelf. run.
  case_bool_decide as Hself; [by left|].
  destruct (promiseSucceeded env) eqn:Hok; [done|].
  destruct (investors s !! account) as [record|] eqn:Hrec; [|by left].
  destruct amount as [| | |z]; simpl; try by left.
  all: right; exists record; split_and!; try done;
    by destruct (decide (predecessorAccountId env = currentAccountId env)).
Qed.

(** Every way [on_withdraw_complete] can end. *)
Lemma on_withdraw_complete_outcome (env : Env) (recipient : string)
    (amount : NumArg) (s : State) :
  match on_withdraw_complete env recipient amount s with
  | Returned _ s' => s' = s
  | Threw e s' =>
    s' = s ∨
    (predecessorAccountId env = currentAccountId env ∧
     promiseSucceeded env = false ∧
     e = TokenTransferFailed ∧
     s' = withdrawRevert (amountOf amount) s)
  end.
Proof.
  unfold on_withdraw_complete. rewrite call_private.
  case_bool_decide as Hprivate; [by left|].
  destruct (attachedDeposit env >? 0); [by left|].
  unfold assertSelf. run.
  case_bool_decide as Hself; [by left|].
  destruct (promiseSucceeded env) eqn:Hok; [done|].
  destruct amount as [| | |z]; simpl; try by left.
  all: right; split_and!; try done;
    by destruct (decide (predecessorAccountId env = currentAccountId env)).
Qed.

(** C4: for a call of [claim] with one yocto attached, made by the
    claimant or by the owner, on an account that has a record, the
    claimable amount [c] is computed and: [c = 0] makes the call fail with
    [NothingToClaim], [c] above [poolBalance] makes it fail with
    [InsufficientPoolBalance], in both cases with the state untouched;
    otherwise the state in which the transfer is requested has [claimed]
    and [totalClaimed] raised and [poolBalance] lowered by [c], and
    nothing else changed. *)
Theorem claim_checks_then_debits (env : Env) (account_arg : option string)
    (s : State) (claimant : string) (record : InvestorRecord) (tge : Z) :
  claimant = default (predecessorAccountId env) account_arg →
  attachedDeposit env = ONE_YOCTO →
  claimant = predecessorAccountId env ∨ predecessorAccountId env = owner s →
  investors s !! claimant = Some record →
  tgeTimestampNs s = Numeral tge →
  ∃ c,
    computeClaimable claimant (blockTimestamp env) s = Returned c s ∧
    claim env account_arg s =
      if c =? 0 then Threw NothingToClaim s
      else if c >? poolBalance s then Threw InsufficientPoolBalance s
      else Returned {| receiver_id := claimant;
                       transfer_amount := Numeral c;
                       memo := "vesting-claim";
                       callback := on_claim_complete_args claimant (Numeral c) |}
                    (claimDebit claimant record c s).
Proof.
  intros Hclaimant Hyocto Hauth Hrec Htge.
  destruct (computeClaimable_returns s claimant (blockTimestamp env) tge Htge)
    as [c Hc].
  exists c. split; [done|]. by apply claim_authorized.
Qed.

Lemma claim_checks_then_debits_witness :
  ∃ c,
    computeClaimable "alice.near" 150 sample_state = Returned c sample_state ∧
    claim (sample_env "alice.near" 150 true) None sample_state =
      if c =? 0 then Threw NothingToClaim sample_state
      else if c >? poolBalance sample_state
      then Threw InsufficientPoolBalance sample_state
      else Returned {| receiver_id := "alice.near";
                       transfer_amount := Numeral c;
                       memo := "vesting-claim";
                       callback := on_claim_complete_args "alice.near" (Numeral c) |}
                    (claimDebit "alice.near"
                       {| groupId := "seed"; totalAllocation := 10000; claimed := 0 |}
                       c sample_state).
Proof.
  apply (claim_checks_then_debits (sample_env "alice.near" 150 true) None
           sample_state "alice.near"
           {| groupId := "seed"; totalAllocation := 10000; claimed := 0 |} 0);
    try reflexivity.
  by left.
Defined.

(** On the sample deployment the claim at time 150 pays 5750. *)
Example claim_pays_vested :
  claim (sample_env "alice.near" 150 true) None sample_state =
    Returned {| receiver_id := "alice.near";
                transfer_amount := Numeral 5750;
                memo := "vesting-claim";
                callback := on_claim_complete_args "alice.near" (Numeral 5750) |}
             (claimDebit "alice.near"
                {| groupId := "seed"; totalAllocation := 10000; claimed := 0 |}
                5750 sample_state).
Proof. reflexivity. Qed.

(** The two refusals of C4 on concrete pools: before the cliff nothing is
    claimable, and a pool of 100 cannot pay 5750. *)
Example claim_nothing_to_claim :
  claim (sample_env "alice.near" 5 true) None sample_state
    = Threw NothingToClaim sample_state.
Proof. reflexivity. Qed.

Example claim_insufficient_pool :
  claim (sample_env "alice.near" 150 true) None (set_poolBalance 100 sample_state)
    = Threw InsufficientPoolBalance (set_poolBalance 100 sample_state).
Proof. reflexivity. Qed.

(** ** Compensation *)

Lemma claimRevert_claimDebit (account : string) (record : InvestorRecord)
    (c : Z) (s : State) :
  investors s !! account = Some record →
  claimRevert account
    {| groupId := groupId record; totalAllocation := totalAllocation record;
       claimed := claimed record + c |} c
    (claimDebit account record c s) = s.
Proof.
  intros Hrec. destruct s, record.
  unfold claimRevert, claimDebit, set_poolBalance, set_totalClaimed, set_investors.
  simpl in *. f_equal; try lia.
  rewrite insert_insert_eq. apply insert_id. rewrite Hrec. f_equal. f_equal. lia.
Qed.

Lemma withdrawRevert_withdrawDebit (w : Z) (s : State) :
  withdrawRevert w (withdrawDebit w s) = s.
Proof.
  destruct s. unfold withdrawRevert, withdrawDebit, set_poolBalance, set_totalWithdrawn.
  simpl. f_equal; lia.
Qed.

(** What the continuation writes before it throws.  When a call has
    made its optimistic writes and returned its promise, and the transfer
    then fails, the registered continuation, resumed by the contract with
    no deposit attached, writes the exact reversal and then throws
    [TokenTransferFailed]: the object it throws in is the state the call
    started from.  The calls that return a promise are [claim] and
    [withdraw_unallocated]. *)
Lemma failed_transfer_writes_compensation (env env' : Env) (c : Call)
    (s s1 : State) (p : NearPromise) :
  invoke env c s = Returned (Some p) s1 →
  predecessorAccountId env' = currentAccountId env' →
  attachedDeposit env' ≤ 0 →
  promiseSucceeded env' = false →
  invoke env' (resume (callback p)) s1 = Threw TokenTransferFailed s.
Proof.
  intros Hcall Hself Hfree Hfail.
  destruct c as [o t tge gs ic|gs|args|l|account|amt rcp mm|sd amt mm|a amt|r amt];
    simpl in Hcall; unfold mbind, M_bind in Hcall;
    try (by repeat case_match).
  - (* claim *)
    pose proof (claim_outcome env account s) as Hout.
    destruct (claim env account s) as [p' s'|]; [|done].
    injection Hcall as -> ->.
    destruct Hout as (record & c & Hrec & _ & _ & -> & ->).
    simpl. unfold mbind at 1, M_bind at 1. unfold on_claim_complete.
    rewrite call_private.
    rewrite bool_decide_eq_false_2 by (intros H; by apply H).
    replace (attachedDeposit env' >? 0) with false by lia.
    unfold assertSelf. run.
    rewrite bool_decide_eq_false_2 by (intros H; by apply H).
    rewrite Hfail. simpl. rewrite lookup_insert_eq.
    f_equal. by apply (claimRevert_claimDebit _ record c s).
  - (* withdraw_unallocated *)
    pose proof (withdraw_unallocated_outcome env amt rcp mm s) as Hout.
    destruct (withdraw_unallocated env amt rcp mm s) as [p' s'|];
      [|done].
    injection Hcall as -> ->.
    destruct Hout as (w & -> & _ & -> & ->).
    simpl. unfold mbind at 1, M_bind at 1. unfold on_withdraw_complete.
    rewrite call_private.
    rewrite bool_decide_eq_false_2 by (intros H; by apply H).
    replace (attachedDeposit env' >? 0) with false by lia.
    unfold assertSelf. run.
    rewrite bool_decide_eq_false_2 by (intros H; by apply H).
    rewrite Hfail. f_equal. apply withdrawRevert_withdrawDebit.
Qed.

(** The same for a withdrawal of 300 by the owner. *)
Example failed_withdraw_writes_compensation :
  let env := sample_env "owner.near" 150 true in
  ∃ p s1,
    withdraw_unallocated env (Numeral 300) None None sample_state = Returned p s1 ∧
    poolBalance s1 = 19700 ∧ totalWithdrawn s1 = 300 ∧
    invoke (unpaid_env "vesting.near" 200 false) (resume (callback p)) s1
      = Threw TokenTransferFailed sample_state.
Proof. do 2 eexists. split_and!; [by vm_compute|reflexivity..]. Qed.

(** C5: the compensation does not outlive the failure it reports.  On
    the sample deployment alice claims 5750 at time 150 and the transfer
    fails.  The continuation, resumed by the contract with no deposit
    attached, writes [claimed], [totalClaimed] and [poolBalance] back to
    their values before the claim and then throws: the call has failed,
    and the state the host keeps of a failed call is the one it was
    resumed in, which still has the claim's debit.  The same holds for a
    withdrawal of 300 by the owner. *)
Lemma failed_transfer_compensation_discarded :
  let resume_env := unpaid_env "vesting.near" 200 false in
  (∃ p,
     claim (sample_env "alice.near" 150 true) None sample_state
       = Returned p sample_after_claim ∧
     invoke resume_env (resume (callback p)) sample_after_claim
       = Threw TokenTransferFailed sample_state ∧
     committed sample_after_claim
       (invoke resume_env (resume (callback p)) sample_after_claim)
       = sample_after_claim ∧
     (claimedOf (investors sample_state) "alice.near",
      totalClaimed sample_state, poolBalance sample_state) = (0, 0, 20000) ∧
     (claimedOf (investors sample_after_claim) "alice.near",
      totalClaimed sample_after_claim, poolBalance sample_after_claim)
       = (5750, 5750, 14250)) ∧
  (∃ p debited,
     withdraw_unallocated (sample_env "owner.near" 150 true) (Numeral 300)
       None None sample_state = Returned p debited ∧
     invoke resume_env (resume (callback p)) debited
       = Threw TokenTransferFailed sample_state ∧
     committed debited (invoke resume_env (resume (callback p)) debited)
       = debited ∧
     (poolBalance sample_state, totalWithdrawn sample_state) = (20000, 0) ∧
     (poolBalance debited, totalWithdrawn debited) = (19700, 300)).
Proof.
  intros resume_env. split.
  - exists {| receiver_id := "alice.near"; transfer_amount := Numeral 5750;
              memo := "vesting-claim";
              callback := on_claim_complete_args "alice.near" (Numeral 5750) |}.
    split_and!; reflexivity.
  - do 2 eexists. split_and!; [by vm_compute|reflexivity..].
Qed.

(** ** Invariants of the reachable states *)

Lemma inflight_app (a : string) (l1 l2 : list Callback) :
  inflight a (l1 ++ l2) = inflight a l1 + inflight a l2.
Proof. induction l1 as [|cb l1 IH]; simpl; lia. Qed.

Lemma amountsNonneg_inflight (l : list Callback) (a : string) :
  amountsNonneg l → 0 ≤ inflight a l.
Proof.
  induction 1 as [|cb l Hcb _ IH]; simpl; [done|]. specialize (Hcb a). lia.
Qed.

Lemma amountsNonneg_remove (before later : list Callback) (cb : Callback) :
  amountsNonneg (before ++ cb :: later) →
  amountsNonneg (before ++ later) ∧ ∀ a, 0 ≤ claimShare a cb.
Proof.
  unfold amountsNonneg. rewrite !Forall_app, Forall_cons.
  intros (Hbefore & Hcb & Hlater). by split.
Qed.

Lemma inflight_remove (a : string) (before later : list Callback) (cb : Callback) :
  inflight a (before ++ cb :: later)
  = inflight a (before ++ later) + claimShare a cb.
Proof. rewrite !inflight_app. simpl. lia. Qed.

(** Dropping a continuation keeps the ledger sound. *)
Lemma ledgerSound_remove (before later : list Callback) (cb : Callback)
    (m : gmap string InvestorRecord) :
  (∀ a, 0 ≤ claimShare a cb) →
  ledgerSound (before ++ cb :: later) m → ledgerSound (before ++ later) m.
Proof.
  intros Hcb [Halloc Hfl]. split; [done|]. intros a.
  specialize (Hfl a). rewrite inflight_remove in Hfl. specialize (Hcb a). lia.
Qed.

(** Writing a record whose [claimed] is the one the account had, under an
    allocation that covers it, keeps the ledger sound. *)
Lemma ledgerSound_upsert (l : list Callback) (m : gmap string InvestorRecord)
    (account group : string) (amt : Z) :
  claimedOf m account ≤ amt →
  ledgerSound l m →
  ledgerSound l (<[account := {| groupId := group; totalAllocation := amt;
                                 claimed := claimedOf m account |}]> m).
Proof.
  intros Hle [Halloc Hfl]. split.
  - intros a r. destruct (decide (a = account)) as [->|Hne].
    + rewrite lookup_insert_eq. by intros [= <-].
    + rewrite lookup_insert_ne by done. apply Halloc.
  - intros a. unfold claimedOf at 1. destruct (decide (a = account)) as [->|Hne].
    + rewrite lookup_insert_eq. simpl. apply Hfl.
    + rewrite lookup_insert_ne by done. apply Hfl.
Qed.

(** Registering a claim of [c] while raising [claimed] by [c] keeps the
    ledger sound, provided the allocation covers the new [claimed]. *)
Lemma ledgerSound_claim (l : list Callback) (m : gmap string InvestorRecord)
    (account : string) (record : InvestorRecord) (c : Z) :
  m !! account = Some record →
  c ≤ totalAllocation record - claimed record →
  ledgerSound l m →
  ledgerSound (on_claim_complete_args account (Numeral c) :: l)
    (<[account := {| groupId := groupId record;
                     totalAllocation := totalAllocation record;
                     claimed := claimed record + c |}]> m).
Proof.
  intros Hrec Hle [Halloc Hfl]. split.
  - intros a r. destruct (decide (a = account)) as [->|Hne].
    + rewrite lookup_insert_eq. intros [= <-]. simpl. lia.
    + rewrite lookup_insert_ne by done. apply Halloc.
  - intros a. specialize (Hfl a). unfold claimedOf in *. simpl.
    destruct (decide (account = a)) as [->|Hne].
    + rewrite lookup_insert_eq. rewrite Hrec in Hfl. simpl in *. lia.
    + rewrite lookup_insert_ne by done. lia.
Qed.

(** Giving back a claim that is taken out of the waiting list keeps the
    ledger sound. *)
Lemma ledgerSound_revert (before later : list Callback)
    (m : gmap string InvestorRecord) (account : string) (n : NumArg)
    (record : InvestorRecord) :
  0 ≤ amountOf n →
  m !! account = Some record →
  ledgerSound (before ++ on_claim_complete_args account n :: later) m →
  ledgerSound (before ++ later)
    (<[account := {| groupId := groupId record;
                     totalAllocation := totalAllocation record;
                     claimed := claimed record - amountOf n |}]> m).
Proof.
  intros Hpos Hrec [Halloc Hfl]. split.
  - intros a r. destruct (decide (a = account)) as [->|Hne].
    + rewrite lookup_insert_eq. intros [= <-]. simpl.
      specialize (Halloc _ _ Hrec). lia.
    + rewrite lookup_insert_ne by done. apply Halloc.
  - intros a. specialize (Hfl a). rewrite inflight_remove in Hfl.
    unfold claimedOf in *. simpl in Hfl.
    destruct (decide (account = a)) as [->|Hne].
    + rewrite lookup_insert_eq. rewrite Hrec in Hfl. simpl in *. lia.
    + rewrite lookup_insert_ne by done. lia.
Qed.

Lemma holds_funds (s s' : State) (l : list Callback) :
  funds s' = funds s → holds s l → holds s' l.
Proof.
  unfold holds, poolReconciles, funds.
  intros [= -> -> -> -> ->]. done.
Qed.

Lemma upsertStep_holds (l : list Callback) (seen : gset string)
    (entry : InvestorInput) :
  preserves (λ s, holds s l) (upsertStep seen entry).
Proof.
  intros s Hs. pose proof (upsertStep_outcome seen entry s) as Hout.
  destruct (upsertStep seen entry s) as [seen' s'|e s']; simpl; [|by subst].
  destruct Hout as (account & group & amt & _ & _ & _ & _ & _ & _ & _ & Hle & ->).
  destruct Hs as (Hpool & Hledger & Hpos). split_and!; [done| |done].
  simpl. by apply ledgerSound_upsert.
Qed.

Lemma upsert_investors_holds (env : Env) (batch : list InvestorInput)
    (l : list Callback) :
  preserves (λ s, holds s l) (upsert_investors env batch).
Proof.
  unfold upsert_investors, call, assertOwner.
  repeat first [ apply preserves_bind; [|intros ?]
               | apply preserves_forOf; intros ? ?; apply upsertStep_holds ];
    auto with preserves.
Qed.

(** Results of calls that return no promise. *)
Lemma invoke_no_promise {A} (m : M A) (s : State) :
  registered ((m ≫= λ _, mret (None : option NearPromise)) s) = [] ∧
  finalState ((m ≫= λ _, mret (None : option NearPromise)) s) = finalState (m s).
Proof. unfold mbind, M_bind. by destruct (m s). Qed.

(** A call from outside keeps the invariant, the continuation it
    registers included. *)
Lemma invoke_holds (env : Env) (c : Call) (s : State) (l : list Callback) :
  external env c → holds s l →
  holds (finalState (invoke env c s)) (registered (invoke env c s) ++ l).
Proof.
  intros Hext Hs.
  destruct c as [o t tge gs ic|gs|args|batch|account|amt rcp mm|sd amt mm|a amt|r amt];
    simpl.
  - destruct (invoke_no_promise (init env o t tge gs ic) s) as [-> ->].
    eapply holds_funds; [apply init_funds|done].
  - destruct (invoke_no_promise (configure_groups env gs) s) as [-> ->].
    eapply holds_funds; [apply configure_groups_funds|done].
  - destruct (invoke_no_promise (configure_initial_claim env args) s) as [-> ->].
    eapply holds_funds; [apply configure_initial_claim_funds|done].
  - destruct (invoke_no_promise (upsert_investors env batch) s) as [-> ->].
    by apply upsert_investors_holds.
  - unfold mbind, M_bind.
    pose proof (claim_outcome env account s) as Hout.
    destruct (claim env account s) as [p s'|e s']; simpl; [|by subst].
    destruct Hout as (record & c & Hrec & Hc & Hle & -> & ->).
    destruct Hs as (Hpool & Hledger & Hpos). split_and!.
    + unfold poolReconciles in *. simpl. lia.
    + simpl. by apply ledgerSound_claim.
    + apply Forall_cons. split; [|done]. intros a. simpl. case_decide; lia.
  - unfold mbind, M_bind.
    pose proof (withdraw_unallocated_outcome env amt rcp mm s) as Hout.
    destruct (withdraw_unallocated env amt rcp mm s) as [p s'|e s']; simpl;
      [|by subst].
    destruct Hout as (w & -> & Hw & -> & ->).
    destruct Hs as (Hpool & Hledger & Hpos). split_and!.
    + unfold poolReconciles in *. simpl. lia.
    + destruct Hledger as [Halloc Hfl]. split; [done|]. intros a. apply Hfl.
    + apply Forall_cons. split; [|done]. by intros a.
  - unfold mbind, M_bind.
    pose proof (ft_on_transfer_outcome env sd amt mm s) as Hout.
    destruct (ft_on_transfer env sd amt mm s) as [v s'|e s']; simpl; [|by subst].
    destruct Hout as (d & -> & Hd & ->).
    destruct Hs as (Hpool & Hledger & Hpos). split_and!; [|done..].
    unfold poolReconciles in *. simpl. lia.
  - destruct (invoke_no_promise (on_claim_complete env a amt) s) as [-> ->].
    pose proof (on_claim_complete_outcome env a amt s) as Hout.
    destruct (on_claim_complete env a amt s) as [v s'|e s']; simpl; [by subst|].
    destruct Hout as [->|(record & Hself & _)]; [done|]. by destruct Hext.
  - destruct (invoke_no_promise (on_withdraw_complete env r amt) s) as [-> ->].
    pose proof (on_withdraw_complete_outcome env r amt s) as Hout.
    destruct (on_withdraw_complete env r amt s) as [v s'|e s']; simpl; [by subst|].
    destruct Hout as [->|(Hself & _)]; [done|]. by destruct Hext.
Qed.

(** Resuming a waiting continuation keeps the invariant once the
    continuation is taken out of the waiting list. *)
Lemma resume_holds (env : Env) (cb : Callback) (before later : list Callback)
    (s : State) :
  holds s (before ++ cb :: later) →
  holds (finalState (invoke env (resume cb) s)) (before ++ later).
Proof.
  intros (Hpool & Hledger & Hpos). simpl in *.
  destruct (amountsNonneg_remove _ _ _ Hpos) as [Hpos' Hcb].
  destruct cb as [account n|recipient n]; simpl.
  - destruct (invoke_no_promise (on_claim_complete env account n) s) as [_ ->].
    pose proof (on_claim_complete_outcome env account n s) as Hout.
    destruct (on_claim_complete env account n s) as [v s'|e s']; simpl.
    { subst. split_and!; [done| |done]. by eapply ledgerSound_remove. }
    destruct Hout as [->|(record & _ & _ & Hrec & _ & ->)].
    { split_and!; [done| |done]. by eapply ledgerSound_remove. }
    split_and!; [|simpl|done].
    + unfold poolReconciles in *. simpl. lia.
    + apply ledgerSound_revert; [|done|done].
      specialize (Hcb account). simpl in Hcb. by rewrite decide_True in Hcb.
  - destruct (invoke_no_promise (on_withdraw_complete env recipient n) s) as [_ ->].
    pose proof (on_withdraw_complete_outcome env recipient n s) as Hout.
    destruct (on_withdraw_complete env recipient n s) as [v s'|e s']; simpl.
    { subst. split_and!; [done| |done]. by eapply ledgerSound_remove. }
    destruct Hout as [->|(_ & _ & _ & ->)].
    { split_and!; [done| |done]. by eapply ledgerSound_remove. }
    split_and!; [|simpl; by eapply ledgerSound_remove|done].
    unfold poolReconciles in *. simpl. lia.
Qed.

Lemma holds_remove (s : State) (before later : list Callback) (cb : Callback) :
  holds s (before ++ cb :: later) → holds s (before ++ later).
Proof.
  intros (Hpool & Hledger & Hpos).
  destruct (amountsNonneg_remove _ _ _ Hpos) as [Hpos' Hcb].
  split_and!; [done| |done]. by eapply ledgerSound_remove.
Qed.

Lemma step_invariant (sys sys' : System) :
  invariant sys → step sys sys' → invariant sys'.
Proof.
  unfold invariant. intros Hinv Hstep.
  destruct Hstep as [env c sys after Hext Hret|env cb before later sys after Hl Hself Hret];
    simpl.
  - pose proof (invoke_holds env c _ _ Hext Hinv) as Hnext.
    destruct (invoke env c (contract sys)) as [v s'|e s']; simpl in *.
    + by subst.
    + by destruct Hret as [->| ->].
  - rewrite Hl in Hinv.
    pose proof (resume_holds env cb before later _ Hinv) as Hnext.
    destruct (invoke env (resume cb) (contract sys)) as [v s'|e s']; simpl in *.
    + by subst.
    + destruct Hret as [->| ->]; [done|]. by eapply holds_remove.
Qed.

Lemma genesis_invariant : invariant genesis.
Proof.
  split_and!; [done| |by apply Forall_nil].
  split; [by intros a r|]. by intros a.
Qed.

Lemma reachable_invariant (sys : System) : reachable sys → invariant sys.
Proof.
  intros Hreach.
  apply (rtc_ind_r (R := step) invariant genesis); [apply genesis_invariant| |done].
  intros before after _ Hstep Hbefore. by eapply step_invariant.
Qed.

(** A call from outside whose writes all stay is a step. *)
Lemma step_perform (env : Env) (c : Call) (sys : System) :
  external env c → step sys (perform env c sys).
Proof.
  intros Hext. apply step_call; [done|].
  unfold retained. destruct (invoke env c (contract sys)); [done|by left].
Qed.

Lemma sample_system_reachable : reachable sample_system.
Proof.
  unfold reachable, sample_system.
  eapply rtc_r; [eapply rtc_r; [eapply rtc_r; [eapply rtc_once|]|]|];
    by apply step_perform.
Qed.

Example sample_system_contract :
  contract sample_system = sample_after_claim ∧
  pending sample_system = [on_claim_complete_args "alice.near" (Numeral 5750)].
Proof. split; reflexivity. Qed.

(** C2: in every state reachable from the fresh contract by calls from
    outside and by resolutions of waiting continuations, whether the
    writes of a failed call stay or not, every investor record satisfies
    [0 ≤ claimed ≤ totalAllocation]. *)
Theorem claimed_within_allocation (sys : System) (account : string)
    (r : InvestorRecord) :
  reachable sys →
  investors (contract sys) !! account = Some r →
  0 ≤ claimed r ≤ totalAllocation r.
Proof.
  intros Hreach Hr.
  destruct (reachable_invariant sys Hreach) as (_ & [Halloc Hfl] & Hpos).
  split; [|by eapply Halloc].
  specialize (Hfl account). unfold claimedOf in Hfl. rewrite Hr in Hfl.
  pose proof (amountsNonneg_inflight _ account Hpos). simpl in Hfl. lia.
Qed.

Lemma claimed_within_allocation_witness :
  let r := {| groupId := "seed"; totalAllocation := 10000; claimed := 5750 |} in
  0 ≤ claimed r ≤ totalAllocation r.
Proof.
  intros r.
  apply (claimed_within_allocation sample_system "alice.near" r);
    [apply sample_system_reachable | reflexivity].
Defined.

(** C3: in every state reachable from the fresh contract by calls from
    outside and by resolutions of waiting continuations, whether the
    writes of a failed call stay or not,
    [poolBalance = totalDeposited - totalClaimed - totalWithdrawn]. *)
Theorem pool_balance_reconciles (sys : System) :
  reachable sys →
  poolBalance (contract sys)
  = totalDeposited (contract sys) - totalClaimed (contract sys)
    - totalWithdrawn (contract sys).
Proof. intros Hreach. by destruct (reachable_invariant sys Hreach) as (Hpool & _). Qed.

Lemma pool_balance_reconciles_witness :
  poolBalance (contract sample_system)
  = totalDeposited (contract sample_system) - totalClaimed (contract sample_system)
    - totalWithdrawn (contract sample_system).
Proof. apply (pool_balance_reconciles sample_system), sample_system_reachable. Defined.

Example sample_system_counters :
  poolBalance (contract sample_system) = 14250 ∧
  totalDeposited (contract sample_system) = 20000 ∧
  totalClaimed (contract sample_system) = 5750 ∧
  totalWithdrawn (contract sample_system) = 0.
Proof. split_and!; reflexivity. Qed.

(** ** Writes made before a throw, and the host *)

(** The contract throws after writing in two kinds of places: in the
    loops of [setGroupsInternal] and [upsert_investors], where entries
    already accepted have been stored when a later entry is refused, and in
    the two continuations, which write the compensation and then throw
    [TokenTransferFailed].  What remains of those writes is the host's
    decision, and [retained] admits both. *)
Lemma retained_settled {A} (before after : State) (o : Outcome A) :
  retained before o after ↔ ∃ discard, after = settled discard before o.
Proof.
  destruct o as [v s|e s]; simpl.
  - split; [intros ->; by exists true|by intros [_ ->]].
  - split.
    + intros [->| ->]; [by exists false|by exists true].
    + intros [[|] ->]; [by right|by left].
Qed.

(** A successful claim leaves no record above its allocation. *)
Lemma claim_keeps_allocation_bound (env : Env) (account_arg : option string)
    (s s' : State) (p : NearPromise) :
  claim env account_arg s = Returned p s' →
  (∀ a r, investors s !! a = Some r → claimed r ≤ totalAllocation r) →
  ∀ a r, investors s' !! a = Some r → claimed r ≤ totalAllocation r.
Proof.
  intros Hclaim Hbound a r.
  pose proof (claim_outcome env account_arg s) as Hout. rewrite Hclaim in Hout.
  destruct Hout as (record & c & Hrec & _ & Hle & -> & _). simpl.
  set (claimant := default (predecessorAccountId env) account_arg).
  destruct (decide (a = claimant)) as [->|Hne].
  - rewrite lookup_insert_eq. intros [= <-]. simpl. lia.
  - rewrite lookup_insert_ne by done. apply Hbound.
Qed.

(** On the sample deployment, a host that keeps the writes of a failed
    call keeps the compensation of a failed claim and also the first half
    of a refused batch; a host that discards them discards both.  No host
    of either kind gives the restored claim and the all-or-nothing batch
    together. *)
Lemma compensation_and_batch_under_one_host (discard : bool) :
  let resolved :=
    settled discard sample_after_claim
      (invoke (unpaid_env "vesting.near" 200 false)
              (call_on_claim_complete "alice.near" (Numeral 5750))
              sample_after_claim) in
  let refused :=
    settled discard sample_state
      (upsert_investors (unpaid_env "owner.near" 150 true)
         [ {| account_id := Some "bob.near"; group_id := Some "seed";
              amount := Numeral 500 |};
           {| account_id := Some "carol.near"; group_id := Some "angels";
              amount := Numeral 700 |} ]
         sample_state) in
  if discard
  then resolved = sample_after_claim ∧ refused = sample_state
  else resolved = sample_state ∧
       investors refused !! "bob.near"
         = Some {| groupId := "seed"; totalAllocation := 500; claimed := 0 |}.
Proof. destruct discard; split; reflexivity. Qed.

(** ** Validation is complete *)

Lemma upsertStep_accepts (seen : gset string) (entry : InvestorInput) (s : State)
    (account group : string) (amt : Z) :
  account_id entry = Some account → account ≠ "" →
  group_id entry = Some group → group ≠ "" →
  amount entry = Numeral amt →
  is_Some (groups s !! group) → 0 < amt →
  claimedOf (investors s) account ≤ amt →
  account ∉ seen →
  upsertStep seen entry s =
    Returned (seen ∪ {[account]})
      (set_investors
         (<[account := {| groupId := group; totalAllocation := amt;
                          claimed := claimedOf (investors s) account |}]>
            (investors s)) s).
Proof.
  intros Ha Hane Hg Hgne Hamt [g Hgroup] Hpos Hle Hseen.
  unfold upsertStep, claimedOf in *. run. rewrite Ha, Hg, Hamt. simpl.
  rewrite !bool_decide_eq_false_2 by done. simpl. rewrite Hgroup.
  destruct (amt <=? 0) eqn:H0; [lia|].
  destruct (investors s !! account) as [current|]; simpl in *; [|done].
  by destruct (amt <? claimed current) eqn:Hlow; [lia|].
Qed.

Lemma upsertStep_returned_valid (seen seen' : gset string) (entry : InvestorInput)
    (s s' : State) :
  upsertStep seen entry s = Returned seen' s' →
  entryValid s entry ∧ ∃ account, account_id entry = Some account ∧ account ∉ seen.
Proof.
  unfold upsertStep, entryValid, claimedOf. run.
  destruct (account_id entry) as [account|]; [|done].
  destruct (group_id entry) as [group|]; simpl; [|by rewrite orb_true_r].
  case_bool_decide as Hane; [done|].
  case_bool_decide as Hgne; [done|].
  destruct (amount entry) as [| | |amt]; simpl; try done;
    (case_bool_decide as Hseen; [done|]);
    (destruct (groups s !! group) as [g|] eqn:Hg; [|done]); [done|].
  destruct (amt <=? 0) eqn:Hpos; [done|].
  destruct (investors s !! account) as [current|] eqn:Hcur.
  - destruct (amt <? claimed current) eqn:Hlow; [done|]. intros _.
    split; [|by eauto].
    exists account, group, amt. rewrite Hcur. simpl. split_and!; try done; lia.
  - intros _. split; [|by eauto].
    exists account, group, amt. rewrite Hcur. simpl. split_and!; try done; lia.
Qed.

(** Writing the record of another account does not change whether an
    entry is valid. *)
Lemma entryValid_other (s : State) (entry : InvestorInput) (account : string)
    (r : InvestorRecord) :
  account_id entry ≠ Some account →
  entryValid (set_investors (<[account := r]> (investors s)) s) entry
  ↔ entryValid s entry.
Proof.
  intros Hne. unfold entryValid, claimedOf. simpl.
  split; intros (a & g & amt & Ha & ? & ? & ? & ? & ? & ? & Hle);
    exists a, g, amt; split_and!; try done.
  - rewrite lookup_insert_ne in Hle; [done|]. intros ->. by apply Hne.
  - rewrite lookup_insert_ne; [done|]. intros ->. by apply Hne.
Qed.

Lemma upsert_loop_returns (batch : list InvestorInput) (seen : gset string)
    (s : State) :
  (∃ seen' s', forOf upsertStep seen batch s = Returned seen' s')
  ↔ Forall (entryValid s) batch ∧ NoDup (omap account_id batch) ∧
    ∀ a, a ∈ omap account_id batch → a ∉ seen.
Proof.
  revert seen s. induction batch as [|entry batch IH]; intros seen s; simpl.
  { split; [|by eauto]. intros _. split_and!; [done|apply NoDup_nil_2|].
    intros a Ha. by apply elem_of_nil in Ha. }
  unfold mbind, M_bind. split.
  - intros (seen' & s' & Hrun).
    destruct (upsertStep seen entry s) as [seen1 s1|] eqn:Hstep; [|done].
    destruct (upsertStep_returned_valid _ _ _ _ _ Hstep)
      as [Hvalid (account & Ha & Hseen)].
    pose proof (upsertStep_outcome seen entry s) as Hout. rewrite Hstep in Hout.
    destruct Hout as (a' & g & amt & Ha' & _ & _ & _ & -> & _ & _ & _ & ->).
    assert (a' = account) as -> by congruence.
    destruct (proj1 (IH _ _) (ex_intro _ _ (ex_intro _ _ Hrun)))
      as (Hall & Hnodup & Hfresh).
    rewrite Ha. simpl.
    assert (account ∉ omap account_id batch) as Hnotin.
    { intros Hin. apply (Hfresh _ Hin), elem_of_union_r. by apply elem_of_singleton. }
    split_and!.
    + apply Forall_cons. split; [done|].
      rewrite Forall_forall in Hall |- *. intros e He.
      eapply entryValid_other; [|by apply Hall].
      intros Heq. apply Hnotin. apply list_elem_of_omap. by exists e.
    + by apply NoDup_cons.
    + intros a [->|Hin]%elem_of_cons; [done|].
      intros Hs. by apply (Hfresh _ Hin), elem_of_union_l.
  - intros (Hall & Hnodup & Hfresh).
    apply Forall_cons in Hall as [Hvalid Hall].
    destruct Hvalid as (account & g & amt & Ha & Hane & Hg & Hgne & Hamt & Hgrp & Hpos & Hle).
    rewrite Ha in Hnodup, Hfresh. simpl in Hnodup, Hfresh.
    apply NoDup_cons in Hnodup as [Hnotin Hnodup].
    rewrite (upsertStep_accepts seen entry s account g amt) by
      (try done; apply Hfresh; by left).
    apply IH. split_and!; [|done|].
    + rewrite Forall_forall in Hall |- *. intros e He.
      eapply entryValid_other; [|by apply Hall].
      intros Heq. apply Hnotin. apply list_elem_of_omap. by exists e.
    + intros a Hin [Hs|Hs%elem_of_singleton]%elem_of_union.
      * apply (Hfresh a); [by right|done].
      * by subst.
Qed.

(** A call of [upsert_investors] by the owner, with no deposit attached,
    returns exactly on the valid batches; on any other batch it throws. *)
Lemma upsert_investors_returns_iff_valid (env : Env) (batch : list InvestorInput)
    (s : State) :
  predecessorAccountId env = owner s →
  attachedDeposit env ≤ 0 →
  (∃ s', upsert_investors env batch s = Returned tt s') ↔ batchValid s batch.
Proof.
  intros Howner Hfree. unfold upsert_investors. rewrite call_public.
  replace (attachedDeposit env >? 0) with false by lia.
  unfold assertOwner, batchValid. run.
  rewrite bool_decide_eq_false_2 by (intros H; by apply H).
  pose proof (upsert_loop_returns batch ∅ s) as Hloop.
  case_bool_decide as Hempty.
  - split; [by intros [? ?]|by intros [? _]].
  - split.
    + intros [s' Hrun].
      destruct (forOf upsertStep ∅ batch s) as [seen1 s1|] eqn:Hfor; [|done].
      destruct (proj1 Hloop) as (Hall & Hnodup & _); [by eauto|]. done.
    + intros (_ & Hall & Hnodup).
      destruct (proj2 Hloop) as (seen' & s' & Hrun).
      { split_and!; [done|done|]. intros a _. apply not_elem_of_empty. }
      rewrite Hrun. by eauto.
Qed.

(** [upsert_investors] returns only for the owner, with no deposit
    attached, and on a valid batch. *)
Lemma upsert_investors_returned_valid (env : Env) (batch : list InvestorInput)
    (s s' : State) :
  upsert_investors env batch s = Returned tt s' →
  predecessorAccountId env = owner s ∧ attachedDeposit env ≤ 0 ∧
  batchValid s batch.
Proof.
  intros Hrun.
  assert (attachedDeposit env ≤ 0) as Hfree.
  { revert Hrun. unfold upsert_investors. rewrite call_public.
    destruct (attachedDeposit env >? 0) eqn:Hpaid; [done|]. lia. }
  assert (predecessorAccountId env = owner s) as Howner.
  { revert Hrun. unfold upsert_investors. rewrite call_public.
    replace (attachedDeposit env >? 0) with false by lia.
    unfold assertOwner. run. by case_bool_decide. }
  split_and!; try done.
  apply (upsert_investors_returns_iff_valid env batch s Howner Hfree).
  by eexists.
Qed.

Lemma BigInt_parsed (x : NumArg) (s : State) :
  BigInt x s = match parsed x with
               | Some z => Returned z s
               | None => Threw (match x with
                                | Undefined => BigIntTypeError
                                | _ => BigIntSyntaxError
                                end) s
               end.
Proof. by destruct x. Qed.

Lemma setGroupsStep_accepts (seen : gset string) (group : GroupConfigInput)
    (s : State) (gid : string) (cliff vesting bps : Z) :
  id group = Some gid → gid ≠ "" →
  parsed (cliff_duration_ns group) = Some cliff →
  parsed (vesting_duration_ns group) = Some vesting →
  parsed (orElse (initial_unlock_basis_points group) (Numeral 0)) = Some bps →
  0 ≤ cliff → 0 ≤ vesting → 0 ≤ bps ≤ BASIS_POINTS_DENOMINATOR →
  gid ∉ seen →
  setGroupsStep seen group s =
    Returned (seen ∪ {[gid]})
      (set_groups
         (<[gid := {| cliffDurationNs := cliff; vestingDurationNs := vesting;
                      initialUnlockBasisPoints := bps |}]> (groups s)) s).
Proof.
  intros Hid Hne Hc Hv Hb Hcliff Hvesting Hbps Hseen.
  unfold setGroupsStep.
  cbv beta iota zeta delta [mbind M_bind mret M_ret throw this update throwIf].
  rewrite Hid. simpl. rewrite !bool_decide_eq_false_2 by done.
  rewrite BigInt_parsed, Hc. cbv beta iota.
  rewrite BigInt_parsed, Hv. cbv beta iota.
  rewrite BigInt_parsed, Hb. cbv beta iota.
  replace ((cliff <? 0) || (vesting <? 0)) with false
    by (symmetry; apply orb_false_iff; lia).
  replace (bps <? 0) with false by lia.
  by replace (bps >? BASIS_POINTS_DENOMINATOR) with false by lia.
Qed.

Lemma setGroupsStep_returned_valid (seen seen' : gset string)
    (group : GroupConfigInput) (s s' : State) :
  setGroupsStep seen group s = Returned seen' s' →
  groupValid group ∧ ∃ gid, id group = Some gid ∧ gid ∉ seen.
Proof.
  unfold setGroupsStep, groupValid.
  cbv beta iota zeta delta [mbind M_bind mret M_ret throw this update throwIf].
  destruct (id group) as [gid|]; simpl; [|done].
  case_bool_decide as Hne; [done|].
  case_bool_decide as Hseen; [done|].
  rewrite BigInt_parsed.
  destruct (parsed (cliff_duration_ns group)) as [cliff|]; [|done].
  rewrite BigInt_parsed.
  destruct (parsed (vesting_duration_ns group)) as [vesting|]; [|done].
  rewrite BigInt_parsed.
  destruct (parsed (orElse _ _)) as [bps|]; [|done].
  destruct ((cliff <? 0) || (vesting <? 0)) eqn:Hd; [done|].
  destruct (bps <? 0) eqn:Hlow; [done|].
  destruct (bps >? BASIS_POINTS_DENOMINATOR) eqn:Hhigh; [done|].
  intros _. apply orb_false_iff in Hd as [Hc Hv].
  split; [|by eauto].
  exists gid, cliff, vesting, bps. split_and!; try done; lia.
Qed.

Lemma setGroups_loop_returns (l : list GroupConfigInput) (seen : gset string)
    (s : State) :
  (∃ seen' s', forOf setGroupsStep seen l s = Returned seen' s')
  ↔ Forall groupValid l ∧ NoDup (omap id l) ∧ ∀ a, a ∈ omap id l → a ∉ seen.
Proof.
  revert seen s. induction l as [|g l IH]; intros seen s; simpl.
  { split; [|by eauto]. intros _. split_and!; [done|apply NoDup_nil_2|].
    intros a Ha. by apply elem_of_nil in Ha. }
  unfold mbind, M_bind. split.
  - intros (seen' & s' & Hrun).
    destruct (setGroupsStep seen g s) as [seen1 s1|] eqn:Hstep; [|done].
    destruct (setGroupsStep_returned_valid _ _ _ _ _ Hstep)
      as [Hvalid (gid & Hid & Hseen)].
    pose proof (setGroupsStep_outcome seen g s) as Hout. rewrite Hstep in Hout.
    destruct Hout as (gid' & cfg & Hid' & _ & -> & _).
    assert (gid' = gid) as -> by congruence.
    destruct (proj1 (IH _ _) (ex_intro _ _ (ex_intro _ _ Hrun)))
      as (Hall & Hnodup & Hfresh).
    rewrite Hid. simpl. split_and!.
    + by apply Forall_cons.
    + apply NoDup_cons. split; [|done].
      intros Hin. apply (Hfresh _ Hin), elem_of_union_r. by apply elem_of_singleton.
    + intros a [->|Hin]%elem_of_cons; [done|].
      intros Hs. by apply (Hfresh _ Hin), elem_of_union_l.
  - intros (Hall & Hnodup & Hfresh).
    apply Forall_cons in Hall as [Hvalid Hall].
    destruct Hvalid as (gid & cliff & vesting & bps & Hid & Hne & Hc & Hv & Hb & ? & ? & ?).
    rewrite Hid in Hnodup, Hfresh. simpl in Hnodup, Hfresh.
    apply NoDup_cons in Hnodup as [Hnotin Hnodup].
    rewrite (setGroupsStep_accepts seen g s gid cliff vesting bps) by
      (try done; apply Hfresh; by left).
    apply IH. split_and!; [done|done|].
    intros a Hin [Hs|Hs%elem_of_singleton]%elem_of_union.
    + apply (Hfresh a); [by right|done].
    + by subst.
Qed.

(** A call of [configure_groups] by the owner, with no deposit attached,
    returns exactly on the valid lists; on any other list it throws. *)
Lemma configure_groups_returns_iff_valid (env : Env) (l : list GroupConfigInput)
    (s : State) :
  predecessorAccountId env = owner s →
  attachedDeposit env ≤ 0 →
  (∃ s', configure_groups env l s = Returned tt s') ↔ groupsValid l.
Proof.
  intros Howner Hfree. unfold configure_groups. rewrite call_public.
  replace (attachedDeposit env >? 0) with false by lia.
  unfold setGroupsInternal, assertOwner, groupsValid.
  run. rewrite bool_decide_eq_false_2 by (intros H; by apply H).
  pose proof (setGroups_loop_returns l ∅ (set_groups ∅ s)) as Hloop.
  case_bool_decide as Hempty.
  - split; [by intros [? ?]|by intros [? _]].
  - split.
    + intros [s' Hrun].
      destruct (forOf setGroupsStep ∅ l (set_groups ∅ s)) as [seen1 s1|] eqn:Hfor;
        [|done].
      destruct (proj1 Hloop) as (Hall & Hnodup & _); [by eauto|]. done.
    + intros (_ & Hall & Hnodup).
      destruct (proj2 Hloop) as (seen' & s' & Hrun).
      { split_and!; [done|done|]. intros a _. apply not_elem_of_empty. }
      rewrite Hrun. by eauto.
Qed.

(** [configure_groups] returns only for the owner, with no deposit
    attached, and on a valid list. *)
Lemma configure_groups_returned_valid (env : Env) (l : list GroupConfigInput)
    (s s' : State) :
  configure_groups env l s = Returned tt s' →
  predecessorAccountId env = owner s ∧ attachedDeposit env ≤ 0 ∧ groupsValid l.
Proof.
  intros Hrun.
  assert (attachedDeposit env ≤ 0) as Hfree.
  { revert Hrun. unfold configure_groups. rewrite call_public.
    destruct (attachedDeposit env >? 0) eqn:Hpaid; [done|]. lia. }
  assert (predecessorAccountId env = owner s) as Howner.
  { revert Hrun. unfold configure_groups. rewrite call_public.
    replace (attachedDeposit env >? 0) with false by lia.
    unfold assertOwner. run. by case_bool_decide. }
  split_and!; try done.
  apply (configure_groups_returns_iff_valid env l s Howner Hfree).
  by eexists.
Qed.

(** ** Refused lists and batches, as the host leaves them *)

(** C7: a replacement list that fails validation (it is empty, or an
    entry has no id, an id comes twice, a cliff or vesting duration is
    negative or is no number, or the initial unlock basis points are
    outside [0, 10000]) makes [configure_groups] fail, whoever calls it and
    whatever is attached; and the state the host keeps of the failed call
    is the state before it: the registry is unchanged and no partial
    replacement is kept. *)
Theorem configure_groups_all_or_nothing (env : Env) (l : list GroupConfigInput)
    (s : State) :
  ¬ groupsValid l →
  (∃ e s', configure_groups env l s = Threw e s') ∧
  committed s (configure_groups env l s) = s ∧
  groups (committed s (configure_groups env l s)) = groups s.
Proof.
  intros Hinvalid.
  destruct (configure_groups env l s) as [[] s'|e s'] eqn:Hrun.
  - destruct Hinvalid.
    by destruct (configure_groups_returned_valid _ _ _ _ Hrun) as (_ & _ & ?).
  - split_and!; [by eauto|done|done].
Qed.

Lemma configure_groups_all_or_nothing_witness :
  let env := unpaid_env "owner.near" 150 true in
  let team := {| id := Some "team"; cliff_duration_ns := Numeral 0;
                 vesting_duration_ns := Numeral 10;
                 initial_unlock_basis_points := Undefined |} in
  (∃ e s', configure_groups env [team; team] sample_state = Threw e s') ∧
  committed sample_state (configure_groups env [team; team] sample_state)
    = sample_state ∧
  groups (committed sample_state
            (configure_groups env [team; team] sample_state))
    = groups sample_state.
Proof.
  intros env team.
  apply (configure_groups_all_or_nothing env [team; team] sample_state).
  intros (_ & _ & Hnodup). simpl in Hnodup.
  apply NoDup_cons in Hnodup as [Hnotin _]. apply Hnotin. by left.
Defined.

(** C8: a batch that fails validation (it is empty, or an entry lacks a
    field, names a group the registry does not know, has an amount that
    is not positive or is no number, names an account that comes twice
    in the batch, or has an amount below what its account has claimed)
    makes [upsert_investors] fail, whoever calls it and whatever is
    attached; and the state the host keeps of the failed call is the
    state before it: the ledger is the ledger before the call and no
    entry's record is kept. *)
Theorem upsert_investors_all_or_nothing (env : Env) (batch : list InvestorInput)
    (s : State) :
  ¬ batchValid s batch →
  (∃ e s', upsert_investors env batch s = Threw e s') ∧
  committed s (upsert_investors env batch s) = s ∧
  investors (committed s (upsert_investors env batch s)) = investors s.
Proof.
  intros Hinvalid.
  destruct (upsert_investors env batch s) as [[] s'|e s'] eqn:Hrun.
  - destruct Hinvalid.
    by destruct (upsert_investors_returned_valid _ _ _ _ Hrun) as (_ & _ & ?).
  - split_and!; [by eauto|done|done].
Qed.

Lemma upsert_investors_all_or_nothing_witness :
  let env := unpaid_env "owner.near" 150 true in
  let batch :=
    [ {| account_id := Some "bob.near"; group_id := Some "seed";
         amount := Numeral 500 |};
      {| account_id := Some "carol.near"; group_id := Some "angels";
         amount := Numeral 700 |} ] in
  (∃ e s', upsert_investors env batch sample_state = Threw e s') ∧
  committed sample_state (upsert_investors env batch sample_state)
    = sample_state ∧
  investors (committed sample_state (upsert_investors env batch sample_state))
    = investors sample_state.
Proof.
  intros env batch.
  apply (upsert_investors_all_or_nothing env batch sample_state).
  intros (_ & Hall & _).
  apply Forall_cons in Hall as [_ Hall].
  apply Forall_cons in Hall as [(a & g & amt & _ & _ & Hg & _ & _ & [cfg Hcfg] & _) _].
  injection Hg as <-. discriminate Hcfg.
Defined.

(** * Further properties of the contract *)

(** ** Induction over the reachable states *)

(** A property of the contract state alone that every call keeps, at
    whatever point the call is left, holds in every reachable state. *)
Lemma reachable_state_invariant (P : State → Prop) :
  P fresh →
  (∀ env c, preserves P (invoke env c)) →
  ∀ sys, reachable sys → P (contract sys).
Proof.
  intros Hfresh Hkeep sys Hreach.
  apply (rtc_ind_r (R := step) (λ sys, P (contract sys)) genesis);
    [done| |done].
  intros before after _ Hstep Hbefore.
  destruct Hstep as [env c sys' s' _ Hret|env cb l1 l2 sys' s' _ _ Hret]; simpl.
  - specialize (Hkeep env c _ Hbefore).
    destruct (invoke env c (contract sys')); simpl in *;
      [by subst|by destruct Hret as [->| ->]].
  - specialize (Hkeep env (resume cb) _ Hbefore).
    destruct (invoke env (resume cb) (contract sys')); simpl in *;
      [by subst|by destruct Hret as [->| ->]].
Qed.

(** A property of the contract state and the waiting continuations that
    calls from outside, resolutions, and the dropping of a continuation
    keep, holds in every reachable state. *)
Lemma reachable_system_invariant (I : State → list Callback → Prop) :
  I fresh [] →
  (∀ env c s l, external env c → I s l →
     I (finalState (invoke env c s)) (registered (invoke env c s) ++ l)) →
  (∀ env cb before later s,
     predecessorAccountId env = currentAccountId env →
     I s (before ++ cb :: later) →
     I (finalState (invoke env (resume cb) s)) (before ++ later)) →
  (∀ s before cb later, I s (before ++ cb :: later) → I s (before ++ later)) →
  ∀ sys, reachable sys → I (contract sys) (pending sys).
Proof.
  intros Hfresh Hcall Hresolve Hdrop sys Hreach.
  apply (rtc_ind_r (R := step) (λ sys, I (contract sys) (pending sys)) genesis);
    [done| |done].
  intros before after _ Hstep Hbefore.
  destruct Hstep as [env c sys' s' Hext Hret|env cb l1 l2 sys' s' Hl Hself Hret];
    simpl.
  - specialize (Hcall env c _ _ Hext Hbefore).
    destruct (invoke env c (contract sys')); simpl in *;
      [by subst|by destruct Hret as [->| ->]].
  - rewrite Hl in Hbefore. specialize (Hresolve env cb l1 l2 _ Hself Hbefore).
    destruct (invoke env (resume cb) (contract sys')); simpl in *;
      [by subst|]. destruct Hret as [->| ->]; [done|by eapply Hdrop].
Qed.

(** Breaks a method into its statements, closing the calls of other
    methods with [tac]; the writes are left to the caller. *)
Ltac preserves_with tac :=
  repeat match goal with
    | |- preserves _ (_ ≫= _) => apply preserves_bind; [|intros ?]
    | |- preserves _ (forOf _ _ _) => apply preserves_forOf; intros ? ?
    | |- preserves _ (update _) => apply preserves_update
    | |- preserves _ (match ?x with _ => _ end) => destruct x
    | |- preserves _ _ => solve [auto with preserves | tac]
    end.

Lemma finalState_then_mret {A B} (m : M A) (f : A → B) (s : State) :
  finalState ((m ≫= λ a, mret (f a)) s) = finalState (m s).
Proof. unfold mbind, M_bind. by destruct (m s). Qed.

(** To keep [P], it is enough that the method called keeps it. *)
Lemma invoke_preserves (P : State → Prop) :
  (∀ env o t tge gs ic, preserves P (init env o t tge gs ic)) →
  (∀ env gs, preserves P (configure_groups env gs)) →
  (∀ env a, preserves P (configure_initial_claim env a)) →
  (∀ env l, preserves P (upsert_investors env l)) →
  (∀ env a, preserves P (claim env a)) →
  (∀ env n r m, preserves P (withdraw_unallocated env n r m)) →
  (∀ env sd n m, preserves P (ft_on_transfer env sd n m)) →
  (∀ env a n, preserves P (on_claim_complete env a n)) →
  (∀ env r n, preserves P (on_withdraw_complete env r n)) →
  ∀ env c, preserves P (invoke env c).
Proof.
  intros H1 H2 H3 H4 H5 H6 H7 H8 H9 env c s Hs.
  destruct c; simpl; rewrite finalState_then_mret;
    [apply H1|apply H2|apply H3|apply H4|apply H5|apply H6|apply H7|apply H8|apply H9];
    done.
Qed.

(** Every way [setInitialClaimConfig] can end: it returns with both
    values validated and stored, or throws, having stored nothing or the
    validated basis points only. *)
Lemma setInitialClaimConfig_outcome (args : InitialClaimConfigInput) (s : State) :
  match setInitialClaimConfig args s with
  | Returned _ s' =>
    ∃ basis timestamp,
      parsed (emptyAsZero (orElse (initial_claim_basis_points args)
                             (Numeral (initialClaimBasisPoints s)))) = Some basis ∧
      parsed (emptyAsZero (orElse (initial_claim_available_timestamp_ns args)
                             (Numeral (initialClaimAvailableTimestampNs s))))
        = Some timestamp ∧
      0 ≤ basis ≤ BASIS_POINTS_DENOMINATOR ∧ 0 ≤ timestamp ∧
      (0 < basis → 0 < timestamp) ∧
      s' = set_initialClaimAvailableTimestampNs timestamp
             (set_initialClaimBasisPoints basis s)
  | Threw _ s' =>
    s' = s ∨
    ∃ basis, 0 ≤ basis ≤ BASIS_POINTS_DENOMINATOR ∧
             s' = set_initialClaimBasisPoints basis s
  end.
Proof.
  unfold setInitialClaimConfig.
  cbv beta iota zeta delta [mbind M_bind mret M_ret throw this update throwIf].
  rewrite BigInt_parsed.
  destruct (parsed (emptyAsZero (orElse (initial_claim_basis_points args) _)))
    as [basis|]; [|by left].
  destruct ((basis <? 0) || (basis >? BASIS_POINTS_DENOMINATOR)) eqn:Hb; [by left|].
  apply orb_false_iff in Hb as [Hb1 Hb2].
  assert (0 ≤ basis ≤ BASIS_POINTS_DENOMINATOR) as Hbasis by lia.
  rewrite BigInt_parsed. simpl.
  destruct (parsed (emptyAsZero (orElse (initial_claim_available_timestamp_ns args) _)))
    as [timestamp|]; [|right; by exists basis].
  destruct (timestamp <? 0) eqn:Ht; [right; by exists basis|].
  destruct ((basis >? 0) && (timestamp =? 0)) eqn:Hreq; [right; by exists basis|].
  exists basis, timestamp. split_and!; try done; lia.
Qed.

Lemma setInitialClaimConfig_configSound (args : InitialClaimConfigInput) :
  preserves configSound (setInitialClaimConfig args).
Proof.
  intros s (Hb & Ht & Hg & Hr).
  pose proof (setInitialClaimConfig_outcome args s) as Hout.
  destruct (setInitialClaimConfig args s) as [v s'|e s']; simpl.
  - destruct Hout as (basis & timestamp & _ & _ & ? & ? & _ & ->).
    unfold configSound. simpl. split_and!; try done; lia.
  - destruct Hout as [->|(basis & ? & ->)]; unfold configSound; simpl;
      split_and!; try done; lia.
Qed.

Lemma configSound_groups (s : State) (m : gmap string GroupConfigStored) :
  configSound s → (∀ g c, m !! g = Some c → groupConfigValid c) →
  configSound (set_groups m s).
Proof. intros ([? ?] & ? & ? & ?) Hm. unfold configSound. simpl. by split_and!. Qed.

Lemma configSound_investors (s : State) (m : gmap string InvestorRecord) :
  configSound s → (∀ a r, m !! a = Some r → 0 < totalAllocation r) →
  configSound (set_investors m s).
Proof. intros ([? ?] & ? & ? & ?) Hm. unfold configSound. simpl. by split_and!. Qed.

(** [configSound] looks at the overlay, the registry and the ledger only. *)
Lemma configSound_frame (s s' : State) :
  initialClaimBasisPoints s' = initialClaimBasisPoints s →
  initialClaimAvailableTimestampNs s' = initialClaimAvailableTimestampNs s →
  groups s' = groups s → investors s' = investors s →
  configSound s → configSound s'.
Proof. unfold configSound. by intros -> -> -> ->. Qed.

Lemma positive_insert (m : gmap string InvestorRecord) (a : string)
    (r : InvestorRecord) :
  0 < totalAllocation r →
  (∀ a' r', m !! a' = Some r' → 0 < totalAllocation r') →
  ∀ a' r', <[a := r]> m !! a' = Some r' → 0 < totalAllocation r'.
Proof.
  intros Hr Hm a' r'. destruct (decide (a' = a)) as [->|Hne].
  - rewrite lookup_insert_eq. by intros [= <-].
  - rewrite lookup_insert_ne by done. apply Hm.
Qed.

Lemma setGroupsStep_configSound (seen : gset string) (group : GroupConfigInput) :
  preserves configSound (setGroupsStep seen group).
Proof.
  intros s Hs.
  pose proof (setGroupsStep_outcome seen group s) as Hout.
  destruct (setGroupsStep seen group s) as [v s'|e s']; simpl; [|by subst].
  destruct Hout as (gid & cfg & _ & _ & _ & ? & ? & ? & ->).
  apply configSound_groups; [done|]. intros g c.
  destruct (decide (g = gid)) as [->|Hne].
  - rewrite lookup_insert_eq. intros [= <-]. by unfold groupConfigValid.
  - rewrite lookup_insert_ne by done. by apply Hs.
Qed.

Lemma setGroupsInternal_configSound (l : list GroupConfigInput) :
  preserves configSound (setGroupsInternal l).
Proof.
  unfold setGroupsInternal.
  preserves_with ltac:(apply setGroupsStep_configSound).
  intros s Hs. apply configSound_groups; [done|]. intros g c.
  by rewrite lookup_empty.
Qed.

Lemma upsertStep_configSound (seen : gset string) (entry : InvestorInput) :
  preserves configSound (upsertStep seen entry).
Proof.
  intros s Hs.
  pose proof (upsertStep_outcome seen entry s) as Hout.
  destruct (upsertStep seen entry s) as [v s'|e s']; simpl; [|by subst].
  destruct Hout as (a & g & amt & _ & _ & _ & _ & _ & _ & Hpos & _ & ->).
  apply configSound_investors; [done|]. apply positive_insert; [done|apply Hs].
Qed.

Lemma invoke_configSound (env : Env) (c : Call) : preserves configSound (invoke env c).
Proof.
  apply invoke_preserves; clear env c.
  - intros env o t tge gs ic. unfold init.
    preserves_with ltac:(first [ apply setInitialClaimConfig_configSound
                               | apply setGroupsInternal_configSound ]);
      intros ?; by apply configSound_frame.
  - intros env gs. unfold configure_groups, call, assertOwner.
    preserves_with ltac:(apply setGroupsInternal_configSound).
  - intros env a. unfold configure_initial_claim, call, assertOwner.
    preserves_with ltac:(apply setInitialClaimConfig_configSound).
  - intros env l. unfold upsert_investors, call, assertOwner.
    preserves_with ltac:(apply upsertStep_configSound).
  - intros env a s Hs.
    pose proof (claim_outcome env a s) as Hout.
    destruct (claim env a s) as [p s'|e s']; simpl; [|by subst].
    destruct Hout as (record & c & Hrec & _ & _ & -> & _).
    eapply (configSound_frame (set_investors _ s)); try done.
    apply configSound_investors; [done|].
    apply positive_insert; [|apply Hs]. simpl. by eapply Hs.
  - intros env n r m s Hs.
    pose proof (withdraw_unallocated_outcome env n r m s) as Hout.
    destruct (withdraw_unallocated env n r m s) as [p s'|e s']; simpl; [|by subst].
    destruct Hout as (w & _ & _ & -> & _). by eapply configSound_frame.
  - intros env sd n m s Hs.
    pose proof (ft_on_transfer_outcome env sd n m s) as Hout.
    destruct (ft_on_transfer env sd n m s) as [p s'|e s']; simpl; [|by subst].
    destruct Hout as (d & _ & _ & ->). by eapply configSound_frame.
  - intros env a n s Hs.
    pose proof (on_claim_complete_outcome env a n s) as Hout.
    destruct (on_claim_complete env a n s) as [p s'|e s']; simpl; [by subst|].
    destruct Hout as [->|(record & _ & _ & Hrec & _ & ->)]; [done|].
    eapply (configSound_frame (set_investors _ s)); try done.
    apply configSound_investors; [done|].
    apply positive_insert; [|apply Hs]. simpl. by eapply Hs.
  - intros env r n s Hs.
    pose proof (on_withdraw_complete_outcome env r n s) as Hout.
    destruct (on_withdraw_complete env r n s) as [p s'|e s']; simpl; [by subst|].
    destruct Hout as [->|(_ & _ & _ & ->)]; [done|]. by eapply configSound_frame.
Qed.

(** X1: in every reachable state the stored configuration is within the
    ranges its setters check and every allocation is positive: the
    initial-claim basis points lie in [0, 10000], the initial-claim
    timestamp is not negative, every group has non-negative durations and
    initial-unlock basis points in [0, 10000], and every investor record
    has [totalAllocation > 0]. *)
Theorem reachable_configuration_in_range (sys : System) :
  reachable sys → configSound (contract sys).
Proof.
  apply (reachable_state_invariant configSound); [|apply invoke_configSound].
  unfold configSound, BASIS_POINTS_DENOMINATOR. simpl. split_and!; try done.
Qed.

Lemma reachable_configuration_in_range_witness : configSound (contract sample_system).
Proof. apply reachable_configuration_in_range, sample_system_reachable. Defined.

(** ** Sums over a map *)

Lemma sumOver_empty {V} (f : V → Z) : sumOver f ∅ = 0.
Proof. apply map_fold_empty. Qed.

Lemma sumOver_insert_fresh {V} (f : V → Z) (m : gmap string V) (k : string) (v : V) :
  m !! k = None → sumOver f (<[k := v]> m) = f v + sumOver f m.
Proof. intros Hk. unfold sumOver. rewrite map_fold_insert_L; [done| |done]. intros. lia. Qed.

Lemma sumOver_delete {V} (f : V → Z) (m : gmap string V) (k : string) (v : V) :
  m !! k = Some v → sumOver f m = f v + sumOver f (delete k m).
Proof.
  intros Hk. unfold sumOver. rewrite (map_fold_delete_L _ _ k v m); [done| |done].
  intros. lia.
Qed.

(** Writing one key changes the sum by the difference of the values. *)
Lemma sumOver_insert {V} (f : V → Z) (m : gmap string V) (k : string) (v : V) :
  sumOver f (<[k := v]> m) = sumOver f m - from_option f 0 (m !! k) + f v.
Proof.
  destruct (m !! k) as [old|] eqn:Hk; simpl.
  - rewrite <- insert_delete_eq, sumOver_insert_fresh by apply lookup_delete_eq.
    rewrite (sumOver_delete f m k old Hk). lia.
  - rewrite sumOver_insert_fresh by done. lia.
Qed.

Lemma sumOver_nonneg {V} (f : V → Z) (m : gmap string V) :
  (∀ k v, m !! k = Some v → 0 ≤ f v) → 0 ≤ sumOver f m.
Proof.
  induction m as [|k v m Hk IH] using map_ind; intros Hpos.
  - by rewrite sumOver_empty.
  - rewrite sumOver_insert_fresh by done.
    assert (0 ≤ f v) by (apply (Hpos k); apply lookup_insert_eq).
    assert (0 ≤ sumOver f m); [|lia].
    apply IH. intros k' v' Hk'. apply (Hpos k').
    rewrite lookup_insert_ne; [done|]. intros ->. congruence.
Qed.

(** ** The claimed total is the sum of the ledger *)

Lemma claimedTotalMatches_funds (s s' : State) :
  funds s' = funds s → claimedTotalMatches s → claimedTotalMatches s'.
Proof. unfold claimedTotalMatches, funds. by intros [= -> _ -> _ _]. Qed.

Lemma upsertStep_claimedTotalMatches (seen : gset string) (entry : InvestorInput) :
  preserves claimedTotalMatches (upsertStep seen entry).
Proof.
  intros s Hs.
  pose proof (upsertStep_outcome seen entry s) as Hout.
  destruct (upsertStep seen entry s) as [v s'|e s']; simpl; [|by subst].
  destruct Hout as (a & g & amt & _ & _ & _ & _ & _ & _ & _ & _ & ->).
  unfold claimedTotalMatches, sumClaimed in *. simpl.
  rewrite sumOver_insert. simpl. lia.
Qed.

Lemma invoke_claimedTotalMatches (env : Env) (c : Call) :
  preserves claimedTotalMatches (invoke env c).
Proof.
  apply invoke_preserves; clear env c.
  - intros env o t tge gs ic s Hs.
    eapply claimedTotalMatches_funds; [apply init_funds|done].
  - intros env gs s Hs.
    eapply claimedTotalMatches_funds; [apply configure_groups_funds|done].
  - intros env a s Hs.
    eapply claimedTotalMatches_funds; [apply configure_initial_claim_funds|done].
  - intros env l. unfold upsert_investors, call, assertOwner.
    preserves_with ltac:(apply upsertStep_claimedTotalMatches).
  - intros env a s Hs.
    pose proof (claim_outcome env a s) as Hout.
    destruct (claim env a s) as [p s'|e s']; simpl; [|by subst].
    destruct Hout as (record & c & Hrec & _ & _ & -> & _).
    unfold claimedTotalMatches, sumClaimed in *. simpl.
    rewrite sumOver_insert, Hrec. simpl. lia.
  - intros env n r m s Hs.
    pose proof (withdraw_unallocated_outcome env n r m s) as Hout.
    destruct (withdraw_unallocated env n r m s) as [p s'|e s']; simpl; [|by subst].
    by destruct Hout as (w & _ & _ & -> & _).
  - intros env sd n m s Hs.
    pose proof (ft_on_transfer_outcome env sd n m s) as Hout.
    destruct (ft_on_transfer env sd n m s) as [p s'|e s']; simpl; [|by subst].
    by destruct Hout as (d & _ & _ & ->).
  - intros env a n s Hs.
    pose proof (on_claim_complete_outcome env a n s) as Hout.
    destruct (on_claim_complete env a n s) as [p s'|e s']; simpl; [by subst|].
    destruct Hout as [->|(record & _ & _ & Hrec & _ & ->)]; [done|].
    unfold claimedTotalMatches, sumClaimed in *. simpl.
    rewrite sumOver_insert, Hrec. simpl. lia.
  - intros env r n s Hs.
    pose proof (on_withdraw_complete_outcome env r n s) as Hout.
    destruct (on_withdraw_complete env r n s) as [p s'|e s']; simpl; [by subst|].
    by destruct Hout as [->|(_ & _ & _ & ->)].
Qed.

(** X2: in every reachable state [totalClaimed] is the sum of [claimed]
    over all investor records: the aggregate counter and the ledger never
    drift apart, whether a claim is paid, reverted or still in flight. *)
Theorem total_claimed_is_ledger_sum (sys : System) :
  reachable sys →
  totalClaimed (contract sys) = sumClaimed (investors (contract sys)).
Proof.
  apply (reachable_state_invariant claimedTotalMatches);
    [|apply invoke_claimedTotalMatches].
  unfold claimedTotalMatches, sumClaimed. simpl. by rewrite sumOver_empty.
Qed.

Lemma total_claimed_is_ledger_sum_witness :
  totalClaimed (contract sample_system)
  = sumClaimed (investors (contract sample_system)).
Proof. apply total_claimed_is_ledger_sum, sample_system_reachable. Defined.

(** ** Solvency *)

Lemma pendingClaims_app (l1 l2 : list Callback) :
  pendingClaims (l1 ++ l2) = pendingClaims l1 + pendingClaims l2.
Proof. induction l1; simpl; lia. Qed.

Lemma pendingWithdrawals_app (l1 l2 : list Callback) :
  pendingWithdrawals (l1 ++ l2) = pendingWithdrawals l1 + pendingWithdrawals l2.
Proof. induction l1; simpl; lia. Qed.

Lemma pendingClaims_nonneg (l : list Callback) :
  Forall (λ cb, 0 ≤ claimAmount cb ∧ 0 ≤ withdrawAmount cb) l →
  0 ≤ pendingClaims l ∧ 0 ≤ pendingWithdrawals l.
Proof. induction 1 as [|cb l [? ?] _ [? ?]]; simpl; lia. Qed.

(** [solvent] looks at the pool counters only. *)
Lemma solvent_frame (s s' : State) (l : list Callback) :
  snd (funds s') = snd (funds s) → solvent s l → solvent s' l.
Proof. unfold solvent, funds. simpl. by intros [= -> -> -> ->]. Qed.

Lemma solvent_drop (s : State) (before later : list Callback) (cb : Callback) :
  solvent s (before ++ cb :: later) → solvent s (before ++ later).
Proof.
  intros (Hpool & Hdep & Hc & Hw & Hall).
  rewrite Forall_app, Forall_cons in Hall. destruct Hall as (Hb & [Hcb1 Hcb2] & Hl).
  rewrite pendingClaims_app in Hc. rewrite pendingWithdrawals_app in Hw.
  simpl in Hc, Hw.
  split_and!; try done.
  - rewrite pendingClaims_app. lia.
  - rewrite pendingWithdrawals_app. lia.
  - by apply Forall_app.
Qed.

Lemma upsertStep_solvent (seen : gset string) (entry : InvestorInput)
    (l : list Callback) :
  preserves (λ s, solvent s l) (upsertStep seen entry).
Proof.
  intros s Hs. pose proof (upsertStep_outcome seen entry s) as Hout.
  destruct (upsertStep seen entry s) as [v s'|e s']; simpl; [|by subst].
  destruct Hout as (a & g & amt & _ & _ & _ & _ & _ & _ & _ & _ & ->).
  by eapply solvent_frame.
Qed.

Lemma upsert_investors_solvent (env : Env) (batch : list InvestorInput)
    (l : list Callback) :
  preserves (λ s, solvent s l) (upsert_investors env batch).
Proof.
  unfold upsert_investors, call, assertOwner.
  preserves_with ltac:(apply upsertStep_solvent).
Qed.

Lemma invoke_solvent (env : Env) (c : Call) (s : State) (l : list Callback) :
  external env c → solvent s l →
  solvent (finalState (invoke env c s)) (registered (invoke env c s) ++ l).
Proof.
  intros Hext Hs.
  destruct c as [o t tge gs ic|gs|args|batch|account|amt rcp mm|sd amt mm|a amt|r amt];
    simpl.
  - destruct (invoke_no_promise (init env o t tge gs ic) s) as [-> ->].
    eapply solvent_frame; [|done]. by rewrite init_funds.
  - destruct (invoke_no_promise (configure_groups env gs) s) as [-> ->].
    eapply solvent_frame; [|done]. by rewrite configure_groups_funds.
  - destruct (invoke_no_promise (configure_initial_claim env args) s) as [-> ->].
    eapply solvent_frame; [|done]. by rewrite configure_initial_claim_funds.
  - destruct (invoke_no_promise (upsert_investors env batch) s) as [-> ->].
    by apply upsert_investors_solvent.
  - unfold mbind, M_bind.
    pose proof (claim_outcome env account s) as Hout.
    destruct (claim env account s) as [p s'|e s']; simpl; [|by subst].
    destruct Hout as (record & c & Hrec & Hc & Hle & -> & ->).
    destruct Hs as (Hpool & Hdep & Hcl & Hw & Hall).
    split_and!; simpl; try done; try lia.
    apply Forall_cons. split; [simpl; lia|done].
  - unfold mbind, M_bind.
    pose proof (withdraw_unallocated_outcome env amt rcp mm s) as Hout.
    destruct (withdraw_unallocated env amt rcp mm s) as [p s'|e s']; simpl;
      [|by subst].
    destruct Hout as (w & -> & Hw' & -> & ->).
    destruct Hs as (Hpool & Hdep & Hcl & Hw & Hall).
    split_and!; simpl; try done; try lia.
    apply Forall_cons. split; [simpl; lia|done].
  - unfold mbind, M_bind.
    pose proof (ft_on_transfer_outcome env sd amt mm s) as Hout.
    destruct (ft_on_transfer env sd amt mm s) as [v s'|e s']; simpl; [|by subst].
    destruct Hout as (d & -> & Hd & ->).
    destruct Hs as (Hpool & Hdep & Hcl & Hw & Hall).
    split_and!; simpl; try done; lia.
  - destruct (invoke_no_promise (on_claim_complete env a amt) s) as [-> ->].
    pose proof (on_claim_complete_outcome env a amt s) as Hout.
    destruct (on_claim_complete env a amt s) as [v s'|e s']; simpl; [by subst|].
    destruct Hout as [->|(record & Hself & _)]; [done|]. by destruct Hext.
  - destruct (invoke_no_promise (on_withdraw_complete env r amt) s) as [-> ->].
    pose proof (on_withdraw_complete_outcome env r amt s) as Hout.
    destruct (on_withdraw_complete env r amt s) as [v s'|e s']; simpl; [by subst|].
    destruct Hout as [->|(Hself & _)]; [done|]. by destruct Hext.
Qed.

Lemma resume_solvent (env : Env) (cb : Callback) (before later : list Callback)
    (s : State) :
  solvent s (before ++ cb :: later) →
  solvent (finalState (invoke env (resume cb) s)) (before ++ later).
Proof.
  intros Hs. pose proof (solvent_drop _ _ _ _ Hs) as Hdrop.
  destruct Hs as (Hpool & Hdep & Hcl & Hw & Hall).
  rewrite Forall_app, Forall_cons in Hall. destruct Hall as (Hb & [Hcb1 Hcb2] & Hl).
  rewrite pendingClaims_app in Hcl. rewrite pendingWithdrawals_app in Hw.
  simpl in Hcl, Hw.
  destruct cb as [account n|recipient n]; simpl in *.
  - destruct (invoke_no_promise (on_claim_complete env account n) s) as [_ ->].
    pose proof (on_claim_complete_outcome env account n s) as Hout.
    destruct (on_claim_complete env account n s) as [v s'|e s']; simpl; [by subst|].
    destruct Hout as [->|(record & _ & _ & Hrec & _ & ->)]; [done|].
    split_and!; simpl; try done; try lia.
    + rewrite pendingClaims_app. lia.
    + rewrite pendingWithdrawals_app. lia.
    + by apply Forall_app.
  - destruct (invoke_no_promise (on_withdraw_complete env recipient n) s) as [_ ->].
    pose proof (on_withdraw_complete_outcome env recipient n s) as Hout.
    destruct (on_withdraw_complete env recipient n s) as [v s'|e s']; simpl;
      [by subst|].
    destruct Hout as [->|(_ & _ & _ & ->)]; [done|].
    split_and!; simpl; try done; try lia.
    + rewrite pendingClaims_app. lia.
    + rewrite pendingWithdrawals_app. lia.
    + by apply Forall_app.
Qed.

Lemma reachable_solvent (sys : System) :
  reachable sys → solvent (contract sys) (pending sys).
Proof.
  apply (reachable_system_invariant solvent).
  - unfold solvent. simpl. by split_and!.
  - apply invoke_solvent.
  - intros env cb before later s _. apply resume_solvent.
  - intros s before cb later. apply solvent_drop.
Qed.

(** X3: in every reachable state none of the four pool counters is
    negative and the contract has not paid out or earmarked more than it
    received: [totalClaimed + totalWithdrawn ≤ totalDeposited]. *)
Theorem pool_counters_nonnegative (sys : System) :
  reachable sys →
  0 ≤ poolBalance (contract sys) ∧ 0 ≤ totalDeposited (contract sys) ∧
  0 ≤ totalClaimed (contract sys) ∧ 0 ≤ totalWithdrawn (contract sys) ∧
  totalClaimed (contract sys) + totalWithdrawn (contract sys)
    ≤ totalDeposited (contract sys).
Proof.
  intros Hreach.
  destruct (reachable_solvent sys Hreach) as (Hpool & Hdep & Hcl & Hw & Hall).
  destruct (pendingClaims_nonneg _ Hall) as [? ?].
  destruct (reachable_invariant sys Hreach) as (Heq & _).
  unfold poolReconciles in Heq. lia.
Qed.

Lemma pool_counters_nonnegative_witness :
  0 ≤ poolBalance (contract sample_system) ∧
  0 ≤ totalDeposited (contract sample_system) ∧
  0 ≤ totalClaimed (contract sample_system) ∧
  0 ≤ totalWithdrawn (contract sample_system) ∧
  totalClaimed (contract sample_system) + totalWithdrawn (contract sample_system)
    ≤ totalDeposited (contract sample_system).
Proof. apply pool_counters_nonnegative, sample_system_reachable. Defined.

(** ** The schedule over time *)

Lemma vestedAmount_carved_monotone (bps avail tge : Z) (group : GroupConfigStored)
    (total t1 t2 : Z) :
  0 ≤ total → 0 ≤ bps → 0 ≤ initialUnlockBasisPoints group → t1 ≤ t2 →
  vestedAmount_carved bps avail tge group total t1
  ≤ vestedAmount_carved bps avail tge group total t2.
Proof.
  intros Htotal Hbps Hunlock Ht. unfold vestedAmount_carved.
  assert (0 ≤ total * bps ÷ 10000) by (apply Z.quot_pos; nia).
  assert (0 ≤ total * initialUnlockBasisPoints group ÷ 10000)
    by (apply Z.quot_pos; nia).
  set (ip := Z.min total (total * bps ÷ 10000)).
  assert (0 ≤ ip ≤ total) by lia.
  set (pc := Z.min (total - ip) (total * initialUnlockBasisPoints group ÷ 10000)).
  assert (0 ≤ pc ≤ total - ip) by lia.
  set (r1 := if t1 >=? avail then ip else 0).
  set (r2 := if t2 >=? avail then ip else 0).
  assert (0 ≤ r1 ≤ r2 ∧ r2 ≤ ip) as (Hr1 & Hr2).
  { subst r1 r2. destruct (t1 >=? avail) eqn:?, (t2 >=? avail) eqn:?; lia. }
  clearbody r1 r2 ip pc.
  set (start := tge + cliffDurationNs group).
  set (v := vestingDurationNs group).
  destruct (t1 <? start) eqn:Hc1, (t2 <? start) eqn:Hc2; try lia.
  - destruct (v =? 0) eqn:Hv; [lia|].
    destruct (t2 - start >=? v) eqn:He2; [lia|].
    assert (0 ≤ (total - ip - pc) * (t2 - start) ÷ v ≤ total - ip - pc)
      by (apply quot_fraction_bounds; lia).
    lia.
  - destruct (v =? 0) eqn:Hv; [lia|].
    destruct (t1 - start >=? v) eqn:He1, (t2 - start >=? v) eqn:He2; try lia.
    + assert (0 ≤ (total - ip - pc) * (t1 - start) ÷ v ≤ total - ip - pc)
        by (apply quot_fraction_bounds; lia).
      lia.
    + assert ((total - ip - pc) * (t1 - start) ÷ v
              ≤ (total - ip - pc) * (t2 - start) ÷ v)
        by (apply Z.quot_le_mono; nia).
      lia.
Qed.

(** X4: vesting never runs backwards.  For an allocation and basis points
    that are not negative, the amount [computeVestedAmount] reports at a
    later time is at least the amount it reports at an earlier time. *)
Theorem computeVestedAmount_monotone (s : State) (total : Z)
    (group : GroupConfigStored) (t1 t2 tge : Z) :
  tgeTimestampNs s = Numeral tge →
  0 ≤ total → 0 ≤ initialClaimBasisPoints s →
  0 ≤ initialUnlockBasisPoints group →
  t1 ≤ t2 →
  ∃ v1 v2,
    computeVestedAmount total group t1 s = Returned v1 s ∧
    computeVestedAmount total group t2 s = Returned v2 s ∧
    v1 ≤ v2.
Proof.
  intros Htge Htotal Hbps Hunlock Ht.
  do 2 eexists. split_and!; [by apply (computeVestedAmount_carved s _ _ _ tge)..|].
  by apply vestedAmount_carved_monotone.
Qed.

Lemma computeVestedAmount_monotone_witness :
  ∃ v1 v2,
    computeVestedAmount 10000 sample_group 120 sample_state = Returned v1 sample_state ∧
    computeVestedAmount 10000 sample_group 150 sample_state = Returned v2 sample_state ∧
    v1 ≤ v2.
Proof.
  apply (computeVestedAmount_monotone sample_state 10000 sample_group 120 150 0);
    [reflexivity|lia|simpl; lia|simpl; lia|lia].
Defined.

(** X5: once the cliff and the vesting duration have both passed, the
    whole allocation is vested whatever the basis points and the initial
    claim date are, and the claimable amount of a record is exactly what
    is left of its allocation. *)
Theorem fully_vested_after_schedule (s : State) (account : string)
    (r : InvestorRecord) (g : GroupConfigStored) (now tge : Z) :
  tgeTimestampNs s = Numeral tge →
  investors s !! account = Some r →
  groups s !! groupId r = Some g →
  0 ≤ vestingDurationNs g →
  tge + cliffDurationNs g + vestingDurationNs g ≤ now →
  claimed r ≤ totalAllocation r →
  computeVestedAmount (totalAllocation r) g now s
    = Returned (totalAllocation r) s ∧
  computeClaimable account now s
    = Returned (totalAllocation r - claimed r) s.
Proof.
  intros Htge Hr Hg Hv Hnow Hle.
  assert (computeVestedAmount (totalAllocation r) g now s
          = Returned (totalAllocation r) s) as Hvested.
  { unfold computeVestedAmount. run. rewrite Htge.
    replace (now <? tge + cliffDurationNs g) with false by lia.
    destruct (vestingDurationNs g =? 0); [done|].
    by replace (now - (tge + cliffDurationNs g) >=? vestingDurationNs g)
      with true by lia. }
  split; [done|].
  rewrite (computeClaimable_found s account now r g _ Hr Hg Hvested).
  f_equal. lia.
Qed.

Lemma fully_vested_after_schedule_witness :
  computeVestedAmount 10000 sample_group 200 sample_state
    = Returned 10000 sample_state ∧
  computeClaimable "alice.near" 200 sample_state
    = Returned (10000 - 0) sample_state.
Proof.
  apply (fully_vested_after_schedule sample_state "alice.near"
           {| groupId := "seed"; totalAllocation := 10000; claimed := 0 |}
           sample_group 200 0); try reflexivity; simpl; lia.
Defined.

(** ** Who can do what *)

(** Every way [claim] can return. *)
Lemma claim_returned (env : Env) (account_arg : option string) (s s' : State)
    (p : NearPromise) :
  claim env account_arg s = Returned p s' →
  let claimant := default (predecessorAccountId env) account_arg in
  ∃ record c,
    attachedDeposit env = ONE_YOCTO ∧
    (claimant = predecessorAccountId env ∨ predecessorAccountId env = owner s) ∧
    investors s !! claimant = Some record ∧
    computeClaimable claimant (blockTimestamp env) s = Returned c s ∧
    0 < c ≤ poolBalance s ∧
    s' = claimDebit claimant record c s ∧
    p = {| receiver_id := claimant; transfer_amount := Numeral c;
           memo := "vesting-claim";
           callback := on_claim_complete_args claimant (Numeral c) |}.
Proof.
  unfold claim, assertOneYocto. run.
  case_bool_decide as Hyocto; [done|].
  destruct (negb _ && _) eqn:Hauth; [done|].
  set (claimant := default (predecessorAccountId env) account_arg).
  destruct (investors s !! claimant) as [record|] eqn:Hrec; [|done].
  pose proof (computeClaimable_outcome s claimant (blockTimestamp env)) as Hout.
  destruct (computeClaimable claimant (blockTimestamp env) s) as [c s1|e s1] eqn:Hc;
    [|done].
  destruct Hout as (-> & Hpos & _).
  destruct (c <=? 0) eqn:Hzero; [done|].
  destruct (c >? poolBalance s) eqn:Hpool; [done|].
  intros [= <- <-]. exists record, c. split_and!; try done; try lia.
  apply andb_false_iff in Hauth as [Hself|Howner].
  - left. apply negb_false_iff in Hself. by apply bool_decide_eq_true in Hself.
  - right. apply bool_decide_eq_false in Howner.
    by destruct (decide (predecessorAccountId env = owner s)).
Qed.

(** X6: [claim] pays only the investor, and only on request of the
    investor or the owner.  Whenever [claim] returns, exactly one yocto
    was attached, the caller was the claimant or the owner, the claimant
    has a record, and the transfer requested is of the claimable amount,
    positive and covered by the pool, to the claimant and nobody else. *)
Theorem claim_pays_claimant_only (env : Env) (account_arg : option string)
    (s s' : State) (p : NearPromise) :
  claim env account_arg s = Returned p s' →
  attachedDeposit env = ONE_YOCTO ∧
  (default (predecessorAccountId env) account_arg = predecessorAccountId env ∨
   predecessorAccountId env = owner s) ∧
  is_Some (investors s !! default (predecessorAccountId env) account_arg) ∧
  receiver_id p = default (predecessorAccountId env) account_arg ∧
  ∃ c, transfer_amount p = Numeral c ∧ 0 < c ≤ poolBalance s ∧
       computeClaimable (default (predecessorAccountId env) account_arg)
         (blockTimestamp env) s = Returned c s.
Proof.
  intros Hclaim.
  destruct (claim_returned _ _ _ _ _ Hclaim)
    as (record & c & ? & ? & ? & ? & ? & _ & ->).
  split_and!; try done. by exists c.
Qed.

Lemma claim_pays_claimant_only_witness :
  let env := sample_env "alice.near" 150 true in
  let p := {| receiver_id := "alice.near"; transfer_amount := Numeral 5750;
              memo := "vesting-claim";
              callback := on_claim_complete_args "alice.near" (Numeral 5750) |} in
  attachedDeposit env = ONE_YOCTO ∧
  (default (predecessorAccountId env) None = predecessorAccountId env ∨
   predecessorAccountId env = owner sample_state) ∧
  is_Some (investors sample_state !! default (predecessorAccountId env) None) ∧
  receiver_id p = default (predecessorAccountId env) None ∧
  ∃ c, transfer_amount p = Numeral c ∧ 0 < c ≤ poolBalance sample_state ∧
       computeClaimable (default (predecessorAccountId env) None)
         (blockTimestamp env) sample_state = Returned c sample_state.
Proof.
  intros env p.
  apply (claim_pays_claimant_only env None sample_state sample_after_claim p).
  reflexivity.
Defined.

(** The calculator reads the TGE timestamp and the overlay, nothing else
    of the state. *)
Lemma computeVestedAmount_frame (s s' : State) (total : Z)
    (g : GroupConfigStored) (t v : Z) :
  tgeTimestampNs s' = tgeTimestampNs s →
  initialClaimBasisPoints s' = initialClaimBasisPoints s →
  initialClaimAvailableTimestampNs s' = initialClaimAvailableTimestampNs s →
  computeVestedAmount total g t s = Returned v s →
  computeVestedAmount total g t s' = Returned v s'.
Proof.
  unfold computeVestedAmount. run. intros -> -> ->.
  destruct (tgeTimestampNs s); simpl; try done;
    repeat case_match; by intros [= <-].
Qed.

(** Whether the calculator returns does not depend on the time asked
    for. *)
Lemma computeVestedAmount_any_time (s s0 : State) (total : Z)
    (g : GroupConfigStored) (t v : Z) :
  computeVestedAmount total g t s = Returned v s0 →
  ∀ t2, ∃ v2, computeVestedAmount total g t2 s = Returned v2 s.
Proof.
  unfold computeVestedAmount. run.
  destruct (tgeTimestampNs s); simpl; try done;
    intros _ t2; repeat case_match; by eexists.
Qed.

(** A positive claimable amount is the vested amount less the claimed
    one, of a record whose group is known. *)
Lemma computeClaimable_positive (s s0 : State) (account : string) (t c : Z) :
  computeClaimable account t s = Returned c s0 → 0 < c →
  ∃ r g v,
    investors s !! account = Some r ∧ groups s !! groupId r = Some g ∧
    computeVestedAmount (totalAllocation r) g t s = Returned v s ∧
    c = v - claimed r.
Proof.
  unfold computeClaimable. run.
  destruct (investors s !! account) as [r|] eqn:Hr; [|intros [= <- _]; lia].
  destruct (groups s !! groupId r) as [g|] eqn:Hg; [|intros [= <- _]; lia].
  destruct (totalAllocation r =? claimed r); [intros [= <- _]; lia|].
  pose proof (computeVestedAmount_outcome s (totalAllocation r) g t) as Hout.
  destruct (computeVestedAmount (totalAllocation r) g t s) as [v s1|e s1]
    eqn:Hv; [|done].
  destruct Hout as [-> _].
  destruct (v <=? claimed r); [intros [= <- _]; lia|].
  intros [= <- _] _. by exists r, g, v.
Qed.

(** What a claim leaves behind: the claimed amount is the vested
    amount. *)
Lemma claim_settles_vested (env : Env) (account_arg : option string)
    (s s' : State) (p : NearPromise) :
  claim env account_arg s = Returned p s' →
  let claimant := default (predecessorAccountId env) account_arg in
  ∃ r g v1,
    investors s !! claimant = Some r ∧ groups s !! groupId r = Some g ∧
    computeVestedAmount (totalAllocation r) g (blockTimestamp env) s
      = Returned v1 s ∧
    investors s' !! claimant =
      Some {| groupId := groupId r; totalAllocation := totalAllocation r;
              claimed := v1 |} ∧
    ∀ t2, ∃ v2,
      computeVestedAmount (totalAllocation r) g t2 s = Returned v2 s ∧
      computeClaimable claimant t2 s' = Returned (Z.max 0 (v2 - v1)) s'.
Proof.
  intros Hclaim claimant.
  destruct (claim_returned _ _ _ _ _ Hclaim)
    as (record & c & _ & _ & Hrec & Hc & [Hpos _] & -> & _).
  fold claimant in Hrec, Hc.
  destruct (computeClaimable_positive _ _ _ _ _ Hc Hpos)
    as (r & g & v1 & Hr & Hg & Hv1 & ->).
  assert (r = record) as -> by congruence.
  assert (investors (claimDebit claimant record (v1 - claimed record) s)
            !! claimant =
          Some {| groupId := groupId record;
                  totalAllocation := totalAllocation record;
                  claimed := v1 |}) as Hafter.
  { unfold claimDebit. simpl. rewrite lookup_insert_eq. do 2 f_equal. lia. }
  exists record, g, v1. split_and!; try done.
  intros t2.
  destruct (computeVestedAmount_any_time _ _ _ _ _ _ Hv1 t2) as (v2 & Hv2).
  exists v2. split; [done|].
  apply (computeClaimable_found _ claimant t2 _ g v2 Hafter); [done|].
  by apply (computeVestedAmount_frame s).
Qed.

(** X7: a claim pays out everything vested so far, and later claims get
    what has vested since.  When [claim] returns, the claimant's claimed
    amount has become exactly the amount [v1] vested at the time of the
    claim, and from then on the claimable amount at any time [t2] is the
    amount vested at [t2] less [v1], or nothing if that is negative. *)
Theorem claim_then_accrual (env : Env) (account_arg : option string)
    (s s' : State) (p : NearPromise) :
  claim env account_arg s = Returned p s' →
  let claimant := default (predecessorAccountId env) account_arg in
  ∃ r g v1,
    investors s !! claimant = Some r ∧ groups s !! groupId r = Some g ∧
    computeVestedAmount (totalAllocation r) g (blockTimestamp env) s
      = Returned v1 s ∧
    investors s' !! claimant =
      Some {| groupId := groupId r; totalAllocation := totalAllocation r;
              claimed := v1 |} ∧
    ∀ t2, ∃ v2,
      computeVestedAmount (totalAllocation r) g t2 s = Returned v2 s ∧
      computeClaimable claimant t2 s' = Returned (Z.max 0 (v2 - v1)) s'.
Proof. apply claim_settles_vested. Qed.

Lemma claim_then_accrual_witness :
  let env := sample_env "alice.near" 150 true in
  ∃ r g v1,
    investors sample_state !! "alice.near" = Some r ∧
    groups sample_state !! groupId r = Some g ∧
    computeVestedAmount (totalAllocation r) g 150 sample_state
      = Returned v1 sample_state ∧
    investors sample_after_claim !! "alice.near" =
      Some {| groupId := groupId r; totalAllocation := totalAllocation r;
              claimed := v1 |} ∧
    ∀ t2, ∃ v2,
      computeVestedAmount (totalAllocation r) g t2 sample_state
        = Returned v2 sample_state ∧
      computeClaimable "alice.near" t2 sample_after_claim
        = Returned (Z.max 0 (v2 - v1)) sample_after_claim.
Proof.
  intros env.
  apply (claim_then_accrual env None sample_state sample_after_claim
           {| receiver_id := "alice.near"; transfer_amount := Numeral 5750;
              memo := "vesting-claim";
              callback := on_claim_complete_args "alice.near" (Numeral 5750) |}).
  reflexivity.
Defined.

(** X8: the same claim cannot be made twice in a block.  After [claim]
    has returned, the same call at the same block time is refused with
    "Nothing to claim" and changes nothing: whatever the transfer does
    later, a second transfer cannot be requested meanwhile. *)
Theorem claim_repeated_is_refused (env : Env) (account_arg : option string)
    (s s' : State) (p : NearPromise) :
  claim env account_arg s = Returned p s' →
  claim env account_arg s' = Threw NothingToClaim s'.
Proof.
  intros Hclaim.
  destruct (claim_settles_vested env account_arg s s' p Hclaim)
    as (r & g & v1 & _ & _ & Hv1 & Hafter & Hlater).
  destruct (Hlater (blockTimestamp env)) as (v2 & Hv2 & Hc).
  assert (v2 = v1) as -> by congruence.
  destruct (claim_returned _ _ _ _ _ Hclaim)
    as (record & c & Hyocto & Hauth & _ & _ & _ & Hs' & _).
  assert (owner s' = owner s) as Howner by (by rewrite Hs').
  unfold claim, assertOneYocto. run.
  rewrite bool_decide_eq_false_2 by (by intros ?).
  replace (negb _ && _) with false; [|symmetry; apply andb_false_iff].
  - rewrite Hafter, Hc. by replace (Z.max 0 (v1 - v1)) with 0 by lia.
  - rewrite Howner. destruct Hauth as [Hself|Hown].
    + left. apply negb_false_iff. by apply bool_decide_eq_true.
    + right. apply bool_decide_eq_false. by intros ?.
Qed.

Lemma claim_repeated_is_refused_witness :
  claim (sample_env "alice.near" 150 true) None sample_after_claim
    = Threw NothingToClaim sample_after_claim.
Proof.
  apply (claim_repeated_is_refused (sample_env "alice.near" 150 true) None
           sample_state sample_after_claim
           {| receiver_id := "alice.near"; transfer_amount := Numeral 5750;
              memo := "vesting-claim";
              callback := on_claim_complete_args "alice.near" (Numeral 5750) |}).
  reflexivity.
Defined.

(** ** Access control *)

(** Changing the claimed amount of a record leaves the allocation side of
    the ledger as it was. *)
Lemma allocationOf_insert_claimed (m : gmap string InvestorRecord)
    (a : string) (r : InvestorRecord) (c : Z) :
  m !! a = Some r →
  allocationOf <$> <[a := {| groupId := groupId r;
                             totalAllocation := totalAllocation r;
                             claimed := c |}]> m
  = allocationOf <$> m.
Proof.
  intros Hr. rewrite fmap_insert. apply insert_id.
  by rewrite lookup_fmap, Hr.
Qed.

(** The four administrative calls stop at their first statement for
    anyone but the owner. *)
Lemma assertOwner_refuses {A} (env : Env) (k : M A) (s : State) :
  predecessorAccountId env ≠ owner s →
  (assertOwner env;; k) s = Threw OnlyOwner s.
Proof.
  intros Hother. unfold assertOwner. run.
  by rewrite bool_decide_eq_true_2.
Qed.

Lemma bind_threw {A B} (m : M A) (k : A → M B) (s s' : State) (e : Error) :
  m s = Threw e s' → (m ≫= k) s = Threw e s'.
Proof. intros H. unfold mbind, M_bind. by rewrite H. Qed.

(** Behind the wrapper of [@call({})] it is no different. *)
Lemma owner_call_refuses {A} (env : Env) (k : M A) (s : State) :
  predecessorAccountId env ≠ owner s →
  ∃ e, call env false false (assertOwner env;; k) s = Threw e s.
Proof.
  intros Hother. rewrite call_public.
  destruct (attachedDeposit env >? 0); [by eexists|].
  rewrite assertOwner_refuses by done. by eexists.
Qed.

Lemma init_refused_once_owned (env : Env) (o t : option string) (tge : NumArg)
    (gs : list GroupConfigInput) (ic : InitialClaimConfigInput) (s : State) :
  owner s ≠ "" → init env o t tge gs ic s = Threw AlreadyInitialized s.
Proof.
  intros Howned. unfold init. run. by rewrite bool_decide_eq_true_2.
Qed.

(** X9: only the owner administers.  Once the contract has an owner, a
    call by any other account, whatever it is and whether it returns or
    throws, leaves the owner, the token account, the TGE timestamp, the
    overlay, the group registry and every record's group and allocation
    as they were; and the only payment such a call can request is one
    to the caller itself. *)
Theorem only_owner_changes_configuration (env : Env) (c : Call) (s : State) :
  owner s ≠ "" → predecessorAccountId env ≠ owner s →
  configuration (finalState (invoke env c s)) = configuration s ∧
  ∀ p s', invoke env c s = Returned (Some p) s' →
          receiver_id p = predecessorAccountId env.
Proof.
  intros Howned Hother.
  destruct c as [o t tge gs ic|gs|a|l|a|n r m|sd n m|a n|r n];
    unfold invoke.
  - unfold mbind, M_bind. rewrite init_refused_once_owned by done.
    by split.
  - unfold configure_groups.
    destruct (owner_call_refuses env (setGroupsInternal gs) s Hother) as [e He].
    rewrite (bind_threw _ _ _ _ _ He). by split.
  - unfold configure_initial_claim.
    match goal with |- context [call env false false (assertOwner env;; ?k)] =>
      destruct (owner_call_refuses env k s Hother) as [e He] end.
    rewrite (bind_threw _ _ _ _ _ He). by split.
  - unfold upsert_investors.
    match goal with |- context [call env false false (assertOwner env;; ?k)] =>
      destruct (owner_call_refuses env k s Hother) as [e He] end.
    rewrite (bind_threw _ _ _ _ _ He). by split.
  - pose proof (claim_outcome env a s) as Hout.
    unfold mbind, M_bind.
    destruct (claim env a s) as [p s1|e s1] eqn:Hclaim; simpl.
    + destruct Hout as (record & c & Hrec & _ & _ & -> & _).
      split.
      * unfold configuration, claimDebit. simpl.
        by rewrite allocationOf_insert_claimed.
      * intros p' s' [= <- _].
        destruct (claim_returned _ _ _ _ _ Hclaim)
          as (? & ? & _ & [Hself|Hown] & _ & _ & _ & _ & ->); [done|].
        by destruct Hother.
    + by subst s1.
  - unfold withdraw_unallocated.
    match goal with |- context [assertOwner env;; ?k] =>
      pose proof (assertOwner_refuses env k s Hother) as H end.
    unfold mbind, M_bind in *. rewrite H. by split.
  - pose proof (ft_on_transfer_outcome env sd n m s) as Hout.
    unfold mbind, M_bind.
    destruct (ft_on_transfer env sd n m s) as [v s1|e s1]; simpl.
    + by destruct Hout as (d & _ & _ & ->).
    + by subst s1.
  - pose proof (on_claim_complete_outcome env a n s) as Hout.
    unfold mbind, M_bind.
    destruct (on_claim_complete env a n s) as [v s1|e s1]; simpl.
    + by subst s1.
    + destruct Hout as [->|(record & _ & _ & Hrec & _ & ->)]; [done|].
      split; [|done].
      unfold configuration, claimRevert. simpl.
      by rewrite allocationOf_insert_claimed.
  - pose proof (on_withdraw_complete_outcome env r n s) as Hout.
    unfold mbind, M_bind.
    destruct (on_withdraw_complete env r n s) as [v s1|e s1]; simpl.
    + by subst s1.
    + by destruct Hout as [->|(_ & _ & _ & ->)].
Qed.

Lemma only_owner_changes_configuration_witness :
  let env := sample_env "alice.near" 150 true in
  configuration (finalState (invoke env (call_claim None) sample_state))
    = configuration sample_state ∧
  ∀ p s', invoke env (call_claim None) sample_state = Returned (Some p) s' →
          receiver_id p = predecessorAccountId env.
Proof.
  intros env.
  apply (only_owner_changes_configuration env (call_claim None) sample_state);
    by vm_compute.
Defined.

(** ** Moving funds: who, how much, and what is written *)

(** X10: [withdraw_unallocated] returns exactly for the owner, with one
    yocto attached and an amount that parses to a positive number not
    above the pool.  Then the pool decreases and the withdrawn total
    increases by that amount, nothing else changes, and the transfer
    requested goes to the recipient given, or to the owner if none is.
    In every other case it throws with the state untouched. *)
Theorem withdraw_unallocated_returns_iff (env : Env) (amount : NumArg)
    (recipient memo_arg : option string) (s : State) :
  match withdraw_unallocated env amount recipient memo_arg s with
  | Returned p s' =>
      predecessorAccountId env = owner s ∧ attachedDeposit env = ONE_YOCTO ∧
      ∃ w, amount = Numeral w ∧ 0 < w ≤ poolBalance s ∧
           s' = withdrawDebit w s ∧
           p = {| receiver_id := default (owner s) recipient;
                  transfer_amount := Numeral w;
                  memo := default "vesting-withdrawal" memo_arg;
                  callback :=
                    on_withdraw_complete_args (default (owner s) recipient)
                                              (Numeral w) |}
  | Threw _ s' =>
      s' = s ∧
      ¬ (predecessorAccountId env = owner s ∧ attachedDeposit env = ONE_YOCTO ∧
         ∃ w, amount = Numeral w ∧ 0 < w ≤ poolBalance s)
  end.
Proof.
  unfold withdraw_unallocated, assertOwner, assertOneYocto. run.
  case_bool_decide as Howner; [split; [done|]; by intros (? & _)|].
  case_bool_decide as Hyocto; [split; [done|]; by intros (_ & ? & _)|].
  destruct amount as [| | |w]; simpl;
    try (split; [done|]; by intros (_ & _ & ? & ? & _)).
  destruct (w <=? 0) eqn:Hzero;
    [split; [done|]; intros (_ & _ & ? & [= <-] & ?); lia|].
  destruct (w >? poolBalance s) eqn:Hpool;
    [split; [done|]; intros (_ & _ & ? & [= <-] & ?); lia|].
  split_and!.
  - by destruct (decide (predecessorAccountId env = owner s)).
  - by destruct (decide (attachedDeposit env = ONE_YOCTO)).
  - exists w. split_and!; try done; lia.
Qed.

(** X11: [ft_on_transfer] accepts a deposit exactly when no NEAR deposit
    is attached to the call, the caller is the token account and the
    amount parses to a positive number, whoever the sender is and
    whatever the message says.  Then the pool and the deposited total
    grow by the amount, nothing else changes, and the value returned is
    "0": nothing is handed back.  In every other case it throws with the
    state untouched. *)
Theorem ft_on_transfer_returns_iff (env : Env) (sender_id : option string)
    (amount : NumArg) (msg : option string) (s : State) :
  match ft_on_transfer env sender_id amount msg s with
  | Returned unused s' =>
      attachedDeposit env ≤ 0 ∧
      predecessorAccountId env = tokenAccountId s ∧ unused = "0" ∧
      ∃ d, amount = Numeral d ∧ 0 < d ∧ s' = credit d s
  | Threw _ s' =>
      s' = s ∧
      ¬ (attachedDeposit env ≤ 0 ∧
         predecessorAccountId env = tokenAccountId s ∧
         ∃ d, amount = Numeral d ∧ 0 < d)
  end.
Proof.
  unfold ft_on_transfer. rewrite call_public.
  destruct (attachedDeposit env >? 0) eqn:Hpaid;
    [split; [done|]; intros (? & _); lia|].
  unfold assertTokenCaller. run.
  case_bool_decide as Htoken; [split; [done|]; by intros (_ & ? & _)|].
  destruct amount as [| | |d]; simpl;
    try (split; [done|]; by intros (_ & _ & ? & ? & _)).
  destruct (d <=? 0) eqn:Hzero;
    [split; [done|]; intros (_ & _ & ? & [= <-] & ?); lia|].
  split_and!; try done; [lia|].
  exists d. split_and!; try done; lia.
Qed.

(** X12: how a continuation ends.  Called by any account but the contract
    itself it is refused as private; called by the contract with a
    deposit attached it is refused as not payable; resumed by the
    contract, with no deposit, after a transfer that succeeded it returns
    and changes nothing; resumed after a transfer that failed it never
    returns.  So whatever the outcome of the transfer, the state the host
    keeps after the continuation is the state it was resumed in. *)
Theorem continuation_ends (env : Env) (cb : Callback) (s : State) :
  (predecessorAccountId env ≠ currentAccountId env →
   invoke env (resume cb) s = Threw FunctionIsPrivate s) ∧
  (predecessorAccountId env = currentAccountId env →
   0 < attachedDeposit env →
   invoke env (resume cb) s = Threw FunctionIsNotPayable s) ∧
  (predecessorAccountId env = currentAccountId env →
   attachedDeposit env ≤ 0 →
   promiseSucceeded env = true →
   invoke env (resume cb) s = Returned None s) ∧
  (predecessorAccountId env = currentAccountId env →
   attachedDeposit env ≤ 0 →
   promiseSucceeded env = false →
   ∃ e s', invoke env (resume cb) s = Threw e s') ∧
  committed s (invoke env (resume cb) s) = s.
Proof.
  assert (∀ (m : M unit),
    invoke env (resume cb) s =
      ((call env true false m) ≫= λ _, mret (None : option NearPromise)) s →
    (predecessorAccountId env ≠ currentAccountId env →
     invoke env (resume cb) s = Threw FunctionIsPrivate s) ∧
    (predecessorAccountId env = currentAccountId env →
     0 < attachedDeposit env →
     invoke env (resume cb) s = Threw FunctionIsNotPayable s)) as Hguard.
  { intros m ->. unfold mbind, M_bind. rewrite call_private. split.
    - intros Hother. by rewrite bool_decide_eq_true_2.
    - intros Hself Hpaid. rewrite bool_decide_eq_false_2 by (by intros ?).
      by replace (attachedDeposit env >? 0) with true by lia. }
  assert (predecessorAccountId env = currentAccountId env →
          attachedDeposit env ≤ 0 →
          (promiseSucceeded env = true →
           invoke env (resume cb) s = Returned None s) ∧
          (promiseSucceeded env = false →
           ∃ e s', invoke env (resume cb) s = Threw e s')) as Hbody.
  { intros Hself Hfree.
    destruct cb as [a n|r n]; simpl; (split; intros Hok);
      unfold mbind at 1, M_bind at 1;
      unfold on_claim_complete, on_withdraw_complete; rewrite call_private;
      rewrite bool_decide_eq_false_2 by (by intros ?);
      replace (attachedDeposit env >? 0) with false by lia;
      unfold assertSelf; run;
      rewrite bool_decide_eq_false_2 by (by intros ?);
      rewrite Hok; try done.
    - destruct (investors s !! a); [|by eexists _, _].
      destruct n; simpl; by eexists _, _.
    - destruct n; simpl; by eexists _, _. }
  assert (match invoke env (resume cb) s with
          | Returned _ s' => s' = s
          | Threw _ _ => True
          end) as Hreturned.
  { destruct cb as [a n|r n]; simpl; unfold mbind, M_bind.
    - pose proof (on_claim_complete_outcome env a n s) as Hout.
      by destruct (on_claim_complete env a n s).
    - pose proof (on_withdraw_complete_outcome env r n s) as Hout.
      by destruct (on_withdraw_complete env r n s). }
  split_and!.
  - destruct cb; by eapply Hguard.
  - destruct cb; by eapply Hguard.
  - intros Hself Hfree. by apply Hbody.
  - intros Hself Hfree. by apply Hbody.
  - by destruct (invoke env (resume cb) s).
Qed.

(** X13: the owner, the token account and the TGE timestamp are set once.
    On a contract that has an owner no call, by anyone, returning or
    throwing, changes any of the three: there is no transfer of
    ownership and no way to move the origin of the schedule. *)
Theorem owner_token_tge_fixed (env : Env) (c : Call) (s : State) :
  owner s ≠ "" →
  owner (finalState (invoke env c s)) = owner s ∧
  tokenAccountId (finalState (invoke env c s)) = tokenAccountId s ∧
  tgeTimestampNs (finalState (invoke env c s)) = tgeTimestampNs s.
Proof.
  intros Howned.
  pose (P := λ x : State,
    owner x = owner s ∧ tokenAccountId x = tokenAccountId s ∧
    tgeTimestampNs x = tgeTimestampNs s).
  enough (preserves P (invoke env c)) as H by (by apply H).
  apply invoke_preserves; clear env c.
  - intros env o t tge gs ic x Hx.
    rewrite init_refused_once_owned; [done|].
    destruct Hx as (-> & _). done.
  - intros env gs. unfold configure_groups, call, setGroupsInternal, setGroupsStep,
      assertOwner. preserves_with idtac; by intros ? ?.
  - intros env a. unfold configure_initial_claim, call, setInitialClaimConfig,
      assertOwner. preserves_with idtac; by intros ? ?.
  - intros env l. unfold upsert_investors, call, upsertStep, assertOwner.
    preserves_with idtac; by intros ? ?.
  - intros env a. unfold claim, computeClaimable, computeVestedAmount,
      assertOneYocto. preserves_with idtac; by intros ? ?.
  - intros env n r m. unfold withdraw_unallocated, assertOwner, assertOneYocto.
    preserves_with idtac; by intros ? ?.
  - intros env sd n m. unfold ft_on_transfer, call, assertTokenCaller.
    preserves_with idtac; by intros ? ?.
  - intros env a n. unfold on_claim_complete, call, assertSelf.
    preserves_with idtac; by intros ? ?.
  - intros env r n. unfold on_withdraw_complete, call, assertSelf.
    preserves_with idtac; by intros ? ?.
Qed.

Lemma owner_token_tge_fixed_witness :
  let env := unpaid_env "owner.near" 150 true in
  let c := call_init (Some "mallory.near") (Some "other.near") (Numeral 7) []
             {| initial_claim_basis_points := Undefined;
                initial_claim_available_timestamp_ns := Undefined |} in
  owner (finalState (invoke env c sample_state)) = owner sample_state ∧
  tokenAccountId (finalState (invoke env c sample_state))
    = tokenAccountId sample_state ∧
  tgeTimestampNs (finalState (invoke env c sample_state))
    = tgeTimestampNs sample_state.
Proof.
  intros env c. apply (owner_token_tge_fixed env c sample_state). by vm_compute.
Defined.

(** ** What a successful replacement or batch stores *)

Lemma set_groups_same (s : State) : set_groups (groups s) s = s.
Proof. by destruct s. Qed.

Lemma set_investors_same (s : State) : set_investors (investors s) s = s.
Proof. by destruct s. Qed.

Lemma storedGroup_id (group : GroupConfigInput) (gid : string)
    (cfg : GroupConfigStored) :
  storedGroup group = Some (gid, cfg) → id group = Some gid.
Proof.
  unfold storedGroup. intros Hstored.
  destruct (id group); by simplify_option_eq.
Qed.

Lemma storedGroup_keys (l : list GroupConfigInput) (gid : string) :
  gid ∈ (omap storedGroup l).*1 → gid ∈ omap id l.
Proof.
  intros ([k cfg] & -> & Hin)%list_elem_of_fmap.
  apply list_elem_of_omap in Hin as (group & Hin & Hstored).
  apply list_elem_of_omap. exists group. split; [done|].
  by apply storedGroup_id in Hstored.
Qed.

(** An entry that passes is stored as [storedGroup] says. *)
Lemma setGroupsStep_stores (seen seen' : gset string) (group : GroupConfigInput)
    (s s' : State) :
  setGroupsStep seen group s = Returned seen' s' →
  ∃ gid cfg,
    storedGroup group = Some (gid, cfg) ∧ (gid ∉ seen) ∧ seen' = (seen ∪ {[gid]}) ∧
    s' = set_groups (<[gid := cfg]> (groups s)) s.
Proof.
  intros Hstep.
  destruct (setGroupsStep_returned_valid _ _ _ _ _ Hstep)
    as [(gid & cliff & vesting & bps & Hid & Hne & Hc & Hv & Hb & ? & ? & ?)
        (gid' & Hid' & Hseen)].
  assert (gid' = gid) as -> by congruence.
  rewrite (setGroupsStep_accepts seen group s gid cliff vesting bps) in Hstep
    by done.
  injection Hstep as <- <-.
  exists gid, {| cliffDurationNs := cliff; vestingDurationNs := vesting;
                 initialUnlockBasisPoints := bps |}.
  split_and!; try done.
  unfold storedGroup. by rewrite Hid, Hc, Hv, Hb.
Qed.

(** The loop of [setGroupsInternal], when it runs to its end, has written
    the entries of the list over the registry it started from. *)
Lemma setGroups_loop_stores (l : list GroupConfigInput) (seen seen' : gset string)
    (s s' : State) :
  forOf setGroupsStep seen l s = Returned seen' s' →
  s' = set_groups (list_to_map (omap storedGroup l) ∪ groups s) s.
Proof.
  revert seen s. induction l as [|group l IH]; intros seen s; simpl.
  { intros [= _ <-]. by rewrite (left_id_L _ _), set_groups_same. }
  unfold mbind, M_bind.
  destruct (setGroupsStep seen group s) as [seen1 s1|] eqn:Hstep; [|done].
  intros Hrest.
  destruct (setGroupsStep_stores _ _ _ _ _ Hstep)
    as (gid & cfg & Hstored & _ & -> & ->).
  assert (gid ∉ omap id l) as Hnotin.
  { destruct (proj1 (setGroups_loop_returns l _ _)
                (ex_intro _ _ (ex_intro _ _ Hrest))) as (_ & _ & Hfresh).
    intros Hin. apply (Hfresh _ Hin), elem_of_union_r. by apply elem_of_singleton. }
  rewrite (IH _ _ Hrest), Hstored. simpl.
  unfold set_groups. simpl. f_equal.
  rewrite <- insert_union_l. symmetry. apply insert_union_r.
  apply not_elem_of_list_to_map_1. intros Hin. by apply Hnotin, storedGroup_keys.
Qed.

(** Every way [configure_groups] can return. *)
Lemma configure_groups_stores (env : Env) (l : list GroupConfigInput)
    (s s' : State) :
  configure_groups env l s = Returned tt s' →
  s' = set_groups (list_to_map (omap storedGroup l)) s.
Proof.
  unfold configure_groups. rewrite call_public.
  destruct (attachedDeposit env >? 0); [done|].
  unfold setGroupsInternal, assertOwner. run.
  case_bool_decide; [done|]. case_bool_decide; [done|].
  destruct (forOf setGroupsStep ∅ l (set_groups ∅ s)) as [seen s1|] eqn:Hloop;
    [|done].
  intros [= <-]. rewrite (setGroups_loop_stores _ _ _ _ _ Hloop).
  simpl. by rewrite (right_id_L _ _).
Qed.

Lemma storedGroup_valid (group : GroupConfigInput) :
  groupValid group → ∃ gid cfg, storedGroup group = Some (gid, cfg) ∧
                                id group = Some gid.
Proof.
  intros (gid & cliff & vesting & bps & Hid & _ & Hc & Hv & Hb & _).
  unfold storedGroup. rewrite Hid, Hc, Hv, Hb. simpl. by eauto.
Qed.

Lemma storedGroup_keys_valid (l : list GroupConfigInput) :
  Forall groupValid l → (omap storedGroup l).*1 = omap id l.
Proof.
  induction 1 as [|group l Hvalid _ IH]; [done|]. simpl.
  destruct (storedGroup_valid _ Hvalid) as (gid & cfg & -> & ->).
  simpl. by f_equal.
Qed.

(** X14: a successful [configure_groups] replaces the registry by the
    list.  When the call returns, nothing but the registry has changed;
    every entry of the list is stored under its id with its three
    numbers as parsed, and no other id is left in the registry, whatever
    it held before. *)
Theorem configure_groups_replaces_registry (env : Env)
    (l : list GroupConfigInput) (s s' : State) :
  configure_groups env l s = Returned tt s' →
  s' = set_groups (list_to_map (omap storedGroup l)) s ∧
  (∀ group, group ∈ l →
     ∃ gid cfg, storedGroup group = Some (gid, cfg) ∧
                groups s' !! gid = Some cfg) ∧
  (∀ gid, is_Some (groups s' !! gid) → gid ∈ omap id l).
Proof.
  intros Hcall.
  pose proof (configure_groups_stores _ _ _ _ Hcall) as ->.
  destruct (configure_groups_returned_valid _ _ _ _ Hcall)
    as (_ & _ & _ & Hall & Hnodup).
  split_and!; [done|..]; simpl.
  - intros group Hin.
    destruct (storedGroup_valid group) as (gid & cfg & Hstored & _).
    { by eapply Forall_forall in Hall. }
    exists gid, cfg. split; [done|].
    apply elem_of_list_to_map_1.
    + by rewrite storedGroup_keys_valid.
    + apply list_elem_of_omap. by exists group.
  - intros gid [cfg Hcfg].
    apply storedGroup_keys.
    apply elem_of_list_to_map_2 in Hcfg.
    apply list_elem_of_fmap. by exists (gid, cfg).
Qed.

Lemma configure_groups_replaces_registry_witness :
  let env := unpaid_env "owner.near" 150 true in
  let l := [ {| id := Some "team"; cliff_duration_ns := Numeral 5;
                vesting_duration_ns := EmptyStr;
                initial_unlock_basis_points := Undefined |} ] in
  let s' := set_groups
              {[ "team" := {| cliffDurationNs := 5; vestingDurationNs := 0;
                              initialUnlockBasisPoints := 0 |} ]}
              sample_state in
  s' = set_groups (list_to_map (omap storedGroup l)) sample_state ∧
  (∀ group, group ∈ l →
     ∃ gid cfg, storedGroup group = Some (gid, cfg) ∧
                groups s' !! gid = Some cfg) ∧
  (∀ gid, is_Some (groups s' !! gid) → gid ∈ omap id l).
Proof.
  intros env l s'.
  apply (configure_groups_replaces_registry env l sample_state s').
  reflexivity.
Defined.

(** X15: removing a group freezes its investors.  After a successful
    [configure_groups] whose list does not name the group of a record,
    nothing is claimable for that record at any time, whatever had
    vested before. *)
Theorem configure_groups_without_group_freezes (env : Env)
    (l : list GroupConfigInput) (s s' : State)
    (account : string) (r : InvestorRecord) :
  configure_groups env l s = Returned tt s' →
  investors s !! account = Some r →
  groupId r ∉ omap id l →
  ∀ now, computeClaimable account now s' = Returned 0 s'.
Proof.
  intros Hcall Hr Hgone now.
  pose proof (configure_groups_stores _ _ _ _ Hcall) as ->.
  apply (computeClaimable_no_group _ account now r); [done|]. simpl.
  apply not_elem_of_list_to_map_1. intros Hin.
  by apply Hgone, storedGroup_keys.
Qed.

Lemma configure_groups_without_group_freezes_witness :
  let env := unpaid_env "owner.near" 150 true in
  let l := [ {| id := Some "team"; cliff_duration_ns := Numeral 5;
                vesting_duration_ns := EmptyStr;
                initial_unlock_basis_points := Undefined |} ] in
  let s' := set_groups
              {[ "team" := {| cliffDurationNs := 5; vestingDurationNs := 0;
                              initialUnlockBasisPoints := 0 |} ]}
              sample_state in
  computeClaimable "alice.near" 150 sample_state = Returned 5750 sample_state ∧
  ∀ now, computeClaimable "alice.near" now s' = Returned 0 s'.
Proof.
  intros env l s'. split; [reflexivity|].
  apply (configure_groups_without_group_freezes env l sample_state s'
           "alice.near"
           {| groupId := "seed"; totalAllocation := 10000; claimed := 0 |});
    [reflexivity | reflexivity |].
  vm_compute. by intros [=]%list_elem_of_singleton.
Defined.

Lemma storedInvestor_account (m : gmap string InvestorRecord)
    (entry : InvestorInput) (account : string) (r : InvestorRecord) :
  storedInvestor m entry = Some (account, r) → account_id entry = Some account.
Proof.
  unfold storedInvestor. intros Hstored.
  destruct (account_id entry); by simplify_option_eq.
Qed.

Lemma storedInvestor_keys (m : gmap string InvestorRecord)
    (l : list InvestorInput) (account : string) :
  account ∈ (omap (storedInvestor m) l).*1 → account ∈ omap account_id l.
Proof.
  intros ([k r] & -> & Hin)%list_elem_of_fmap.
  apply list_elem_of_omap in Hin as (entry & Hin & Hstored).
  apply list_elem_of_omap. exists entry. split; [done|].
  by apply storedInvestor_account in Hstored.
Qed.

(** What is stored for an entry depends on the ledger only through the
    record of the entry's own account. *)
Lemma storedInvestor_other (m : gmap string InvestorRecord)
    (entry : InvestorInput) (account : string) (r : InvestorRecord) :
  account_id entry ≠ Some account →
  storedInvestor (<[account := r]> m) entry = storedInvestor m entry.
Proof.
  intros Hother. unfold storedInvestor, claimedOf.
  destruct (account_id entry) as [a|]; [|done]. simpl.
  rewrite lookup_insert_ne; [done|]. by intros ->.
Qed.

Lemma storedInvestor_others (m : gmap string InvestorRecord)
    (l : list InvestorInput) (account : string) (r : InvestorRecord) :
  account ∉ omap account_id l →
  omap (storedInvestor (<[account := r]> m)) l = omap (storedInvestor m) l.
Proof.
  intros Hnotin. apply list_omap_ext, Forall2_same_length_lookup_2; [done|].
  intros i x y Hx Hy. assert (y = x) as -> by congruence.
  apply storedInvestor_other. intros Heq. apply Hnotin.
  apply list_elem_of_omap. exists x. split; [|done].
  by eapply list_elem_of_lookup_2.
Qed.

(** An entry that passes is stored as [storedInvestor] says. *)
Lemma upsertStep_stores (seen seen' : gset string) (entry : InvestorInput)
    (s s' : State) :
  upsertStep seen entry s = Returned seen' s' →
  ∃ account r,
    storedInvestor (investors s) entry = Some (account, r) ∧
    (account ∉ seen) ∧ seen' = (seen ∪ {[account]}) ∧
    s' = set_investors (<[account := r]> (investors s)) s.
Proof.
  intros Hstep.
  pose proof (upsertStep_outcome seen entry s) as Hout. rewrite Hstep in Hout.
  destruct Hout as (account & group & amt & Ha & Hg & Hamt & Hseen & -> & _ & _
                    & _ & ->).
  eexists account, _. split_and!; [|done|done|reflexivity].
  unfold storedInvestor. by rewrite Ha, Hg, Hamt.
Qed.

(** The loop of [upsert_investors], when it runs to its end, has written
    the entries of the batch over the ledger it started from. *)
Lemma upsert_loop_stores (l : list InvestorInput) (seen seen' : gset string)
    (s s' : State) :
  forOf upsertStep seen l s = Returned seen' s' →
  s' = set_investors
         (list_to_map (omap (storedInvestor (investors s)) l) ∪ investors s) s.
Proof.
  revert seen s. induction l as [|entry l IH]; intros seen s; simpl.
  { intros [= _ <-]. by rewrite (left_id_L _ _), set_investors_same. }
  unfold mbind, M_bind.
  destruct (upsertStep seen entry s) as [seen1 s1|] eqn:Hstep; [|done].
  intros Hrest.
  destruct (upsertStep_stores _ _ _ _ _ Hstep)
    as (account & r & Hstored & _ & -> & ->).
  assert (account ∉ omap account_id l) as Hnotin.
  { destruct (proj1 (upsert_loop_returns l _ _)
                (ex_intro _ _ (ex_intro _ _ Hrest))) as (_ & _ & Hfresh).
    intros Hin. apply (Hfresh _ Hin), elem_of_union_r. by apply elem_of_singleton. }
  rewrite (IH _ _ Hrest), Hstored. simpl.
  rewrite storedInvestor_others by done.
  unfold set_investors. simpl. f_equal.
  rewrite <- insert_union_l. symmetry. apply insert_union_r.
  apply not_elem_of_list_to_map_1. intros Hin.
  by eapply Hnotin, storedInvestor_keys.
Qed.

(** Every way [upsert_investors] can return. *)
Lemma upsert_investors_stores (env : Env) (l : list InvestorInput)
    (s s' : State) :
  upsert_investors env l s = Returned tt s' →
  s' = set_investors
         (list_to_map (omap (storedInvestor (investors s)) l) ∪ investors s) s.
Proof.
  unfold upsert_investors. rewrite call_public.
  destruct (attachedDeposit env >? 0); [done|].
  unfold assertOwner. run.
  case_bool_decide; [done|]. case_bool_decide; [done|].
  destruct (forOf upsertStep ∅ l s) as [seen s1|] eqn:Hloop; [|done].
  intros [= <-]. by apply (upsert_loop_stores _ _ _ _ _ Hloop).
Qed.

Lemma storedInvestor_valid (s : State) (entry : InvestorInput) :
  entryValid s entry →
  ∃ account group amt,
    account_id entry = Some account ∧
    storedInvestor (investors s) entry =
      Some (account, {| groupId := group; totalAllocation := amt;
                        claimed := claimedOf (investors s) account |}) ∧
    group_id entry = Some group ∧ amount entry = Numeral amt.
Proof.
  intros (account & group & amt & Ha & _ & Hg & _ & Hamt & _).
  exists account, group, amt. unfold storedInvestor.
  by rewrite Ha, Hg, Hamt.
Qed.

Lemma storedInvestor_keys_valid (s : State) (l : list InvestorInput) :
  Forall (entryValid s) l →
  (omap (storedInvestor (investors s)) l).*1 = omap account_id l.
Proof.
  induction 1 as [|entry l Hvalid _ IH]; [done|]. simpl.
  destruct (storedInvestor_valid _ _ Hvalid)
    as (account & group & amt & -> & -> & _).
  simpl. by f_equal.
Qed.

(** What a batch that is accepted has stored for each of its entries. *)
Lemma upsert_investors_entry_stored (env : Env) (l : list InvestorInput)
    (s s' : State) (entry : InvestorInput) :
  upsert_investors env l s = Returned tt s' → entry ∈ l →
  ∃ account group amt,
    account_id entry = Some account ∧ group_id entry = Some group ∧
    amount entry = Numeral amt ∧
    claimedOf (investors s) account ≤ amt ∧
    investors s' !! account =
      Some {| groupId := group; totalAllocation := amt;
              claimed := claimedOf (investors s) account |}.
Proof.
  intros Hcall Hin.
  pose proof (upsert_investors_stores _ _ _ _ Hcall) as ->.
  destruct (upsert_investors_returned_valid _ _ _ _ Hcall)
    as (_ & _ & _ & Hall & Hnodup).
  assert (entryValid s entry) as Hvalid by (by eapply Forall_forall in Hall).
  destruct (storedInvestor_valid s entry Hvalid)
    as (account & group & amt & Ha & Hstored & Hg & Hamt).
  exists account, group, amt. split_and!; try done.
  - destruct Hvalid as (a' & g' & amt' & Ha' & _ & _ & _ & Hamt' & _ & _ & Hle).
    congruence.
  - simpl. apply lookup_union_Some_l, elem_of_list_to_map_1.
    + by rewrite storedInvestor_keys_valid.
    + apply list_elem_of_omap. by exists entry.
Qed.

(** C9: an entry of a batch that names an account with a record.  If
    its amount is below what the record has claimed, [upsert_investors]
    fails and the ledger the host keeps is the ledger before the call.
    Otherwise, when the call goes through (the owner calls with no
    deposit and the batch is valid), the record has the entry's group,
    the new amount as [totalAllocation] and the [claimed] it had.  In
    every case, returning or failing, the account's [claimed] after the
    call is what it was before: raising an allocation never lowers
    it. *)
Theorem upsert_investors_existing_account (env : Env)
    (batch : list InvestorInput) (s : State) (entry : InvestorInput)
    (account : string) (r : InvestorRecord) (amt : Z) :
  entry ∈ batch → account_id entry = Some account →
  investors s !! account = Some r → amount entry = Numeral amt →
  (amt < claimed r →
     (∃ e s', upsert_investors env batch s = Threw e s') ∧
     investors (committed s (upsert_investors env batch s)) = investors s) ∧
  (predecessorAccountId env = owner s → attachedDeposit env ≤ 0 →
   batchValid s batch →
     ∃ group,
       group_id entry = Some group ∧ claimed r ≤ amt ∧
       investors (committed s (upsert_investors env batch s)) !! account =
         Some {| groupId := group; totalAllocation := amt;
                 claimed := claimed r |}) ∧
  claimedOf (investors (committed s (upsert_investors env batch s))) account
    = claimed r.
Proof.
  intros Hin Ha Hr Hamt.
  assert (claimedOf (investors s) account = claimed r) as Hclaimed
    by (unfold claimedOf; by rewrite Hr).
  assert (∀ s', upsert_investors env batch s = Returned tt s' →
            ∃ group, group_id entry = Some group ∧ claimed r ≤ amt ∧
              investors s' !! account =
                Some {| groupId := group; totalAllocation := amt;
                        claimed := claimed r |}) as Hstored.
  { intros s' Hrun.
    destruct (upsert_investors_entry_stored _ _ _ _ _ Hrun Hin)
      as (a' & group & amt' & Ha' & Hg & Hamt' & Hle & Hrec).
    assert (a' = account) as -> by congruence.
    assert (amt' = amt) as -> by congruence.
    rewrite Hclaimed in Hle, Hrec. by exists group. }
  split_and!.
  - intros Hbelow.
    destruct (upsert_investors env batch s) as [[] s'|e s'] eqn:Hrun.
    + destruct (Hstored s' eq_refl) as (_ & _ & ? & _). lia.
    + split; [by eauto|done].
  - intros Howner Hfree Hvalid.
    destruct (proj2 (upsert_investors_returns_iff_valid env batch s Howner Hfree)
                Hvalid) as [s' Hrun].
    rewrite Hrun. simpl. by apply Hstored.
  - destruct (upsert_investors env batch s) as [[] s'|e s'] eqn:Hrun; simpl;
      [|done].
    destruct (Hstored s' eq_refl) as (group & _ & _ & Hrec).
    unfold claimedOf. by rewrite Hrec.
Qed.

Lemma upsert_investors_existing_account_witness :
  let env := unpaid_env "owner.near" 160 true in
  let lowered := {| account_id := Some "alice.near"; group_id := Some "seed";
                    amount := Numeral 5000 |} in
  let batch := [ {| account_id := Some "bob.near"; group_id := Some "seed";
                    amount := Numeral 500 |}; lowered ] in
  let s := sample_after_claim in
  let r := {| groupId := "seed"; totalAllocation := 10000; claimed := 5750 |} in
  (5000 < claimed r →
     (∃ e s', upsert_investors env batch s = Threw e s') ∧
     investors (committed s (upsert_investors env batch s)) = investors s) ∧
  (predecessorAccountId env = owner s → attachedDeposit env ≤ 0 →
   batchValid s batch →
     ∃ group,
       group_id lowered = Some group ∧ claimed r ≤ 5000 ∧
       investors (committed s (upsert_investors env batch s)) !! "alice.near" =
         Some {| groupId := group; totalAllocation := 5000;
                 claimed := claimed r |}) ∧
  claimedOf (investors (committed s (upsert_investors env batch s)))
    "alice.near" = claimed r.
Proof.
  intros env lowered batch s r.
  apply (upsert_investors_existing_account env batch s lowered "alice.near" r
           5000); [|reflexivity..].
  apply list_elem_of_further, list_elem_of_here.
Defined.

(** X16: a successful [upsert_investors] writes the batch over the ledger.
    When the call returns, nothing but the ledger has changed; every
    entry's account has a record with the entry's group and amount and
    with the claimed amount it had before the call (zero for a new
    account); and the record of every account the batch does not name
    is as it was. *)
Theorem upsert_investors_merges_batch (env : Env) (l : list InvestorInput)
    (s s' : State) :
  upsert_investors env l s = Returned tt s' →
  s' = set_investors
         (list_to_map (omap (storedInvestor (investors s)) l) ∪ investors s) s ∧
  (∀ entry, entry ∈ l →
     ∃ account group amt,
       account_id entry = Some account ∧ group_id entry = Some group ∧
       amount entry = Numeral amt ∧
       investors s' !! account =
         Some {| groupId := group; totalAllocation := amt;
                 claimed := claimedOf (investors s) account |}) ∧
  (∀ account, account ∉ omap account_id l →
     investors s' !! account = investors s !! account).
Proof.
  intros Hcall.
  pose proof (upsert_investors_stores _ _ _ _ Hcall) as ->.
  destruct (upsert_investors_returned_valid _ _ _ _ Hcall)
    as (_ & _ & _ & Hall & Hnodup).
  split_and!; [done|..]; simpl.
  - intros entry Hin.
    destruct (storedInvestor_valid s entry)
      as (account & group & amt & Ha & Hstored & Hg & Hamt).
    { by eapply Forall_forall in Hall. }
    exists account, group, amt. split_and!; try done.
    apply lookup_union_Some_l, elem_of_list_to_map_1.
    + by rewrite storedInvestor_keys_valid.
    + apply list_elem_of_omap. by exists entry.
  - intros account Hnotin. apply lookup_union_r.
    apply not_elem_of_list_to_map_1. intros Hin.
    by eapply Hnotin, storedInvestor_keys.
Qed.

Lemma upsert_investors_merges_batch_witness :
  let env := unpaid_env "owner.near" 150 true in
  let l := [ {| account_id := Some "alice.near"; group_id := Some "seed";
                amount := Numeral 12000 |};
             {| account_id := Some "bob.near"; group_id := Some "seed";
                amount := Numeral 300 |} ] in
  let s := sample_after_claim in
  let s' := finalState (upsert_investors env l s) in
  s' = set_investors
         (list_to_map (omap (storedInvestor (investors s)) l) ∪ investors s) s ∧
  (∀ entry, entry ∈ l →
     ∃ account group amt,
       account_id entry = Some account ∧ group_id entry = Some group ∧
       amount entry = Numeral amt ∧
       investors s' !! account =
         Some {| groupId := group; totalAllocation := amt;
                 claimed := claimedOf (investors s) account |}) ∧
  (∀ account, account ∉ omap account_id l →
     investors s' !! account = investors s !! account).
Proof.
  intros env l s s'.
  apply (upsert_investors_merges_batch env l s s').
  by vm_compute.
Defined.

(** ** Initialisation and the overlay *)

(** Every way [setGroupsInternal] can return. *)
Lemma setGroupsInternal_stores (l : list GroupConfigInput) (s s' : State) :
  setGroupsInternal l s = Returned tt s' →
  groupsValid l ∧ s' = set_groups (list_to_map (omap storedGroup l)) s.
Proof.
  unfold setGroupsInternal. run.
  case_bool_decide as Hne; [done|].
  destruct (forOf setGroupsStep ∅ l (set_groups ∅ s)) as [seen s1|] eqn:Hloop;
    [|done].
  intros [= <-]. split.
  - destruct (proj1 (setGroups_loop_returns l _ _)
                (ex_intro _ _ (ex_intro _ _ Hloop))) as (Hall & Hnodup & _).
    by split_and!.
  - rewrite (setGroups_loop_stores _ _ _ _ _ Hloop).
    simpl. by rewrite (right_id_L _ _).
Qed.

(** Every way [setInitialClaimConfig] can return. *)
Lemma setInitialClaimConfig_stores (args : InitialClaimConfigInput)
    (s s' : State) :
  setInitialClaimConfig args s = Returned tt s' →
  ∃ basis timestamp,
    storedOverlay args s = Some (basis, timestamp) ∧
    overlayValid basis timestamp ∧
    s' = set_initialClaimAvailableTimestampNs timestamp
           (set_initialClaimBasisPoints basis s).
Proof.
  intros Hcall.
  pose proof (setInitialClaimConfig_outcome args s) as Hout.
  rewrite Hcall in Hout.
  destruct Hout as (basis & timestamp & Hb & Ht & ? & ? & ? & ->).
  exists basis, timestamp. split_and!; try done.
  unfold storedOverlay. by rewrite Hb, Ht.
Qed.

(** Every way [init] can return. *)
Lemma init_returned (env : Env) (o t : option string) (tge : NumArg)
    (gs : list GroupConfigInput) (ic : InitialClaimConfigInput)
    (s s' : State) :
  init env o t tge gs ic s = Returned tt s' →
  owner s = "" ∧ falsyId t = false ∧ falsyNum tge = false ∧ groupsValid gs ∧
  ∃ basis timestamp,
    storedOverlay ic s = Some (basis, timestamp) ∧
    overlayValid basis timestamp ∧
    s' = set_groups (list_to_map (omap storedGroup gs))
           (set_initialClaimAvailableTimestampNs timestamp
              (set_initialClaimBasisPoints basis
                 (set_tgeTimestampNs tge
                    (set_tokenAccountId (default "" t)
                       (set_owner (default (predecessorAccountId env) o) s))))).
Proof.
  unfold init. run.
  case_bool_decide as Howner; [done|].
  destruct (falsyId t) eqn:Ht; [done|].
  destruct (falsyNum tge) eqn:Htge; [done|]. simpl.
  set (s0 := set_tgeTimestampNs tge _).
  destruct (setInitialClaimConfig ic s0) as [[] s1|] eqn:Hic; [|done].
  intros Hgroups.
  destruct (setInitialClaimConfig_stores _ _ _ Hic)
    as (basis & timestamp & Hstored & Hvalid & ->).
  destruct (setGroupsInternal_stores _ _ _ Hgroups) as [Hgs ->].
  split_and!; try done. by exists basis, timestamp.
Qed.

(** X17: what [init] requires and what it leaves.  When [init] returns,
    the contract had no owner, a non-empty token account and a non-empty
    TGE timestamp were given, the group list was valid and the overlay
    within its ranges; the owner is the one given, or the caller if none
    was given; the token account and the TGE timestamp are stored as
    given; the registry holds exactly the listed groups; and the ledger
    and the pool counters are as they were. *)
Theorem init_establishes (env : Env) (o t : option string) (tge : NumArg)
    (gs : list GroupConfigInput) (ic : InitialClaimConfigInput)
    (s s' : State) :
  init env o t tge gs ic s = Returned tt s' →
  owner s = "" ∧ falsyId t = false ∧ falsyNum tge = false ∧ groupsValid gs ∧
  ∃ basis timestamp,
    storedOverlay ic s = Some (basis, timestamp) ∧
    overlayValid basis timestamp ∧
    s' = set_groups (list_to_map (omap storedGroup gs))
           (set_initialClaimAvailableTimestampNs timestamp
              (set_initialClaimBasisPoints basis
                 (set_tgeTimestampNs tge
                    (set_tokenAccountId (default "" t)
                       (set_owner (default (predecessorAccountId env) o) s))))).
Proof. apply init_returned. Qed.

Lemma init_establishes_witness :
  let env := unpaid_env "owner.near" 10 true in
  let gs := [ {| id := Some "seed"; cliff_duration_ns := Numeral 100;
                 vesting_duration_ns := Numeral 100;
                 initial_unlock_basis_points := Numeral 1000 |} ] in
  let ic := {| initial_claim_basis_points := Numeral 500;
               initial_claim_available_timestamp_ns := Numeral 10 |} in
  owner fresh = "" ∧ falsyId (Some "token.near") = false ∧
  falsyNum (Numeral 0) = false ∧ groupsValid gs ∧
  ∃ basis timestamp,
    storedOverlay ic fresh = Some (basis, timestamp) ∧
    overlayValid basis timestamp ∧
    finalState (init env None (Some "token.near") (Numeral 0) gs ic fresh) =
      set_groups (list_to_map (omap storedGroup gs))
        (set_initialClaimAvailableTimestampNs timestamp
           (set_initialClaimBasisPoints basis
              (set_tgeTimestampNs (Numeral 0)
                 (set_tokenAccountId (default "" (Some "token.near"))
                    (set_owner (default (predecessorAccountId env) None)
                       fresh))))).
Proof.
  intros env gs ic.
  apply (init_establishes env None (Some "token.near") (Numeral 0) gs ic fresh).
  reflexivity.
Defined.

(** X18: [init] stores the TGE timestamp without reading it as a number.
    A timestamp that is not a numeral passes [init]; in the state [init]
    leaves, the calculator throws at every call, for every allocation,
    group and time. *)
Theorem init_keeps_unparsable_tge (env : Env) (o t : option string)
    (gs : list GroupConfigInput) (ic : InitialClaimConfigInput)
    (s s' : State) :
  init env o t Malformed gs ic s = Returned tt s' →
  tgeTimestampNs s' = Malformed ∧
  ∀ total group now,
    computeVestedAmount total group now s' = Threw BigIntSyntaxError s'.
Proof.
  intros Hinit.
  destruct (init_returned env o t Malformed gs ic s s' Hinit)
    as (_ & _ & _ & _ & basis & timestamp & _ & _ & ->).
  split; [done|]. intros total group now.
  unfold computeVestedAmount. by run.
Qed.

Lemma init_keeps_unparsable_tge_witness :
  let env := unpaid_env "owner.near" 10 true in
  let gs := [ {| id := Some "seed"; cliff_duration_ns := Numeral 100;
                 vesting_duration_ns := Numeral 100;
                 initial_unlock_basis_points := Numeral 1000 |} ] in
  let ic := {| initial_claim_basis_points := Undefined;
               initial_claim_available_timestamp_ns := Undefined |} in
  let s' := finalState (init env None (Some "token.near") Malformed gs ic fresh) in
  tgeTimestampNs s' = Malformed ∧
  ∀ total group now,
    computeVestedAmount total group now s' = Threw BigIntSyntaxError s'.
Proof.
  intros env gs ic s'.
  apply (init_keeps_unparsable_tge env None (Some "token.near") gs ic fresh s').
  reflexivity.
Defined.

(** X19: what [configure_initial_claim] requires and what it leaves.  The
    call returns only for the owner and with at least one of the two
    fields given; the values then stored are within the ranges checked,
    a field left out keeps the value stored before, and nothing but the
    overlay changes. *)
Theorem configure_initial_claim_returns (env : Env)
    (args : option InitialClaimConfigInput) (s s' : State) :
  configure_initial_claim env args s = Returned tt s' →
  predecessorAccountId env = owner s ∧
  ∃ a basis timestamp,
    args = Some a ∧
    ¬ (initial_claim_basis_points a = Undefined ∧
       initial_claim_available_timestamp_ns a = Undefined) ∧
    storedOverlay a s = Some (basis, timestamp) ∧
    overlayValid basis timestamp ∧
    (initial_claim_basis_points a = Undefined →
       basis = initialClaimBasisPoints s) ∧
    (initial_claim_available_timestamp_ns a = Undefined →
       timestamp = initialClaimAvailableTimestampNs s) ∧
    s' = set_initialClaimAvailableTimestampNs timestamp
           (set_initialClaimBasisPoints basis s).
Proof.
  unfold configure_initial_claim. rewrite call_public.
  destruct (attachedDeposit env >? 0); [done|].
  unfold assertOwner. run.
  case_bool_decide as Howner; [done|].
  destruct args as [a|]; [|done].
  intros Hcall. split; [done|].
  assert (¬ (initial_claim_basis_points a = Undefined ∧
             initial_claim_available_timestamp_ns a = Undefined) ∧
          setInitialClaimConfig a s = Returned tt s') as [Hgiven Hset].
  { destruct (initial_claim_basis_points a) eqn:Hb,
      (initial_claim_available_timestamp_ns a) eqn:Ht;
      try done; (split; [by intros [? ?]|done]). }
  destruct (setInitialClaimConfig_stores _ _ _ Hset)
    as (basis & timestamp & Hstored & Hvalid & ->).
  exists a, basis, timestamp. split_and!; try done.
  - intros Hb. unfold storedOverlay in Hstored. rewrite Hb in Hstored.
    simpl in Hstored. by simplify_option_eq.
  - intros Ht. unfold storedOverlay in Hstored. rewrite Ht in Hstored.
    destruct (parsed (emptyAsZero (orElse (initial_claim_basis_points a) _)));
      simpl in Hstored; by simplify_option_eq.
Qed.

Lemma configure_initial_claim_returns_witness :
  let env := unpaid_env "owner.near" 150 true in
  let a := {| initial_claim_basis_points := Numeral 2500;
              initial_claim_available_timestamp_ns := Undefined |} in
  let s' := set_initialClaimBasisPoints 2500 sample_state in
  predecessorAccountId env = owner sample_state ∧
  ∃ a' basis timestamp,
    Some a = Some a' ∧
    ¬ (initial_claim_basis_points a' = Undefined ∧
       initial_claim_available_timestamp_ns a' = Undefined) ∧
    storedOverlay a' sample_state = Some (basis, timestamp) ∧
    overlayValid basis timestamp ∧
    (initial_claim_basis_points a' = Undefined →
       basis = initialClaimBasisPoints sample_state) ∧
    (initial_claim_available_timestamp_ns a' = Undefined →
       timestamp = initialClaimAvailableTimestampNs sample_state) ∧
    s' = set_initialClaimAvailableTimestampNs timestamp
           (set_initialClaimBasisPoints basis sample_state).
Proof.
  intros env a s'.
  apply (configure_initial_claim_returns env (Some a) sample_state s').
  reflexivity.
Defined.



(** ** The two validations, as theorems of their own *)

(** X21: [upsert_investors] returns exactly when the caller is the
    owner, no deposit is attached and the batch is valid: not empty,
    every entry with an account, a group known to the registry and an
    amount that is positive and not below what the account has claimed,
    and no account twice.  In every other case it throws. *)
Theorem upsert_investors_accepts_exactly_valid (env : Env)
    (batch : list InvestorInput) (s : State) :
  (∃ s', upsert_investors env batch s = Returned tt s') ↔
  predecessorAccountId env = owner s ∧ attachedDeposit env ≤ 0 ∧
  batchValid s batch.
Proof.
  split.
  - intros [s' Hrun]. by apply (upsert_investors_returned_valid env batch s s').
  - intros (Howner & Hfree & Hvalid).
    by apply (upsert_investors_returns_iff_valid env batch s Howner Hfree).
Qed.

(** X22: [configure_groups] returns exactly when the caller is the owner,
    no deposit is attached and the list is valid: not empty, every entry
    with an id, durations that are not negative and basis points within
    [0, 10000], and no id twice.  In every other case it throws. *)
Theorem configure_groups_accepts_exactly_valid (env : Env)
    (l : list GroupConfigInput) (s : State) :
  (∃ s', configure_groups env l s = Returned tt s') ↔
  predecessorAccountId env = owner s ∧ attachedDeposit env ≤ 0 ∧
  groupsValid l.
Proof.
  split.
  - intros [s' Hrun]. by apply (configure_groups_returned_valid env l s s').
  - intros (Howner & Hfree & Hvalid).
    by apply (configure_groups_returns_iff_valid env l s Howner Hfree).
Qed.

Lemma upsert_investors_accepts_exactly_valid_witness :
  let env := unpaid_env "owner.near" 150 true in
  let batch := [ {| account_id := Some "bob.near"; group_id := Some "seed";
                    amount := Numeral 300 |} ] in
  (∃ s', upsert_investors env batch sample_state = Returned tt s') ↔
  predecessorAccountId env = owner sample_state ∧ attachedDeposit env ≤ 0 ∧
  batchValid sample_state batch.
Proof.
  intros env batch.
  apply (upsert_investors_accepts_exactly_valid env batch sample_state).
Defined.

Lemma configure_groups_accepts_exactly_valid_witness :
  let env := unpaid_env "owner.near" 150 true in
  let l := [ {| id := Some "team"; cliff_duration_ns := Numeral 5;
                vesting_duration_ns := EmptyStr;
                initial_unlock_basis_points := Undefined |} ] in
  (∃ s', configure_groups env l sample_state = Returned tt s') ↔
  predecessorAccountId env = owner sample_state ∧ attachedDeposit env ≤ 0 ∧
  groupsValid l.
Proof.
  intros env l.
  apply (configure_groups_accepts_exactly_valid env l sample_state).
Defined.

(** ** The calculator against its earlier version *)

(** X23: without overlay and without unlock at the cliff the calculator
    is the one of the earlier version.  For an allocation that is not
    negative, on a contract whose initial-claim basis points are zero
    and for a group whose unlock basis points are zero,
    [computeVestedAmount] gives what the earlier calculator gives for
    the same TGE timestamp, cliff and vesting duration: the same value
    or the same error. *)
Theorem computeVestedAmount_extends_legacy (s : State) (old : Legacy.State)
    (group : GroupConfigStored) (oldGroup : Legacy.GroupConfigStored)
    (total timestamp : Z) :
  0 ≤ total →
  initialClaimBasisPoints s = 0 →
  initialUnlockBasisPoints group = 0 →
  Legacy.tgeTimestampNs old = tgeTimestampNs s →
  Legacy.cliffDurationNs oldGroup = cliffDurationNs group →
  Legacy.vestingDurationNs oldGroup = vestingDurationNs group →
  resultOf (computeVestedAmount total group timestamp s)
  = Legacy.computeVestedAmount old total oldGroup timestamp.
Proof.
  intros Htotal Hbasis Hunlock Htge Hcliff Hvesting.
  unfold computeVestedAmount, Legacy.computeVestedAmount,
    BASIS_POINTS_DENOMINATOR. run.
  rewrite Htge, Hcliff, Hvesting, Hbasis, Hunlock, !Z.mul_0_r.
  change (0 ÷ 10000) with 0.
  destruct (tgeTimestampNs s) as [| | |start]; simpl; try done.
  all: replace (0 >? total) with false by lia.
  all: rewrite Z.sub_0_r; replace (0 >? total) with false by lia.
  all: rewrite Z.sub_0_r.
  all: assert (∀ b : bool, (if b then 0 else 0) = 0) as Hif by (by intros []).
  all: rewrite !Hif; replace (0 >? total) with false by lia.
  all: destruct (timestamp <? _ + cliffDurationNs group) eqn:Hbefore; [done|].
  all: destruct (vestingDurationNs group =? 0) eqn:Hzero; [done|].
  all: destruct (_ >=? vestingDurationNs group) eqn:Hdone; [done|].
  all: simpl; f_equal; rewrite cap_min.
  all: match goal with |- Z.min ?x _ = _ =>
         assert (0 ≤ x ≤ total) by (apply quot_fraction_bounds; lia) end; lia.
Qed.

Lemma computeVestedAmount_extends_legacy_witness :
  let s := set_tgeTimestampNs (Numeral 1000) fresh in
  let old := {| Legacy.owner := "owner.near"; Legacy.tokenAccountId := "token.near";
                Legacy.tgeTimestampNs := Numeral 1000;
                Legacy.totalDeposited := 0; Legacy.totalClaimed := 0;
                Legacy.totalWithdrawn := 0; Legacy.poolBalance := 0;
                Legacy.groups := ∅; Legacy.investors := ∅ |} in
  let group := {| cliffDurationNs := 100; vestingDurationNs := 400;
                  initialUnlockBasisPoints := 0 |} in
  let oldGroup := {| Legacy.cliffDurationNs := 100;
                     Legacy.vestingDurationNs := 400 |} in
  resultOf (computeVestedAmount 1000 group 1201 s)
  = Legacy.computeVestedAmount old 1000 oldGroup 1201.
Proof.
  intros s old group oldGroup.
  apply (computeVestedAmount_extends_legacy s old group oldGroup 1000 1201);
    try reflexivity. lia.
Defined.

(** ** The views around a claim *)

(** X24: a claim pays what [get_claimable] reports.  When [claim] returns
    for a claimant with a non-empty name, the amount of the transfer is
    the one [get_claimable] gives for the claimant in the same block;
    afterwards [get_investor] shows the claimed amount increased by it
    and [get_claimable], asked in that block, gives zero. *)
Theorem claim_pays_what_get_claimable_reports (env : Env)
    (account_arg : option string) (s s' : State) (p : NearPromise) :
  claim env account_arg s = Returned p s' →
  default (predecessorAccountId env) account_arg ≠ "" →
  let claimant := default (predecessorAccountId env) account_arg in
  ∃ c r,
    get_claimable env (Some claimant) s = Returned c s ∧
    transfer_amount p = Numeral c ∧
    get_investor (Some claimant) s = Returned (Some r) s ∧
    get_investor (Some claimant) s' =
      Returned (Some {| groupId := groupId r;
                        totalAllocation := totalAllocation r;
                        claimed := claimed r + c |}) s' ∧
    get_claimable env (Some claimant) s' = Returned 0 s'.
Proof.
  intros Hclaim Hne claimant.
  destruct (claim_returned _ _ _ _ _ Hclaim)
    as (record & c & _ & _ & Hrec & Hc & _ & Hs' & ->).
  destruct (claim_settles_vested _ _ _ _ _ Hclaim)
    as (r & g & v1 & Hr & _ & Hv1 & _ & Hlater).
  destruct (Hlater (blockTimestamp env)) as (v2 & Hv2 & Hzero).
  assert (v2 = v1) as -> by congruence.
  replace (Z.max 0 (v1 - v1)) with 0 in Hzero by lia.
  fold claimant in Hrec, Hc, Hs', Hzero.
  exists c, record. unfold get_claimable, get_investor. run. simpl.
  rewrite bool_decide_eq_false_2 by done. simpl.
  rewrite Hc, Hzero, Hrec. split_and!; try done.
  rewrite Hs'. unfold claimDebit. simpl. by rewrite lookup_insert_eq.
Qed.

Lemma claim_pays_what_get_claimable_reports_witness :
  let env := sample_env "alice.near" 150 true in
  let p := {| receiver_id := "alice.near"; transfer_amount := Numeral 5750;
              memo := "vesting-claim";
              callback := on_claim_complete_args "alice.near" (Numeral 5750) |} in
  ∃ c r,
    get_claimable env (Some "alice.near") sample_state = Returned c sample_state ∧
    transfer_amount p = Numeral c ∧
    get_investor (Some "alice.near") sample_state
      = Returned (Some r) sample_state ∧
    get_investor (Some "alice.near") sample_after_claim =
      Returned (Some {| groupId := groupId r;
                        totalAllocation := totalAllocation r;
                        claimed := claimed r + c |}) sample_after_claim ∧
    get_claimable env (Some "alice.near") sample_after_claim
      = Returned 0 sample_after_claim.
Proof.
  intros env p.
  apply (claim_pays_what_get_claimable_reports env None sample_state
           sample_after_claim p); [reflexivity | done].
Defined.

(** ** The token *)

Ltac run_token :=
  cbv beta iota zeta delta
    [mbind MockFT.M_bind mret MockFT.M_ret MockFT.throw MockFT.this
     MockFT.update MockFT.throwIf MockFT.BigInt MockFT.finalState].

(** The wrapper of a private function of the token. *)
Lemma token_call_private {A} (env : MockFT.Env) (method : MockFT.M A)
    (s : MockFT.State) :
  MockFT.call env true false method s =
    if bool_decide (MockFT.predecessorAccountId env ≠ MockFT.currentAccountId env)
    then MockFT.Threw MockFT.FunctionIsPrivate s
    else if MockFT.attachedDeposit env >? 0
         then MockFT.Threw MockFT.FunctionIsNotPayable s
         else method s.
Proof.
  unfold MockFT.call. run_token. simpl.
  destruct (bool_decide _); [done|].
  by destruct (MockFT.attachedDeposit env >? 0).
Qed.

Lemma setMember_own (k : string) (v : Z) (o : gmap string Z) :
  is_Some (o !! k) → MockFT.setMember k v o = <[k := v]> o.
Proof.
  intros [z Hz]. unfold MockFT.setMember.
  rewrite (bool_decide_eq_false_2 (o !! k = None)) by (by rewrite Hz).
  by rewrite andb_false_r.
Qed.

Lemma setMember_missing (k : string) (v : Z) (o : gmap string Z) :
  MockFT.getMember k o = MockFT.Missing → MockFT.setMember k v o = <[k := v]> o.
Proof.
  unfold MockFT.getMember, MockFT.setMember.
  destruct (o !! k); [done|].
  destruct (MockFT.inherited k) eqn:Hin; [done|]. intros _.
  rewrite (bool_decide_eq_false_2 (k = "__proto__")); [done|].
  intros ->. by vm_compute in Hin.
Qed.

(** Writing a key changes the total by the difference it makes to that
    key, or not at all. *)
Lemma setMember_total (k : string) (v : Z) (o : gmap string Z) :
  sumOver (λ z, z) (MockFT.setMember k v o) = sumOver (λ z, z) o ∨
  sumOver (λ z, z) (MockFT.setMember k v o)
    = sumOver (λ z, z) o - default 0 (o !! k) + v.
Proof.
  unfold MockFT.setMember. destruct (_ && _); [by left|]. right.
  rewrite sumOver_insert. by destruct (o !! k).
Qed.

(** Every way [getBalance] can end: it returns the balance read, and
    the account is then a key of the object; or the name was one of the
    prototype and nothing was written. *)
Lemma getBalance_outcome (account : string) (s : MockFT.State) :
  match MockFT.getBalance account s with
  | MockFT.Returned z s' =>
      z = MockFT.balanceOf s account ∧
      s' = MockFT.set_balances (<[account := z]> (MockFT.balances s)) s
  | MockFT.Threw e s' =>
      s' = s ∧ MockFT.balances s !! account = None
  end.
Proof.
  unfold MockFT.getBalance, MockFT.balanceOf. run_token.
  destruct (MockFT.getMember account (MockFT.balances s)) as [z| |] eqn:Hm.
  - unfold MockFT.getMember in Hm.
    destruct (MockFT.balances s !! account) as [z'|] eqn:Hz;
      [|by destruct (MockFT.inherited account)].
    injection Hm as ->. split; [done|].
    rewrite insert_id by done. by destruct s.
  - split; [done|]. unfold MockFT.getMember in Hm.
    by destruct (MockFT.balances s !! account).
  - rewrite setMember_missing by done.
    unfold MockFT.getMember in Hm.
    by destruct (MockFT.balances s !! account).
Qed.

(** Every way [internalTransfer] can return. *)
Lemma internalTransfer_returned (sender receiver : string) (amount : Z)
    (s s' : MockFT.State) :
  MockFT.internalTransfer sender receiver amount s = MockFT.Returned tt s' →
  sender ≠ receiver ∧ amount ≤ MockFT.balanceOf s sender ∧
  s' = MockFT.set_balances
         (<[receiver := MockFT.balanceOf s receiver + amount]>
            (<[sender := MockFT.balanceOf s sender - amount]>
               (MockFT.balances s))) s.
Proof.
  unfold MockFT.internalTransfer, MockFT.setBalance. run_token.
  case_bool_decide as Hself; [done|].
  pose proof (getBalance_outcome sender s) as Hs.
  destruct (MockFT.getBalance sender s) as [bs s1|]; [|done].
  destruct Hs as [-> ->].
  destruct (_ <? amount) eqn:Hlow; [done|]. simpl.
  rewrite setMember_own by (rewrite lookup_insert_eq; by eexists).
  rewrite insert_insert_eq.
  match goal with |- context [MockFT.getBalance receiver ?s2] =>
    pose proof (getBalance_outcome receiver s2) as Hr;
    destruct (MockFT.getBalance receiver s2) as [br s3|]; [|done] end.
  destruct Hr as [-> ->]. simpl.
  rewrite setMember_own by (rewrite lookup_insert_eq; by eexists).
  rewrite insert_insert_eq.
  intros [= <-]. split_and!; [done|lia|].
  unfold MockFT.balanceOf at 1. simpl.
  by rewrite lookup_insert_ne by done.
Qed.

(** A transfer that returns leaves the total as it was. *)
Lemma transfer_total (m : gmap string Z) (sender receiver : string) (amount : Z) :
  sender ≠ receiver →
  sumOver (λ z, z)
    (<[receiver := default 0 (m !! receiver) + amount]>
       (<[sender := default 0 (m !! sender) - amount]> m))
  = sumOver (λ z, z) m.
Proof.
  intros Hne. rewrite !sumOver_insert, lookup_insert_ne by done.
  destruct (m !! receiver), (m !! sender); simpl; lia.
Qed.

(** Every way [internalTransfer] can throw: nothing was written but a
    zero for the sender; or the sender was debited and the receiver's
    name is one of the prototype. *)
Lemma internalTransfer_threw (sender receiver : string) (amount : Z)
    (s s' : MockFT.State) (e : MockFT.Error) :
  MockFT.internalTransfer sender receiver amount s = MockFT.Threw e s' →
  s' = s ∨
  s' = MockFT.set_balances (<[sender := MockFT.balanceOf s sender]>
                              (MockFT.balances s)) s ∨
  (amount ≤ MockFT.balanceOf s sender ∧ sender ≠ receiver ∧
   s' = MockFT.set_balances (<[sender := MockFT.balanceOf s sender - amount]>
                               (MockFT.balances s)) s).
Proof.
  unfold MockFT.internalTransfer, MockFT.setBalance. run_token.
  case_bool_decide as Hself; [intros [= _ <-]; by left|].
  pose proof (getBalance_outcome sender s) as Hs.
  destruct (MockFT.getBalance sender s) as [bs s1|e1 s1];
    [|destruct Hs as [-> _]; intros [= _ <-]; by left].
  destruct Hs as [-> ->].
  destruct (_ <? amount) eqn:Hlow; [intros [= _ <-]; right; by left|]. simpl.
  rewrite setMember_own by (rewrite lookup_insert_eq; by eexists).
  rewrite insert_insert_eq.
  match goal with |- context [MockFT.getBalance receiver ?s2] =>
    pose proof (getBalance_outcome receiver s2) as Hr;
    destruct (MockFT.getBalance receiver s2) as [br s3|e3 s3]; [done|] end.
  destruct Hr as [-> _]. intros [= _ <-]. right; right.
  split_and!; [lia|done|done].
Qed.

(** What a transfer that has returned has done to the balances. *)
Lemma internalTransfer_effect (sender receiver : string) (amount : Z)
    (s s' : MockFT.State) :
  MockFT.internalTransfer sender receiver amount s = MockFT.Returned tt s' →
  sender ≠ receiver ∧ amount ≤ MockFT.balanceOf s sender ∧
  MockFT.balanceOf s' sender = MockFT.balanceOf s sender - amount ∧
  MockFT.balanceOf s' receiver = MockFT.balanceOf s receiver + amount ∧
  (∀ other, other ≠ sender → other ≠ receiver →
     MockFT.balances s' !! other = MockFT.balances s !! other) ∧
  MockFT.held s' = MockFT.held s ∧
  MockFT.totalSupply s' = MockFT.totalSupply s ∧
  MockFT.ownerId s' = MockFT.ownerId s.
Proof.
  intros (Hne & Hle & ->)%internalTransfer_returned.
  unfold MockFT.balanceOf, MockFT.held. simpl. split_and!; try done.
  - by rewrite lookup_insert_ne, lookup_insert_eq by done.
  - by rewrite lookup_insert_eq.
  - intros other Hs Hr. by rewrite !lookup_insert_ne by done.
  - by apply transfer_total.
Qed.

(** X25: what [ft_transfer] does when it returns.  Exactly one yocto was
    attached and the amount is a positive numeral the caller could
    cover; the caller's balance has decreased and the receiver's has
    increased by it, the receiver is not the caller, no other balance
    has changed, and neither the total held nor the total supply has. *)
Theorem ft_transfer_moves_amount (env : MockFT.Env) (receiver_id : string)
    (amount : NumArg) (s s' : MockFT.State) :
  MockFT.ft_transfer env receiver_id amount s = MockFT.Returned tt s' →
  let sender := MockFT.predecessorAccountId env in
  MockFT.attachedDeposit env = ONE_YOCTO ∧
  ∃ a, amount = Numeral a ∧ 0 < a ≤ MockFT.balanceOf s sender ∧
       sender ≠ receiver_id ∧
       MockFT.balanceOf s' sender = MockFT.balanceOf s sender - a ∧
       MockFT.balanceOf s' receiver_id = MockFT.balanceOf s receiver_id + a ∧
       (∀ other, other ≠ sender → other ≠ receiver_id →
          MockFT.balances s' !! other = MockFT.balances s !! other) ∧
       MockFT.held s' = MockFT.held s ∧
       MockFT.totalSupply s' = MockFT.totalSupply s.
Proof.
  unfold MockFT.ft_transfer, MockFT.assertOneYocto. run_token.
  case_bool_decide as Hyocto; [done|].
  destruct amount as [| | |a]; simpl; try done.
  destruct (a <=? 0) eqn:Hpos; [done|].
  intros (? & ? & ? & ? & ? & ? & ? & _)%internalTransfer_effect.
  split; [done|]. exists a. split_and!; try done; lia.
Qed.

Lemma ft_transfer_moves_amount_witness :
  let env := {| MockFT.predecessorAccountId := "vesting.near";
                MockFT.currentAccountId := "token.near";
                MockFT.attachedDeposit := 1;
                MockFT.promiseResult := MockFT.PromiseFailed |} in
  let s := MockFT.set_balances {[ "vesting.near" := 20000 ]} MockFT.fresh in
  let s' := MockFT.finalState
              (MockFT.ft_transfer env "alice.near" (Numeral 5750) s) in
  MockFT.attachedDeposit env = ONE_YOCTO ∧
  ∃ a, Numeral 5750 = Numeral a ∧
       0 < a ≤ MockFT.balanceOf s "vesting.near" ∧
       "vesting.near" ≠ "alice.near" ∧
       MockFT.balanceOf s' "vesting.near"
         = MockFT.balanceOf s "vesting.near" - a ∧
       MockFT.balanceOf s' "alice.near" = MockFT.balanceOf s "alice.near" + a ∧
       (∀ other, other ≠ "vesting.near" → other ≠ "alice.near" →
          MockFT.balances s' !! other = MockFT.balances s !! other) ∧
       MockFT.held s' = MockFT.held s ∧
       MockFT.totalSupply s' = MockFT.totalSupply s.
Proof.
  intros env s s'.
  apply (ft_transfer_moves_amount env "alice.near" (Numeral 5750) s s').
  by vm_compute.
Defined.

(** X26: what [ft_resolve_transfer] does when it returns.  It was called
    by the token itself; the amount it reports as used is never
    negative; what it has moved back from the receiver to the sender is
    the rest of the amount transferred, if there is a rest, and the
    total held is as before.  When the receiver's [ft_on_transfer]
    has returned zero, as the one of the vesting contract does, the state
    is untouched and (the amount not being negative) the whole amount is
    used; when the receiver's call has failed, nothing is used. *)
Theorem ft_resolve_transfer_refunds_unused (env : MockFT.Env)
    (sender_id receiver_id : string) (amount : NumArg)
    (s s' : MockFT.State) (used : Z) :
  MockFT.ft_resolve_transfer env sender_id receiver_id amount s
    = MockFT.Returned used s' →
  MockFT.predecessorAccountId env = MockFT.currentAccountId env ∧
  ∃ a, parsed amount = Some a ∧ 0 ≤ used ∧
       MockFT.balanceOf s' sender_id
         = MockFT.balanceOf s sender_id + Z.max 0 (a - used) ∧
       MockFT.balanceOf s' receiver_id
         = MockFT.balanceOf s receiver_id - Z.max 0 (a - used) ∧
       MockFT.held s' = MockFT.held s ∧
       (MockFT.promiseResult env = MockFT.Amount 0 →
          s' = s ∧ (0 ≤ a → used = a)) ∧
       (MockFT.promiseResult env = MockFT.PromiseFailed → used = 0).
Proof.
  unfold MockFT.ft_resolve_transfer. rewrite token_call_private.
  case_bool_decide as Hprivate; [done|].
  destruct (MockFT.attachedDeposit env >? 0); [done|].
  unfold MockFT.assertSelf. run_token.
  case_bool_decide as Hself; [done|].
  assert (∃ a, parsed amount = Some a ∧
               MockFT.BigInt amount s = MockFT.Returned a s ∨
               ∃ e, MockFT.BigInt amount s = MockFT.Threw e s) as Hparse.
  { destruct amount; simpl; unfold MockFT.BigInt; run_token;
      first [by exists 0; right; eexists | eexists; left; by split]. }
  destruct Hparse as (a & [[Ha Hbig]|[e Hbig]]);
    unfold MockFT.BigInt in Hbig; revert Hbig; run_token; intros ->; [|done].
  set (unused0 := match MockFT.promiseResult env with
                  | MockFT.Amount z => z | _ => a end).
  rewrite cap_min.
  destruct (Z.min unused0 a >? 0) eqn:Hpos.
  - destruct (MockFT.internalTransfer receiver_id sender_id (Z.min unused0 a) s)
      as [[] s1|] eqn:Htransfer; [|done].
    intros [= <- <-].
    destruct (internalTransfer_effect _ _ _ _ _ Htransfer)
      as (Hne & Hle & Hr & Hs & _ & Hheld & _).
    split; [done|]. exists a. split_and!; try done; try lia.
    + intros Hzero. subst unused0. rewrite Hzero in Hpos. lia.
    + intros Hfailed. subst unused0. rewrite Hfailed. lia.
  - intros [= <- <-]. split; [done|]. exists a.
    replace (Z.max 0 (a - (a - Z.min unused0 a))) with 0 by lia.
    split_and!; try done; try lia.
    + intros Hzero. subst unused0. rewrite Hzero in *. split; [done|lia].
    + intros Hfailed. subst unused0. rewrite Hfailed in *. lia.
Qed.

Lemma ft_resolve_transfer_refunds_unused_witness :
  let env := {| MockFT.predecessorAccountId := "token.near";
                MockFT.currentAccountId := "token.near";
                MockFT.attachedDeposit := 0;
                MockFT.promiseResult := MockFT.Amount 300 |} in
  let s := MockFT.set_balances {[ "vesting.near" := 20000 ]} MockFT.fresh in
  let s' := MockFT.set_balances
              {[ "vesting.near" := 19700; "owner.near" := 300 ]} MockFT.fresh in
  MockFT.predecessorAccountId env = MockFT.currentAccountId env ∧
  ∃ a, parsed (Numeral 1000) = Some a ∧ 0 ≤ 700 ∧
       MockFT.balanceOf s' "owner.near"
         = MockFT.balanceOf s "owner.near" + Z.max 0 (a - 700) ∧
       MockFT.balanceOf s' "vesting.near"
         = MockFT.balanceOf s "vesting.near" - Z.max 0 (a - 700) ∧
       MockFT.held s' = MockFT.held s ∧
       (MockFT.promiseResult env = MockFT.Amount 0 →
          s' = s ∧ (0 ≤ a → 700 = a)) ∧
       (MockFT.promiseResult env = MockFT.PromiseFailed → 700 = 0).
Proof.
  intros env s s'.
  apply (ft_resolve_transfer_refunds_unused env "owner.near" "vesting.near"
           (Numeral 1000) s s' 700).
  by vm_compute.
Defined.

(** *** No tokens from nowhere *)

Lemma sound_set_balances (s : MockFT.State) (m : gmap string Z) :
  MockFT.sound s →
  (∀ k z, m !! k = Some z → 0 ≤ z) →
  sumOver (λ z, z) m ≤ MockFT.held s →
  MockFT.sound (MockFT.set_balances m s).
Proof.
  intros (Hsolvent & Hheld & Howner) Hm Hsum.
  unfold MockFT.sound, MockFT.solventBalances, MockFT.held in *. simpl.
  split_and!; [done|lia|done].
Qed.

Lemma solvent_insert (m : gmap string Z) (k : string) (v : Z) :
  0 ≤ v → (∀ k' z, m !! k' = Some z → 0 ≤ z) →
  ∀ k' z, <[k := v]> m !! k' = Some z → 0 ≤ z.
Proof.
  intros Hv Hm k' z. destruct (decide (k' = k)) as [->|Hne].
  - rewrite lookup_insert_eq. by intros [= <-].
  - rewrite lookup_insert_ne by done. apply Hm.
Qed.

Lemma solvent_balanceOf (s : MockFT.State) (account : string) :
  MockFT.solventBalances s → 0 ≤ MockFT.balanceOf s account.
Proof.
  intros Hs. unfold MockFT.balanceOf.
  destruct (MockFT.balances s !! account) as [z|] eqn:Hz; simpl; [|done].
  by apply (Hs account).
Qed.

(** Registering an account, or reading its balance, keeps the token
    sound. *)
Lemma sound_register (s : MockFT.State) (account : string) :
  MockFT.sound s →
  MockFT.sound (MockFT.set_balances
                  (<[account := MockFT.balanceOf s account]> (MockFT.balances s)) s).
Proof.
  intros Hs. pose proof Hs as (Hsolvent & _).
  apply sound_set_balances; [done|..].
  - apply solvent_insert; [by apply solvent_balanceOf|done].
  - unfold MockFT.held, MockFT.balanceOf. rewrite sumOver_insert.
    destruct (MockFT.balances s !! account); simpl; lia.
Qed.

Lemma getBalance_sound (account : string) (s : MockFT.State) :
  MockFT.sound s → MockFT.sound (MockFT.finalState (MockFT.getBalance account s)).
Proof.
  intros Hs. pose proof (getBalance_outcome account s) as Hout.
  destruct (MockFT.getBalance account s) as [z s'|e s']; simpl.
  - destruct Hout as [-> ->]. by apply sound_register.
  - by destruct Hout as [-> _].
Qed.

Lemma internalTransfer_sound (sender receiver : string) (amount : Z)
    (s : MockFT.State) :
  0 ≤ amount → MockFT.sound s →
  MockFT.sound (MockFT.finalState (MockFT.internalTransfer sender receiver amount s)).
Proof.
  intros Hamount Hs. pose proof Hs as (Hsolvent & _).
  destruct (MockFT.internalTransfer sender receiver amount s) as [[] s'|e s']
    eqn:Hrun; simpl.
  - apply internalTransfer_returned in Hrun as (Hne & Hle & ->).
    apply sound_set_balances; [done|..].
    + apply solvent_insert.
      { pose proof (solvent_balanceOf s receiver Hsolvent). lia. }
      apply solvent_insert; [lia|done].
    + unfold MockFT.balanceOf, MockFT.held. by rewrite transfer_total.
  - apply internalTransfer_threw in Hrun
      as [->|[->|(Hle & Hne & ->)]]; [done|by apply sound_register|].
    apply sound_set_balances; [done|..].
    + apply solvent_insert; [lia|done].
    + unfold MockFT.held, MockFT.balanceOf. rewrite sumOver_insert.
      destruct (MockFT.balances s !! sender); simpl; lia.
Qed.

(** Every way [init] of the token can end. *)
Lemma token_init_outcome (o : option string) (t : NumArg) (n sy : string) (d : Z)
    (s : MockFT.State) :
  match MockFT.init o t n sy d s with
  | MockFT.Returned _ s' =>
      MockFT.ownerId s = "" ∧
      ∃ owner supply,
        o = Some owner ∧ owner ≠ "" ∧ t = Numeral supply ∧ 0 < supply ∧
        MockFT.ownerId s' = owner ∧ MockFT.totalSupply s' = supply ∧
        MockFT.balances s' = MockFT.setMember owner supply (MockFT.balances s)
  | MockFT.Threw _ s' => s' = s
  end.
Proof.
  unfold MockFT.init, MockFT.setBalance. run_token.
  case_bool_decide as Howner; [done|].
  destruct o as [owner|]; simpl; [|done].
  case_bool_decide as Hne; [done|].
  destruct t as [| | |supply]; simpl; try done.
  destruct (supply <=? 0) eqn:Hpos; [done|].
  split; [done|]. exists owner, supply. split_and!; try done. lia.
Qed.

Lemma invoke_sound (env : MockFT.Env) (c : MockFT.Call) (s : MockFT.State) :
  MockFT.sound s → MockFT.sound (MockFT.finalState (MockFT.invoke env c s)).
Proof.
  intros Hs. pose proof Hs as (Hsolvent & Hheld & Hnone).
  destruct c as [o t n sy d| | |a|a| |a|r amt|r amt m|sd r amt]; unfold MockFT.invoke.
  - pose proof (token_init_outcome o t n sy d s) as Hout.
    destruct (MockFT.init o t n sy d s) as [[] s'|e s']; simpl; [|by subst].
    destruct Hout as (Hfresh & owner & supply & _ & Hne & _ & Hpos & Ho & Ht & Hb).
    assert (MockFT.held s = 0) as Hzero.
    { specialize (Hnone Hfresh).
      pose proof (sumOver_nonneg (λ z, z) (MockFT.balances s) Hsolvent).
      unfold MockFT.held in *. lia. }
    unfold MockFT.sound, MockFT.solventBalances, MockFT.held.
    rewrite Ho, Ht, Hb. split_and!.
    + unfold MockFT.setMember. destruct (_ && _); [done|].
      apply solvent_insert; [lia|done].
    + pose proof (solvent_balanceOf s owner Hsolvent) as Hold.
      unfold MockFT.balanceOf, MockFT.held in *.
      destruct (setMember_total owner supply (MockFT.balances s)) as [->| ->]; lia.
    + done.
  - by run_token.
  - by run_token.
  - unfold MockFT.ft_balance_of. run_token.
    pose proof (getBalance_sound a s Hs).
    by destruct (MockFT.getBalance a s).
  - unfold MockFT.storage_balance_of. run_token.
    destruct (falsyId a); [done|]. by destruct (negb _).
  - by run_token.
  - unfold MockFT.storage_deposit. run_token.
    destruct (negb _) eqn:Hkey; simpl; [|done].
    apply negb_true_iff, orb_false_iff in Hkey as [Hown _].
    apply bool_decide_eq_false in Hown.
    apply sound_set_balances; [done|..].
    + unfold MockFT.setMember. destruct (_ && _); [done|].
      apply solvent_insert; [lia|done].
    + unfold MockFT.held.
      destruct (setMember_total (default (MockFT.predecessorAccountId env) a)
                  0 (MockFT.balances s)) as [->| ->]; [done|].
      destruct (MockFT.balances s !! _) eqn:Hz; simpl; [|lia].
      destruct Hown. by eexists.
  - unfold MockFT.ft_transfer, MockFT.assertOneYocto. run_token.
    case_bool_decide; [done|].
    destruct amt as [| | |z]; simpl; try done.
    destruct (z <=? 0) eqn:Hpos; [done|].
    apply internalTransfer_sound; [lia|done].
  - unfold MockFT.ft_transfer_call, MockFT.assertOneYocto. run_token.
    case_bool_decide; [done|].
    destruct amt as [| | |z]; simpl; try done.
    destruct (z <=? 0) eqn:Hpos; [done|].
    pose proof (internalTransfer_sound (MockFT.predecessorAccountId env) r z s)
      as Hsound.
    destruct (MockFT.internalTransfer _ r z s); simpl in *; apply Hsound;
      try done; lia.
  - unfold mbind, MockFT.M_bind. unfold MockFT.ft_resolve_transfer.
    rewrite token_call_private.
    case_bool_decide; [done|].
    destruct (MockFT.attachedDeposit env >? 0); [done|].
    unfold MockFT.assertSelf. run_token.
    case_bool_decide; [done|].
    destruct amt as [| | |z]; simpl; try done; rewrite cap_min;
      (destruct (Z.min _ _ >? 0) eqn:Hpos; [|done]);
      match goal with |- context [MockFT.internalTransfer r sd ?u s] =>
        pose proof (internalTransfer_sound r sd u s) as Hsound;
        destruct (MockFT.internalTransfer r sd u s); simpl in *;
        apply Hsound; try done; lia
      end.
Qed.

Lemma token_reachable_sound (s : MockFT.State) :
  MockFT.reachable s → MockFT.sound s.
Proof.
  intros Hreach.
  apply (rtc_ind_r (R := MockFT.step) MockFT.sound MockFT.fresh); [|  |done].
  - unfold MockFT.sound, MockFT.solventBalances, MockFT.held. simpl.
    split_and!; [by intros ? ?; rewrite lookup_empty|by rewrite sumOver_empty|done].
  - intros before after _ [env c s0] Hbefore. by apply invoke_sound.
Qed.

(** X27: the token creates nothing.  In every state the token can reach
    from its initial one, by any calls of anyone, returning or throwing,
    no account has a negative balance and the balances together do not
    exceed the total supply. *)
Theorem token_holdings_within_supply (s : MockFT.State) :
  MockFT.reachable s →
  (∀ account, 0 ≤ MockFT.balanceOf s account) ∧
  MockFT.held s ≤ MockFT.totalSupply s.
Proof.
  intros (Hsolvent & Hheld & _)%token_reachable_sound.
  split; [|done]. intros account. by apply solvent_balanceOf.
Qed.

Lemma token_holdings_within_supply_witness :
  let env := {| MockFT.predecessorAccountId := "owner.near";
                MockFT.currentAccountId := "token.near";
                MockFT.attachedDeposit := 1;
                MockFT.promiseResult := MockFT.PromiseFailed |} in
  let s := MockFT.finalState
             (MockFT.invoke env
                (MockFT.call_ft_transfer "vesting.near" (Numeral 20000))
                (MockFT.finalState
                   (MockFT.invoke env
                      (MockFT.call_init (Some "owner.near") (Numeral 50000)
                         "Mock" "MCK" 18) MockFT.fresh))) in
  (∀ account, 0 ≤ MockFT.balanceOf s account) ∧
  MockFT.held s ≤ MockFT.totalSupply s.
Proof.
  intros env s. apply (token_holdings_within_supply s).
  eapply rtc_l; [apply MockFT.step_call|].
  eapply rtc_l; [apply MockFT.step_call|]. apply rtc_refl.
Defined.

(** X28: what [init] of the token mints.  When [init] returns on a token
    without balances, the owner and the total supply are the ones given,
    the supply being a positive numeral, and the owner holds the whole
    supply and nobody else holds anything; unless the owner's name is
    [__proto__], the one name a plain object does not store: then the
    supply is recorded and nobody holds it. *)
Theorem token_init_mints_to_owner (o : option string) (t : NumArg)
    (n sy : string) (d : Z) (s s' : MockFT.State) :
  MockFT.init o t n sy d s = MockFT.Returned tt s' →
  MockFT.balances s = ∅ →
  ∃ owner supply,
    o = Some owner ∧ owner ≠ "" ∧ t = Numeral supply ∧ 0 < supply ∧
    MockFT.ownerId s' = owner ∧ MockFT.totalSupply s' = supply ∧
    MockFT.balances s' =
      (if bool_decide (owner = "__proto__") then ∅ else {[ owner := supply ]}) ∧
    MockFT.held s' = (if bool_decide (owner = "__proto__") then 0 else supply).
Proof.
  intros Hinit Hempty.
  pose proof (token_init_outcome o t n sy d s) as Hout. rewrite Hinit in Hout.
  destruct Hout as (_ & owner & supply & -> & Hne & -> & Hpos & Ho & Ht & Hb).
  exists owner, supply.
  assert (MockFT.balances s' =
          (if bool_decide (owner = "__proto__") then ∅ else {[ owner := supply ]}))
    as Hbalances.
  { rewrite Hb, Hempty. unfold MockFT.setMember.
    rewrite lookup_empty, (bool_decide_eq_true_2 (None = None)) by done.
    rewrite andb_true_r. by destruct (bool_decide (owner = "__proto__")). }
  split_and!; try done.
  unfold MockFT.held. rewrite Hbalances.
  destruct (bool_decide (owner = "__proto__")); [by rewrite sumOver_empty|].
  unfold singletonM, map_singleton.
  rewrite sumOver_insert_fresh by apply lookup_empty.
  rewrite sumOver_empty. lia.
Qed.

Lemma token_init_mints_to_owner_witness :
  let s' := MockFT.finalState
              (MockFT.init (Some "owner.near") (Numeral 50000) "Mock" "MCK" 18
                 MockFT.fresh) in
  ∃ owner supply,
    Some "owner.near" = Some owner ∧ owner ≠ "" ∧
    Numeral 50000 = Numeral supply ∧ 0 < supply ∧
    MockFT.ownerId s' = owner ∧ MockFT.totalSupply s' = supply ∧
    MockFT.balances s' =
      (if bool_decide (owner = "__proto__") then ∅ else {[ owner := supply ]}) ∧
    MockFT.held s' = (if bool_decide (owner = "__proto__") then 0 else supply).
Proof.
  intros s'.
  apply (token_init_mints_to_owner (Some "owner.near") (Numeral 50000)
           "Mock" "MCK" 18 MockFT.fresh s'); reflexivity.
Defined.

(** ** The token and the contract together *)

(** X29: a deposit by [ft_transfer_call] is credited in full on both
    sides.  When the token's [ft_transfer_call] towards the vesting
    contract returns, the [ft_on_transfer] it requests, run by the
    vesting contract for which this token is the configured one and with
    the deposit the token requests it with (none), returns "0" and adds
    to the pool and to the deposited total exactly the amount by which
    the token has increased the balance of the vesting contract; and
    [ft_resolve_transfer], resumed by the token with that answer and the
    same deposit, reports the whole amount as used and moves nothing
    back. *)
Theorem deposit_through_transfer_call (tenv : MockFT.Env) (env : Env)
    (amount : NumArg) (msg : string) (t t' : MockFT.State)
    (requested : MockFT.TransferCall) (s : State) :
  MockFT.ft_transfer_call tenv (currentAccountId env) amount msg t
    = MockFT.Returned requested t' →
  predecessorAccountId env = tokenAccountId s →
  attachedDeposit env = MockFT.call_deposit requested →
  ∃ a,
    amount = Numeral a ∧ 0 < a ∧
    MockFT.balanceOf t' (currentAccountId env)
      = MockFT.balanceOf t (currentAccountId env) + a ∧
    ft_on_transfer env (Some (MockFT.call_sender_id requested))
      (MockFT.call_amount requested) (Some (MockFT.call_msg requested)) s
      = Returned "0" (credit a s) ∧
    poolBalance (credit a s) = poolBalance s + a ∧
    totalDeposited (credit a s) = totalDeposited s + a ∧
    ∀ renv,
      MockFT.predecessorAccountId renv = MockFT.currentAccountId renv →
      MockFT.attachedDeposit renv = MockFT.call_deposit requested →
      MockFT.promiseResult renv = MockFT.Amount 0 →
      MockFT.ft_resolve_transfer renv (MockFT.call_sender_id requested)
        (MockFT.call_receiver_id requested) (MockFT.call_amount requested) t'
        = MockFT.Returned a t'.
Proof.
  unfold MockFT.ft_transfer_call, MockFT.assertOneYocto. run_token.
  case_bool_decide as Hyocto; [done|].
  destruct amount as [| | |a]; simpl; try done.
  destruct (a <=? 0) eqn:Hpos; [done|].
  destruct (MockFT.internalTransfer _ _ a t) as [[] t1|] eqn:Htransfer; [|done].
  intros [= <- <-] Htoken Hdeposit. simpl in Hdeposit.
  destruct (internalTransfer_effect _ _ _ _ _ Htransfer)
    as (_ & _ & _ & Hreceived & _).
  exists a. split_and!; try done; [lia|..].
  - unfold ft_on_transfer. rewrite call_public, Hdeposit. simpl.
    unfold assertTokenCaller. run. simpl.
    rewrite bool_decide_eq_false_2 by (by intros ?). by rewrite Hpos.
  - intros renv Hself Hfree Hzero. simpl in *.
    unfold MockFT.ft_resolve_transfer. rewrite token_call_private, Hfree.
    rewrite bool_decide_eq_false_2 by (by intros ?). simpl.
    unfold MockFT.assertSelf. run_token.
    rewrite bool_decide_eq_false_2 by (by intros ?). rewrite Hzero.
    replace (0 >? a) with false by lia. simpl. do 2 f_equal. lia.
Qed.

Lemma deposit_through_transfer_call_witness :
  let tenv := {| MockFT.predecessorAccountId := "owner.near";
                 MockFT.currentAccountId := "token.near";
                 MockFT.attachedDeposit := 1;
                 MockFT.promiseResult := MockFT.PromiseFailed |} in
  let env := unpaid_env "token.near" 30 true in
  let t := MockFT.set_balances {[ "owner.near" := 50000 ]} MockFT.fresh in
  let t' := MockFT.set_balances
              {[ "owner.near" := 30000; "vesting.near" := 20000 ]}
              MockFT.fresh in
  let requested := {| MockFT.call_receiver_id := "vesting.near";
                      MockFT.call_sender_id := "owner.near";
                      MockFT.call_amount := Numeral 20000;
                      MockFT.call_msg := "";
                      MockFT.call_deposit := NO_DEPOSIT |} in
  let s := sample_state in
  ∃ a,
    Numeral 20000 = Numeral a ∧ 0 < a ∧
    MockFT.balanceOf t' (currentAccountId env)
      = MockFT.balanceOf t (currentAccountId env) + a ∧
    ft_on_transfer env (Some (MockFT.call_sender_id requested))
      (MockFT.call_amount requested) (Some (MockFT.call_msg requested)) s
      = Returned "0" (credit a s) ∧
    poolBalance (credit a s) = poolBalance s + a ∧
    totalDeposited (credit a s) = totalDeposited s + a ∧
    ∀ renv,
      MockFT.predecessorAccountId renv = MockFT.currentAccountId renv →
      MockFT.attachedDeposit renv = MockFT.call_deposit requested →
      MockFT.promiseResult renv = MockFT.Amount 0 →
      MockFT.ft_resolve_transfer renv (MockFT.call_sender_id requested)
        (MockFT.call_receiver_id requested) (MockFT.call_amount requested) t'
        = MockFT.Returned a t'.
Proof.
  intros tenv env t t' requested s.
  apply (deposit_through_transfer_call tenv env (Numeral 20000) "" t t'
           requested s); by vm_compute.
Defined.

(** X30: registering an account with the token.  [storage_deposit] always
    returns; afterwards the account given, or the caller if none is
    given, is a key of the balances, so that [storage_balance_of]
    answers with a balance for it; and no account's balance has
    changed. *)
Theorem storage_deposit_registers (env : MockFT.Env) (account_id : option string)
    (s : MockFT.State) :
  let target := default (MockFT.predecessorAccountId env) account_id in
  ∃ s',
    MockFT.storage_deposit env account_id s =
      MockFT.Returned {| MockFT.total := 0; MockFT.available := 0 |} s' ∧
    MockFT.hasKey target (MockFT.balances s') = true ∧
    (∀ account, MockFT.balanceOf s' account = MockFT.balanceOf s account) ∧
    (target ≠ "" →
     MockFT.storage_balance_of (Some target) s' =
       MockFT.Returned (Some {| MockFT.total := 0; MockFT.available := 0 |}) s').
Proof.
  intros target. unfold MockFT.storage_deposit. run_token. fold target.
  assert (∀ s' : MockFT.State,
    MockFT.hasKey target (MockFT.balances s') = true →
    target ≠ "" →
    MockFT.storage_balance_of (Some target) s' =
      MockFT.Returned (Some {| MockFT.total := 0; MockFT.available := 0 |}) s')
    as Hview.
  { intros s' Hkey Hne. unfold MockFT.storage_balance_of. run_token. simpl.
    rewrite bool_decide_eq_false_2 by done. simpl. by rewrite Hkey. }
  destruct (MockFT.hasKey target (MockFT.balances s)) eqn:Hkey; simpl.
  - exists s. split_and!; try done. by apply Hview.
  - eexists. split; [reflexivity|]. simpl.
    apply orb_false_iff in Hkey as [Hown Hin].
    apply bool_decide_eq_false in Hown.
    assert (MockFT.balances s !! target = None) as Hnone.
    { destruct (MockFT.balances s !! target) eqn:Hz; [|done].
      destruct Hown. by eexists. }
    assert (MockFT.setMember target 0 (MockFT.balances s)
            = <[target := 0]> (MockFT.balances s)) as ->.
    { apply setMember_missing. unfold MockFT.getMember. by rewrite Hnone, Hin. }
    assert (MockFT.hasKey target (<[target := 0]> (MockFT.balances s)) = true)
      as Hnow.
    { unfold MockFT.hasKey. rewrite lookup_insert_eq.
      rewrite bool_decide_eq_true_2; [done|by eexists]. }
    split_and!; [done| |by apply Hview].
    intros account. unfold MockFT.balanceOf. simpl.
    destruct (decide (account = target)) as [->|Hne].
    + by rewrite lookup_insert_eq, Hnone.
    + by rewrite lookup_insert_ne.
Qed.
